(** * Combat simulation core of the FPS game (fps-game/src/main.js)

    A shallow embedding of the simulation core of [main.js]: weapon runtime
    and fire gating, the combat resolver, the enemy registry and behaviour,
    the damage and health model, the locomotion tick and the game loop.

    Conventions of the embedding.
    - JavaScript numbers that hold times, speeds and coordinates are
      rationals ([Q]); counters that the program only ever moves by whole
      steps (ammo, health, damage) are integers ([Z]). Where the program
      tests a computed number against a threshold (the rate-of-fire gate,
      the damage window, the enemy cooldown, the hit chance) the
      computation is rounded as double arithmetic rounds it: [fl x] is the
      double nearest to [x] (binary64, round to nearest, ties to even,
      subnormals included; numbers beyond the largest double are out of the
      program's reach and are not turned into [Infinity]). [60000 / rpm] is
      [Infinity] for [rpm] 0, which no elapsed time reaches. The damage of
      an enemy shot, [randInt(6, 14)], is rounded in the same way, since
      the rounding decides whether 14 can be drawn. Positions, velocities
      and the other draws of [randFloat] and [randInt] are kept in exact
      arithmetic.
    - The mutable globals of the module ([player], [weaponState],
      [enemyManager], [camera], ...) are the fields of one [World] record
      that every function threads through the [Sim] monad.
    - JavaScript objects that are shared by reference (enemies, meshes) are
      references ([nat]) into a store; the element of [weaponState] a closure
      captured is its index. A property access on [undefined] (a weapon
      index outside the catalog) is the failure of the monad.
    - What the browser and three.js provide ([performance.now],
      [Math.random], [Raycaster.intersectObjects], [Vector3.length],
      [Vector3.normalize], [Math.cos], [Math.sin]) is an environment [Env] of
      oracles; the [k]-th call of an oracle may answer anything.
    - [setTimeout] appends to a queue of pending one-shot timers, each with
      its delay; a timer expires when [fireTimer] runs it.
    - DOM writes, scene-graph effects and the short-lived meshes and sprites
      of [spawnImpact], [spawnHitMarker] and [flashMuzzle] are presentation
      events in a log, which also records each call of the hit-query
      service; the timers that take an impact (250 ms) or a hit marker
      (220 ms) off the scene are in the timer queue like any other. The
      muzzle-flash sprite exists once [initWorld] has run. *)

From Stdlib Require Import ZArith QArith Qround Qminmax Qabs String List Lia Bool.
From stdpp Require Import base option list gmap.

Local Open Scope Z_scope.
Local Open Scope Q_scope.

(** ** Numbers *)

Definition Qlt_bool (x y : Q) : bool := negb (Qle_bool y x).

(** [function clamp(value, min, max) { return Math.max(min, Math.min(max, value)); }] *)
Definition clamp (value min max : Q) : Q := Qmax min (Qmin max value).

(** [randFloat] and [randInt] applied to the outcome [r] of [Math.random()]. *)
Definition randFloat_of (r min max : Q) : Q := r * (max - min) + min.
Definition randInt_of (r min max : Q) : Z := Qfloor (randFloat_of r min max).

(** *** Doubles

    [rne y] is the integer nearest to [y], the even one of the two when [y]
    lies halfway. *)
Definition rne (y : Q) : Z :=
  let f := Qfloor y in
  match Qcompare (y - inject_Z f) (1 # 2) with
  | Lt => f
  | Gt => (f + 1)%Z
  | Eq => if Z.even f then f else (f + 1)%Z
  end.

(** The double nearest to [x >= 0]. With [y = x * 2^1074] the doubles are
    the numbers [m * 2^s / 2^1074] with [m < 2^53] for [s = 0] (the
    subnormals and the first binade) and [2^52 <= m <= 2^53] for [s > 0];
    [s] is read off the position of the leading bit of [y]. *)
Definition roundPos (x : Q) : Q :=
  let y := x * inject_Z (2 ^ 1074) in
  let s := Z.max 0 (Z.log2 (Qfloor y) - 52) in
  inject_Z (rne (y / inject_Z (2 ^ s)) * 2 ^ s) / inject_Z (2 ^ 1074).

(** The double nearest to [x]: what a double operation returns when its
    exact result is [x]. *)
Definition fl (x : Q) : Q :=
  Qred (if Qle_bool 0 x then roundPos x else - roundPos (- x)).

(** [clamp(0.6 - dist / 2000, 0.05, 0.35)], the [hitChance] of
    [attemptEnemyShot]; the three literals are doubles. *)
Definition hitChanceAt (dist : Q) : Q :=
  clamp (fl (fl (6 # 10) - fl (dist / 2000))) (fl (5 # 100)) (fl (35 # 100)).

(** [randFloat(min, max)] and [randInt(min, max)] as doubles compute them
    from the outcome [r] of [Math.random()]: [r * (max - min) + min], each
    operation rounded, and [Math.floor] of it. The rounding can reach
    [max]: [randInt(6, 14)] is 14 at the largest double below 1. *)
Definition randFloat_double (r min max : Q) : Q := fl (fl (r * fl (max - min)) + min).
Definition randInt_double (r min max : Q) : Z := Qfloor (randFloat_double r min max).

(** ** Vectors (three.js [Vector3]) *)

Record Vec3 : Type := mkVec3 { vx : Q; vy : Q; vz : Q }.

Definition vzero : Vec3 := mkVec3 0 0 0.
Definition vadd (a b : Vec3) : Vec3 := mkVec3 (vx a + vx b) (vy a + vy b) (vz a + vz b).
Definition vsub (a b : Vec3) : Vec3 := mkVec3 (vx a - vx b) (vy a - vy b) (vz a - vz b).
Definition vscale (a : Vec3) (s : Q) : Vec3 := mkVec3 (vx a * s) (vy a * s) (vz a * s).
(** [a.addScaledVector(v, s)] *)
Definition addScaledVector (a v : Vec3) (s : Q) : Vec3 :=
  mkVec3 (vx a + vx v * s) (vy a + vy v * s) (vz a + vz v * s).
Definition lengthSq (a : Vec3) : Q := vx a * vx a + vy a * vy a + vz a * vz a.

(** ** Data model *)

Module WeaponDef.
Record t : Type := mk {
  key : string; name : string; damage : Z; rpm : Q; mag : Z; reserve : Z;
  reload : Q; spread : Q; range : Q; pellets : option nat; auto : bool }.
End WeaponDef.

Module WeaponState.
Record t : Type := mk {
  ammo : Z; reserve : Z; lastShotTime : Q; reloading : bool; skinIndex : Z }.
End WeaponState.

Module Player.
Record t : Type := mk {
  velocity : Vec3; onGround : bool; health : Z; lastDamageTime : Q }.
End Player.

Module Input.
Record t : Type := mk {
  forward : bool; backward : bool; left : bool; right : bool;
  jump : bool; sprint : bool; shooting : bool }.
End Input.

Inductive EnemyMode : Type := Patrol | Chase | Attack.

(** The behaviour state [updateEnemies] assigns at distance [dist]. *)
Definition modeAt (dist : Q) : EnemyMode :=
  if Qlt_bool dist 700 then Attack
  else if Qlt_bool dist 1100 then Chase
  else Patrol.

Module Enemy.
(** [position] is [group.position]; [barScale] and [barGreen] are the
    health bar's [scale.x] and whether its colour is the green one. *)
Record t : Type := mk {
  mesh : nat; health : Z; state : EnemyMode; nextWanderTime : Q;
  wanderDir : Vec3; lastShotTime : Q; position : Vec3;
  barScale : Q; barGreen : bool }.
End Enemy.

Module Camera.
(** [position] is [camera.position] (the object [controls.getObject()]
    returns); [aim] is [(0,0,-1).applyQuaternion(camera.quaternion)];
    [yaw] is [rotation.y]. *)
Record t : Type := mk { position : Vec3; aim : Vec3; yaw : Q }.
End Camera.

(** [const enemyManager = { enemies: [], hitMeshes: [], meshToEnemy: new Map() }] *)
Module EnemyManager.
Record t : Type := mk {
  enemies : list nat; hitMeshes : list nat; meshToEnemy : gmap nat nat }.
End EnemyManager.

Record Ray : Type := mkRay { origin : Vec3; direction : Vec3; far : Q }.

(** One entry of the array [intersectObjects] returns. *)
Record Hit : Type := mkHit { object : nat; point : Vec3; normal : option Vec3 }.

(** The closures handed to [setTimeout]. *)
Inductive Callback : Type :=
  | ReloadDone (i : nat)   (* the arrow function of [tryReload], for [weaponState[i]] *)
  | RespawnPlayer          (* [respawnPlayer] *)
  | CreateEnemy            (* [() => { createEnemy(); }] *)
  | RemoveImpact           (* [() => { scene.remove(m); ... }] of [spawnImpact] *)
  | RemoveHitMarker.       (* [() => scene.remove(sprite)] of [spawnHitMarker] *)

Record Timer : Type := mkTimer { callback : Callback; delay : Q }.

(** Calls to the hit-query service and presentation events, as emitted. *)
Inductive Event : Type :=
  | EnemyQuery (r : Ray)
  | WorldQuery (r : Ray)
  | HitMarker (p : Vec3)
  | Impact (p : Vec3) (n : option Vec3)
  | MuzzleFlash
  | HudRefresh
  | SceneRemove (enemy : nat)
  | SceneAdd (enemy : nat).

Record World : Type := mkWorld {
  nowIdx : nat;                 (* calls of [performance.now()] so far *)
  rndIdx : nat;                 (* calls of [Math.random()] so far *)
  queryIdx : nat;               (* calls of [intersectObjects] so far *)
  nextRef : nat;                (* next fresh object identity *)
  currentWeaponIndex : nat;
  weaponState : list WeaponState.t;
  player : Player.t;
  input : Input.t;
  camera : Camera.t;
  enemyManager : EnemyManager.t;
  store : gmap nat Enemy.t;     (* the enemy objects, by identity *)
  worldColliders : list nat;
  statusText : string;
  timers : list Timer;
  log : list Event              (* newest first *)
}.

(** The browser and three.js. *)
Record Env : Type := mkEnv {
  performance_now : nat -> Q;
  Math_random : nat -> Q;
  intersectObjects : nat -> list nat -> Ray -> list Hit;
  Vector3_length : Vec3 -> Q;
  Vector3_normalize : Vec3 -> Vec3;
  Math_cos : Q -> Q;
  Math_sin : Q -> Q }.

(** ** Config *)

Definition WORLD_SIZE : Q := 3200.
Definition ENEMY_TARGET_COUNT : nat := 18.
Definition GRAVITY : Q := 64.
Definition PLAYER_SPEED : Q := 180.
Definition PLAYER_SPRINT_MULTIPLIER : Q := 17 # 10.
Definition PLAYER_JUMP_VELOCITY : Q := 260.
Definition PLAYER_MAX_HEALTH : Z := 100.

Definition WEAPON_DEFS : list WeaponDef.t :=
  [ WeaponDef.mk "pistol" "Pistol" 22 420 15 90 (12 # 10) (6 # 1000) 1000 None false;
    WeaponDef.mk "smg" "SMG" 16 900 32 192 (16 # 10) (10 # 1000) 850 None true;
    WeaponDef.mk "ar" "Assault Rifle" 28 700 30 180 (18 # 10) (8 # 1000) 1100 None true;
    WeaponDef.mk "shotgun" "Shotgun" 12 85 8 48 (22 # 10) (35 # 1000) 250 (Some 8%nat) false;
    WeaponDef.mk "sniper" "Sniper" 95 55 5 25 (28 # 10) (1 # 1000) 2200 None false;
    WeaponDef.mk "lmg" "LMG" 24 720 60 360 3 (12 # 1000) 1200 None true ].

(** ** The simulation monad: state over [World], [None] for a [TypeError] *)

Definition Sim (A : Type) : Type := World -> option (A * World).

Definition ret {A : Type} (a : A) : Sim A := fun w => Some (a, w).

Definition bind {A B : Type} (m : Sim A) (k : A -> Sim B) : Sim B :=
  fun w => match m w with
           | Some (a, w') => k a w'
           | None => None
           end.

Definition throw {A : Type} : Sim A := fun _ => None.

Definition gets {A : Type} (f : World -> A) : Sim A := fun w => Some (f w, w).

Definition modify (f : World -> World) : Sim unit := fun w => Some (tt, f w).

(** Property access on a value that may be [undefined]. *)
Definition defined {A : Type} (o : option A) : Sim A :=
  match o with
  | Some a => ret a
  | None => throw
  end.

Declare Scope sim_scope.
Delimit Scope sim_scope with sim.
Notation "'let*' x ':=' c 'in' k" := (bind c (fun x => k))
  (at level 10, x name, c at level 100, k at level 200) : sim_scope.
Notation "c ';;' k" := (bind c (fun _ => k))
  (at level 100, k at level 200, right associativity) : sim_scope.
Local Open Scope sim_scope.

(** Field updates of the world. *)

Definition set_nowIdx (n : nat) (w : World) : World :=
  mkWorld n (rndIdx w) (queryIdx w) (nextRef w) (currentWeaponIndex w) (weaponState w)
    (player w) (input w) (camera w) (enemyManager w) (store w) (worldColliders w)
    (statusText w) (timers w) (log w).
Definition set_rndIdx (n : nat) (w : World) : World :=
  mkWorld (nowIdx w) n (queryIdx w) (nextRef w) (currentWeaponIndex w) (weaponState w)
    (player w) (input w) (camera w) (enemyManager w) (store w) (worldColliders w)
    (statusText w) (timers w) (log w).
Definition set_queryIdx (n : nat) (w : World) : World :=
  mkWorld (nowIdx w) (rndIdx w) n (nextRef w) (currentWeaponIndex w) (weaponState w)
    (player w) (input w) (camera w) (enemyManager w) (store w) (worldColliders w)
    (statusText w) (timers w) (log w).
Definition set_nextRef (n : nat) (w : World) : World :=
  mkWorld (nowIdx w) (rndIdx w) (queryIdx w) n (currentWeaponIndex w) (weaponState w)
    (player w) (input w) (camera w) (enemyManager w) (store w) (worldColliders w)
    (statusText w) (timers w) (log w).
Definition set_currentWeaponIndex (i : nat) (w : World) : World :=
  mkWorld (nowIdx w) (rndIdx w) (queryIdx w) (nextRef w) i (weaponState w)
    (player w) (input w) (camera w) (enemyManager w) (store w) (worldColliders w)
    (statusText w) (timers w) (log w).
Definition set_weaponState (ws : list WeaponState.t) (w : World) : World :=
  mkWorld (nowIdx w) (rndIdx w) (queryIdx w) (nextRef w) (currentWeaponIndex w) ws
    (player w) (input w) (camera w) (enemyManager w) (store w) (worldColliders w)
    (statusText w) (timers w) (log w).
Definition set_player (p : Player.t) (w : World) : World :=
  mkWorld (nowIdx w) (rndIdx w) (queryIdx w) (nextRef w) (currentWeaponIndex w) (weaponState w)
    p (input w) (camera w) (enemyManager w) (store w) (worldColliders w)
    (statusText w) (timers w) (log w).
Definition set_camera (c : Camera.t) (w : World) : World :=
  mkWorld (nowIdx w) (rndIdx w) (queryIdx w) (nextRef w) (currentWeaponIndex w) (weaponState w)
    (player w) (input w) c (enemyManager w) (store w) (worldColliders w)
    (statusText w) (timers w) (log w).
Definition set_enemyManager (m : EnemyManager.t) (w : World) : World :=
  mkWorld (nowIdx w) (rndIdx w) (queryIdx w) (nextRef w) (currentWeaponIndex w) (weaponState w)
    (player w) (input w) (camera w) m (store w) (worldColliders w)
    (statusText w) (timers w) (log w).
Definition set_store (s : gmap nat Enemy.t) (w : World) : World :=
  mkWorld (nowIdx w) (rndIdx w) (queryIdx w) (nextRef w) (currentWeaponIndex w) (weaponState w)
    (player w) (input w) (camera w) (enemyManager w) s (worldColliders w)
    (statusText w) (timers w) (log w).
Definition set_statusText (s : string) (w : World) : World :=
  mkWorld (nowIdx w) (rndIdx w) (queryIdx w) (nextRef w) (currentWeaponIndex w) (weaponState w)
    (player w) (input w) (camera w) (enemyManager w) (store w) (worldColliders w)
    s (timers w) (log w).
Definition set_timers (t : list Timer) (w : World) : World :=
  mkWorld (nowIdx w) (rndIdx w) (queryIdx w) (nextRef w) (currentWeaponIndex w) (weaponState w)
    (player w) (input w) (camera w) (enemyManager w) (store w) (worldColliders w)
    (statusText w) t (log w).
Definition set_log (l : list Event) (w : World) : World :=
  mkWorld (nowIdx w) (rndIdx w) (queryIdx w) (nextRef w) (currentWeaponIndex w) (weaponState w)
    (player w) (input w) (camera w) (enemyManager w) (store w) (worldColliders w)
    (statusText w) (timers w) l.

Definition set_lastShotTime (t : Q) (s : WeaponState.t) : WeaponState.t :=
  WeaponState.mk (WeaponState.ammo s) (WeaponState.reserve s) t
    (WeaponState.reloading s) (WeaponState.skinIndex s).
Definition set_reloading (b : bool) (s : WeaponState.t) : WeaponState.t :=
  WeaponState.mk (WeaponState.ammo s) (WeaponState.reserve s) (WeaponState.lastShotTime s)
    b (WeaponState.skinIndex s).
Definition set_ammo (a : Z) (s : WeaponState.t) : WeaponState.t :=
  WeaponState.mk a (WeaponState.reserve s) (WeaponState.lastShotTime s)
    (WeaponState.reloading s) (WeaponState.skinIndex s).
Definition set_reserve (r : Z) (s : WeaponState.t) : WeaponState.t :=
  WeaponState.mk (WeaponState.ammo s) r (WeaponState.lastShotTime s)
    (WeaponState.reloading s) (WeaponState.skinIndex s).

Definition set_velocity (v : Vec3) (p : Player.t) : Player.t :=
  Player.mk v (Player.onGround p) (Player.health p) (Player.lastDamageTime p).
Definition set_onGround (b : bool) (p : Player.t) : Player.t :=
  Player.mk (Player.velocity p) b (Player.health p) (Player.lastDamageTime p).
Definition set_health (h : Z) (p : Player.t) : Player.t :=
  Player.mk (Player.velocity p) (Player.onGround p) h (Player.lastDamageTime p).
Definition set_lastDamageTime (t : Q) (p : Player.t) : Player.t :=
  Player.mk (Player.velocity p) (Player.onGround p) (Player.health p) t.

Definition set_position (v : Vec3) (c : Camera.t) : Camera.t :=
  Camera.mk v (Camera.aim c) (Camera.yaw c).

Definition set_state (m : EnemyMode) (e : Enemy.t) : Enemy.t :=
  Enemy.mk (Enemy.mesh e) (Enemy.health e) m (Enemy.nextWanderTime e) (Enemy.wanderDir e)
    (Enemy.lastShotTime e) (Enemy.position e) (Enemy.barScale e) (Enemy.barGreen e).
Definition set_nextWanderTime (t : Q) (e : Enemy.t) : Enemy.t :=
  Enemy.mk (Enemy.mesh e) (Enemy.health e) (Enemy.state e) t (Enemy.wanderDir e)
    (Enemy.lastShotTime e) (Enemy.position e) (Enemy.barScale e) (Enemy.barGreen e).
Definition set_wanderDir (v : Vec3) (e : Enemy.t) : Enemy.t :=
  Enemy.mk (Enemy.mesh e) (Enemy.health e) (Enemy.state e) (Enemy.nextWanderTime e) v
    (Enemy.lastShotTime e) (Enemy.position e) (Enemy.barScale e) (Enemy.barGreen e).
Definition set_enemyLastShotTime (t : Q) (e : Enemy.t) : Enemy.t :=
  Enemy.mk (Enemy.mesh e) (Enemy.health e) (Enemy.state e) (Enemy.nextWanderTime e)
    (Enemy.wanderDir e) t (Enemy.position e) (Enemy.barScale e) (Enemy.barGreen e).
Definition set_enemyPosition (v : Vec3) (e : Enemy.t) : Enemy.t :=
  Enemy.mk (Enemy.mesh e) (Enemy.health e) (Enemy.state e) (Enemy.nextWanderTime e)
    (Enemy.wanderDir e) (Enemy.lastShotTime e) v (Enemy.barScale e) (Enemy.barGreen e).

Definition upd_enemy (h : Z) (scale : Q) (green : bool) (e : Enemy.t) : Enemy.t :=
  Enemy.mk (Enemy.mesh e) h (Enemy.state e) (Enemy.nextWanderTime e) (Enemy.wanderDir e)
    (Enemy.lastShotTime e) (Enemy.position e) scale green.

(** ** The program *)

Section Game.

(** The browser and three.js. *)
Variable E : Env.
(** The weapon catalog: the program's is [WEAPON_DEFS]; the functions below
    only ever index it. *)
Variable defs : list WeaponDef.t.

(** *** Primitive effects *)

(** [performance.now()] *)
Definition now : Sim Q :=
  fun w => Some (performance_now E (nowIdx w), set_nowIdx (S (nowIdx w)) w).

(** [Math.random()] *)
Definition random : Sim Q :=
  fun w => Some (Math_random E (rndIdx w), set_rndIdx (S (rndIdx w)) w).

(** A new object identity ([new THREE.Mesh], an object literal). *)
Definition fresh : Sim nat :=
  fun w => Some (nextRef w, set_nextRef (S (nextRef w)) w).

Definition emit (e : Event) : Sim unit :=
  modify (fun w => set_log (e :: log w) w).

Definition setStatus (s : string) : Sim unit := modify (set_statusText s).

Definition setTimeout (cb : Callback) (ms : Q) : Sim unit :=
  modify (fun w => set_timers (timers w ++ [mkTimer cb ms]) w).

(** [raycaster.intersectObjects(pool, true)] for the ray the raycaster was set to. *)
Definition queryPool (tag : Ray -> Event) (pool : list nat) (r : Ray) : Sim (list Hit) :=
  fun w => Some (intersectObjects E (queryIdx w) pool r,
                 set_log (tag r :: log w) (set_queryIdx (S (queryIdx w)) w)).

Definition randFloat (min max : Q) : Sim Q :=
  let* r := random in ret (randFloat_of r min max).

Definition randInt (min max : Q) : Sim Z :=
  let* r := random in ret (randInt_of r min max).

(** [randInt(min, max)] where the integer is an amount of damage: rounded
    as the doubles are. *)
Definition randIntDouble (min max : Q) : Sim Z :=
  let* r := random in ret (randInt_double r min max).

Definition updateHUD : Sim unit := emit HudRefresh.

Definition spawnImpact (p : Vec3) (n : option Vec3) : Sim unit :=
  emit (Impact p n) ;; setTimeout RemoveImpact 250.

Definition spawnHitMarker (p : Vec3) : Sim unit :=
  emit (HitMarker p) ;; setTimeout RemoveHitMarker 220.

(** *** Weapons *)

Definition getCurrentWeaponDef : Sim (option WeaponDef.t) :=
  gets (fun w => defs !! currentWeaponIndex w).

Definition getCurrentWeaponState : Sim (option WeaponState.t) :=
  gets (fun w => weaponState w !! currentWeaponIndex w).

(** A write through the captured reference [st], which is [weaponState[i]]. *)
Definition updWeapon (i : nat) (f : WeaponState.t -> WeaponState.t) : Sim unit :=
  modify (fun w => set_weaponState (alter f i (weaponState w)) w).

Definition tryReload : Sim unit :=
  let* def := getCurrentWeaponDef in
  let* i := gets currentWeaponIndex in
  let* st := getCurrentWeaponState in
  let* s := defined st in
  if WeaponState.reloading s then ret tt else
  let* d := defined def in
  if (WeaponDef.mag d <=? WeaponState.ammo s)%Z || (WeaponState.reserve s <=? 0)%Z
  then ret tt else
  updWeapon i (set_reloading true) ;;
  setStatus "Reloading..." ;;
  setTimeout (ReloadDone i) (WeaponDef.reload d * 1000).

(** The arrow function [tryReload] hands to [setTimeout]; [def] and [st]
    are the objects it captured. *)
Definition reloadDone (i : nat) : Sim unit :=
  let* d := defined (defs !! i) in
  let* st := gets (fun w => weaponState w !! i) in
  let* s := defined st in
  let needed := (WeaponDef.mag d - WeaponState.ammo s)%Z in
  let take := Z.min needed (WeaponState.reserve s) in
  updWeapon i (fun s => set_ammo (WeaponState.ammo s + take) s) ;;
  updWeapon i (fun s => set_reserve (WeaponState.reserve s - take) s) ;;
  updWeapon i (set_reloading false) ;;
  setStatus "" ;;
  updateHUD.

(** [60000 / def.rpm]: a double, or [Infinity] ([None]) when [rpm] is 0. *)
Definition msPerShotOf (d : WeaponDef.t) : option Q :=
  if Qeq_bool (WeaponDef.rpm d) 0 then None else Some (fl (60000 / WeaponDef.rpm d)).

(** [elapsed >= msPerShot] *)
Definition reached (elapsed : Q) (msPerShot : option Q) : bool :=
  match msPerShot with
  | Some m => Qle_bool m elapsed
  | None => false
  end.

(** [now - st.lastShotTime >= msPerShot], the subtraction being a double's. *)
Definition gateOpen (d : WeaponDef.t) (lastShotTime now : Q) : bool :=
  reached (fl (now - lastShotTime)) (msPerShotOf d).

Definition canShoot : Sim bool :=
  let* def := getCurrentWeaponDef in
  let* st := getCurrentWeaponState in
  let* s := defined st in
  if WeaponState.reloading s then ret false else
  if (WeaponState.ammo s <=? 0)%Z then (tryReload ;; ret false) else
  let* t := now in
  let* d := defined def in
  ret (gateOpen d (WeaponState.lastShotTime s) t).

(** *** Enemies *)

Definition setEnemyManager (f : EnemyManager.t -> EnemyManager.t) : Sim unit :=
  modify (fun w => set_enemyManager (f (enemyManager w)) w).

Definition createEnemy : Sim unit :=
  let* hue := random in
  let* mesh := fresh in
  let* enemy := fresh in
  (* setEnemyRandomPosition(enemy) *)
  let* x := randFloat (- WORLD_SIZE / 2) (WORLD_SIZE / 2) in
  let* z := randFloat (- WORLD_SIZE / 2) (WORLD_SIZE / 2) in
  modify (fun w => set_store
    (<[enemy := Enemy.mk mesh 100 Patrol 0 (mkVec3 1 0 0) 0 (mkVec3 x 12 z) 1 true]> (store w)) w) ;;
  setEnemyManager (fun m => EnemyManager.mk
    (EnemyManager.enemies m ++ [enemy]) (EnemyManager.hitMeshes m) (EnemyManager.meshToEnemy m)) ;;
  setEnemyManager (fun m => EnemyManager.mk
    (EnemyManager.enemies m) (EnemyManager.hitMeshes m ++ [mesh]) (EnemyManager.meshToEnemy m)) ;;
  setEnemyManager (fun m => EnemyManager.mk
    (EnemyManager.enemies m) (EnemyManager.hitMeshes m) (<[mesh := enemy]> (EnemyManager.meshToEnemy m))) ;;
  emit (SceneAdd enemy).

Definition applyDamageToEnemy (enemy : nat) (damage : Z) : Sim unit :=
  let* o := gets (fun w => store w !! enemy) in
  let* e := defined o in
  let h := (Enemy.health e - damage)%Z in
  modify (fun w => set_store
    (<[enemy := upd_enemy h (clamp (inject_Z h / 100) 0 1) (30 <? h)%Z e]> (store w)) w) ;;
  if (h <=? 0)%Z then
    emit (SceneRemove enemy) ;;
    setEnemyManager (fun m => EnemyManager.mk
      (EnemyManager.enemies m) (EnemyManager.hitMeshes m)
      (delete (Enemy.mesh e) (EnemyManager.meshToEnemy m))) ;;
    setEnemyManager (fun m => EnemyManager.mk
      (EnemyManager.enemies m) (filter (fun x => x <> Enemy.mesh e) (EnemyManager.hitMeshes m))
      (EnemyManager.meshToEnemy m)) ;;
    setEnemyManager (fun m => EnemyManager.mk
      (filter (fun x => x <> enemy) (EnemyManager.enemies m)) (EnemyManager.hitMeshes m)
      (EnemyManager.meshToEnemy m)) ;;
    setTimeout CreateEnemy 2000
  else ret tt.

(** *** Combat resolver *)

(** The direction of one pellet before [normalize()], from the aim
    direction and the three [Math.random()] outcomes, in call order. *)
Definition spreadDirection (aim : Vec3) (spread r1 r2 r3 : Q) : Vec3 :=
  mkVec3 (vx aim + (r1 - (1 # 2)) * spread)
         (vy aim + (r2 - (1 # 2)) * spread)
         (vz aim + (r3 - (1 # 2)) * spread * (2 # 10)).

(** The ray of the pellet [performRaycastShot] resolves in world [w]. *)
Definition pelletRay (def : WeaponDef.t) (w : World) : Ray :=
  mkRay (Camera.position (camera w))
    (Vector3_normalize E
       (spreadDirection (Camera.aim (camera w)) (WeaponDef.spread def)
          (Math_random E (rndIdx w)) (Math_random E (S (rndIdx w)))
          (Math_random E (S (S (rndIdx w))))))
    (WeaponDef.range def).

Definition performRaycastShot (def : WeaponDef.t) (damage : Z) : Sim unit :=
  let* cam := gets camera in
  let shootPoint := Camera.position cam in
  let spread := WeaponDef.spread def in
  let* r1 := random in
  let* r2 := random in
  let* r3 := random in
  let shootDirection :=
    Vector3_normalize E (spreadDirection (Camera.aim cam) spread r1 r2 r3) in
  let ray := mkRay shootPoint shootDirection (WeaponDef.range def) in
  let* pool := gets (fun w => EnemyManager.hitMeshes (enemyManager w)) in
  let* intersects := queryPool EnemyQuery pool ray in
  let* struck :=
    match intersects with
    | hit :: _ =>
        let* enemy := gets (fun w => EnemyManager.meshToEnemy (enemyManager w) !! object hit) in
        match enemy with
        | Some e => applyDamageToEnemy e damage ;; spawnHitMarker (point hit) ;; ret true
        | None => ret false
        end
    | [] => ret false
    end in
  if (struck : bool) then ret tt else
  let* colliders := gets worldColliders in
  let* worldHits := queryPool WorldQuery colliders ray in
  match worldHits with
  | h :: _ => spawnImpact (point h) (normal h)
  | [] => ret tt
  end.

(** [for (let i = 0; i < n; i++) body] *)
Fixpoint times (n : nat) (body : Sim unit) : Sim unit :=
  match n with
  | O => ret tt
  | S n' => body ;; times n' body
  end.

(** [def.pellets || 8] *)
Definition pelletsOr8 (def : WeaponDef.t) : nat :=
  match WeaponDef.pellets def with
  | Some O | None => 8
  | Some n => n
  end.

Definition flashMuzzle : Sim unit :=
  let* start := now in emit MuzzleFlash.

Definition shoot : Sim unit :=
  let* def := getCurrentWeaponDef in
  let* i := gets currentWeaponIndex in
  let* ok := canShoot in
  if negb ok then ret tt else
  let* t := now in
  updWeapon i (set_lastShotTime t) ;;
  let* d := defined def in
  (if String.eqb (WeaponDef.key d) "shotgun"
   then times (pelletsOr8 d) (performRaycastShot d (WeaponDef.damage d))
   else performRaycastShot d (WeaponDef.damage d)) ;;
  updWeapon i (fun s => set_ammo (WeaponState.ammo s - 1) s) ;;
  updateHUD ;;
  flashMuzzle.

Definition switchWeapon (nextIndex : Z) : Sim unit :=
  let n := Z.of_nat (length defs) in
  let nextIndex := if (nextIndex <? 0)%Z then (n - 1)%Z else nextIndex in
  let nextIndex := if (n <=? nextIndex)%Z then 0%Z else nextIndex in
  let* cur := gets currentWeaponIndex in
  if (Z.of_nat cur =? nextIndex)%Z then ret tt else
  modify (set_currentWeaponIndex (Z.to_nat nextIndex)) ;;
  updateHUD.

(** *** Damage and health *)

Definition setPlayer (f : Player.t -> Player.t) : Sim unit :=
  modify (fun w => set_player (f (player w)) w).

Definition applyDamageToPlayer (dmg : Z) : Sim unit :=
  let* t := now in
  let* p := gets player in
  if Qlt_bool (fl (t - Player.lastDamageTime p)) 200 then ret tt else
  setPlayer (set_lastDamageTime t) ;;
  setPlayer (fun p => set_health (Player.health p - dmg) p) ;;
  let* p := gets player in
  (if (Player.health p <=? 0)%Z then
     setPlayer (set_health 0) ;;
     setStatus "You are down. Respawning..." ;;
     setTimeout RespawnPlayer 2000
   else ret tt) ;;
  updateHUD.

Definition respawnPlayer : Sim unit :=
  modify (fun w => set_camera (set_position (mkVec3 0 24 0) (camera w)) w) ;;
  setPlayer (set_velocity (mkVec3 0 0 0)) ;;
  setPlayer (set_health PLAYER_MAX_HEALTH) ;;
  setStatus "" ;;
  updateHUD.

Definition attemptEnemyShot (enemy : nat) (playerPos : Vec3) : Sim unit :=
  let* o := gets (fun w => store w !! enemy) in
  let* e := defined o in
  let dist := Vector3_length E (vsub (Enemy.position e) playerPos) in
  let hitChance := hitChanceAt dist in
  let* roll := random in
  if Qlt_bool roll hitChance then
    let* dmg := randIntDouble 6 14 in
    applyDamageToPlayer dmg
  else
    let* a := randFloat (-8) 8 in
    let* b := randFloat (-2) 6 in
    let* c := randFloat (-8) 8 in
    spawnImpact (vadd playerPos (mkVec3 a b c)) (Some (mkVec3 0 1 0)).

(** *** Enemy behaviour *)

(** A write through the reference [e] of the loop of [updateEnemies]. *)
Definition updEnemy (enemy : nat) (f : Enemy.t -> Enemy.t) : Sim unit :=
  modify (fun w => set_store (alter f enemy (store w)) w).

(** One iteration of [for (const e of enemyManager.enemies)]; the final
    [lookAt] only turns the model. *)
Definition updateEnemy (delta t : Q) (playerPos : Vec3) (enemy : nat) : Sim unit :=
  let* o := gets (fun w => store w !! enemy) in
  let* e := defined o in
  let toPlayer := vsub playerPos (Enemy.position e) in
  let dist := Vector3_length E toPlayer in
  let toPlayer := Vector3_normalize E toPlayer in
  let mode := modeAt dist in
  updEnemy enemy (set_state mode) ;;
  match mode with
  | Patrol =>
      (if Qlt_bool (Enemy.nextWanderTime e) t then
         let* a := random in
         let* b := random in
         updEnemy enemy
           (set_wanderDir (Vector3_normalize E (mkVec3 (a - (1 # 2)) 0 (b - (1 # 2))))) ;;
         let* k := randInt 1500 3500 in
         updEnemy enemy (set_nextWanderTime (t + inject_Z k))
       else ret tt) ;;
      updEnemy enemy (fun e =>
        set_enemyPosition (addScaledVector (Enemy.position e) (Enemy.wanderDir e) (delta * 60)) e)
  | Chase =>
      updEnemy enemy (fun e =>
        set_enemyPosition (addScaledVector (Enemy.position e) toPlayer (delta * 80)) e)
  | Attack =>
      updEnemy enemy (fun e =>
        set_enemyPosition (addScaledVector (Enemy.position e) toPlayer (delta * 20)) e) ;;
      let msPerShot := 800 in
      if Qle_bool msPerShot (fl (t - Enemy.lastShotTime e)) then
        updEnemy enemy (set_enemyLastShotTime t) ;;
        attemptEnemyShot enemy playerPos
      else ret tt
  end ;;
  updEnemy enemy (fun e =>
    set_enemyPosition
      (mkVec3 (clamp (vx (Enemy.position e)) (- WORLD_SIZE / 2 + 20) (WORLD_SIZE / 2 - 20))
              (vy (Enemy.position e))
              (vz (Enemy.position e))) e) ;;
  updEnemy enemy (fun e =>
    set_enemyPosition
      (mkVec3 (vx (Enemy.position e))
              (vy (Enemy.position e))
              (clamp (vz (Enemy.position e)) (- WORLD_SIZE / 2 + 20) (WORLD_SIZE / 2 - 20))) e).

Fixpoint forEach {A : Type} (l : list A) (body : A -> Sim unit) : Sim unit :=
  match l with
  | [] => ret tt
  | a :: l' => body a ;; forEach l' body
  end.

Definition updateEnemies (delta : Q) : Sim unit :=
  let* playerPos := gets (fun w => Camera.position (camera w)) in
  let* t := now in
  let* es := gets (fun w => EnemyManager.enemies (enemyManager w)) in
  forEach es (updateEnemy delta t playerPos).

(** *** Movement *)

(** [keyDir] after the four [if (input...)] updates. *)
Definition keyDirOf (inp : Input.t) : Vec3 :=
  let z0 := 0 in
  let z1 := if Input.forward inp then z0 - 1 else z0 in
  let z2 := if Input.backward inp then z1 + 1 else z1 in
  let x0 := 0 in
  let x1 := if Input.left inp then x0 - 1 else x0 in
  let x2 := if Input.right inp then x1 + 1 else x1 in
  mkVec3 x2 0 z2.

(** [keyDir] after normalisation and rotation by the camera yaw. *)
Definition intentOf (inp : Input.t) (yaw : Q) : Vec3 :=
  let keyDir := keyDirOf inp in
  if Qlt_bool 0 (lengthSq keyDir) then
    let keyDir := Vector3_normalize E keyDir in
    let cos := Math_cos E yaw in
    let sin := Math_sin E yaw in
    let dirX := vx keyDir * cos - vz keyDir * sin in
    let dirZ := vx keyDir * sin + vz keyDir * cos in
    mkVec3 dirX 0 dirZ
  else keyDir.

(** "accelerate towards keyDir on XZ plane" *)
Definition accelerate (keyDir : Vec3) (sprint : bool) (delta : Q) (p : Player.t) : Player.t :=
  let speed := PLAYER_SPEED * (if sprint then PLAYER_SPRINT_MULTIPLIER else 1) in
  let accel := 600 in
  let targetVel := vscale keyDir speed in
  let dv := vsub targetVel (Player.velocity p) in
  let accelStep := clamp (accel * delta) 0 1 in
  set_velocity (addScaledVector (Player.velocity p) dv accelStep) p.

(** "gravity and jump" *)
Definition gravityAndJump (jump : bool) (delta : Q) (p : Player.t) : Player.t :=
  let p :=
    if negb (Player.onGround p)
    then set_velocity (mkVec3 (vx (Player.velocity p))
                              (vy (Player.velocity p) - GRAVITY * delta)
                              (vz (Player.velocity p))) p
    else p in
  if Player.onGround p && jump
  then set_onGround false
         (set_velocity (mkVec3 (vx (Player.velocity p)) PLAYER_JUMP_VELOCITY
                               (vz (Player.velocity p))) p)
  else p.

(** The player as [updateMovement] has it when it reaches "integrate". *)
Definition beforeIntegration (delta : Q) (w : World) : Player.t :=
  let inp := input w in
  let keyDir := intentOf inp (Camera.yaw (camera w)) in
  gravityAndJump (Input.jump inp) delta (accelerate keyDir (Input.sprint inp) delta (player w)).

(** "ground collision" and "keep within world bounds" *)
Definition land (pos : Vec3) (p : Player.t) : Vec3 * Player.t :=
  let groundY := 24 in
  let '(pos, p) :=
    if Qle_bool (vy pos) groundY
    then (mkVec3 (vx pos) groundY (vz pos),
          set_onGround true
            (set_velocity (mkVec3 (vx (Player.velocity p)) 0 (vz (Player.velocity p))) p))
    else (pos, p) in
  let pos := mkVec3 (clamp (vx pos) (- WORLD_SIZE / 2 + 10) (WORLD_SIZE / 2 - 10))
                    (vy pos) (vz pos) in
  let pos := mkVec3 (vx pos) (vy pos)
                    (clamp (vz pos) (- WORLD_SIZE / 2 + 10) (WORLD_SIZE / 2 - 10)) in
  (pos, p).

Definition updateMovement (delta : Q) : Sim unit :=
  modify (fun w =>
    let p := beforeIntegration delta w in
    let pos := addScaledVector (Camera.position (camera w)) (Player.velocity p) delta in
    let '(pos, p) := land pos p in
    set_camera (set_position pos (camera w)) (set_player p w)).

(** *** Game loop *)

(** One frame of [animate], [rawDelta] being what [clock.getDelta()] returns. *)
Definition animate (rawDelta : Q) : Sim unit :=
  let delta := clamp rawDelta 0 (5 # 100) in
  updateMovement delta ;;
  let* inp := gets input in
  (if Input.shooting inp then
     let* def := getCurrentWeaponDef in
     let* d := defined def in
     if WeaponDef.auto d then shoot else ret tt
   else ret tt) ;;
  updateEnemies delta.

(** *** Timers *)

Definition runCallback (cb : Callback) : Sim unit :=
  match cb with
  | ReloadDone i => reloadDone i
  | RespawnPlayer => respawnPlayer
  | CreateEnemy => createEnemy
  | RemoveImpact => ret tt        (* the impact mesh leaves the scene *)
  | RemoveHitMarker => ret tt     (* the marker sprite leaves the scene *)
  end.

(** The [k]-th pending timer expires: it leaves the queue and its callback
    runs. [None] when there is no such timer. *)
Definition fireTimer (k : nat) : Sim unit :=
  let* ts := gets timers in
  match ts !! k with
  | Some t => modify (set_timers (take k ts ++ drop (S k) ts)) ;; runCallback (callback t)
  | None => throw
  end.

(** *** Start-up *)

(** One element of [WEAPON_DEFS.map((def) => ({ ... }))]. *)
Definition initWeapon (def : WeaponDef.t) : Sim WeaponState.t :=
  let* skin := randInt 0 6 in
  ret (WeaponState.mk (WeaponDef.mag def) (WeaponDef.reserve def) 0 false skin).

Fixpoint mapSim {A B : Type} (f : A -> Sim B) (l : list A) : Sim (list B) :=
  match l with
  | [] => ret []
  | a :: l' => let* b := f a in let* bs := mapSim f l' in ret (b :: bs)
  end.

(** The module's top-level initialisers followed by the enemy loop of [initWorld]. *)
Definition boot : Sim unit :=
  let* ws := mapSim initWeapon defs in
  modify (set_weaponState ws) ;;
  times ENEMY_TARGET_COUNT createEnemy.

End Game.

(** The globals as their declarations leave them. *)
Definition blank : World :=
  {| nowIdx := 0; rndIdx := 0; queryIdx := 0; nextRef := 0;
     currentWeaponIndex := 2;
     weaponState := [];
     player := Player.mk (mkVec3 0 0 0) true PLAYER_MAX_HEALTH 0;
     input := Input.mk false false false false false false false;
     camera := Camera.mk (mkVec3 0 24 0) (mkVec3 0 0 (-1)) 0;
     enemyManager := EnemyManager.mk [] [] ∅;
     store := ∅;
     worldColliders := [];
     statusText := "";
     timers := [];
     log := [] |}.

(** ** Well-formed worlds *)

(** The references the program holds denote objects, every entry
    [mesh -> enemy] of [meshToEnemy] is the enemy's own mesh, and [nextRef]
    is beyond every identity in use. *)
Record wf (w : World) : Prop := mkWf {
  wf_map : forall m e, EnemyManager.meshToEnemy (enemyManager w) !! m = Some e ->
             exists en, store w !! e = Some en /\ Enemy.mesh en = m;
  wf_store_fresh : forall e en, store w !! e = Some en ->
             (e < nextRef w)%nat /\ (Enemy.mesh en < nextRef w)%nat;
  wf_map_fresh : forall m e, EnemyManager.meshToEnemy (enemyManager w) !! m = Some e ->
             (m < nextRef w)%nat }.

(** How many enemy-pool queries a log holds. *)
Definition isEnemyQuery (e : Event) : bool :=
  match e with EnemyQuery _ => true | _ => false end.
Definition isWorldQuery (e : Event) : bool :=
  match e with WorldQuery _ => true | _ => false end.
Definition countEvents (f : Event -> bool) (l : list Event) : nat :=
  length (List.filter f l).

(** The state of weapon [i], its ammo in particular. *)
Definition ammoOf (i : nat) (w : World) : option Z :=
  WeaponState.ammo <$> weaponState w !! i.

(** ** A scenario environment

    A clock that advances 10 ms per reading from t = 1000, a random source
    that always answers 1/2, a raycaster that reports the first object of
    the pool it is given, and stand-ins for the vector and trigonometric
    functions. *)
Definition scenarioEnv : Env :=
  {| performance_now := fun k => 1000 + 10 * inject_Z (Z.of_nat k);
     Math_random := fun _ => 1 # 2;
     intersectObjects := fun _ pool _ =>
       match pool with
       | m :: _ => [mkHit m (mkVec3 0 0 0) None]
       | [] => []
       end;
     Vector3_length := fun _ => 1800;
     Vector3_normalize := fun v => v;
     Math_cos := fun _ => 1;
     Math_sin := fun _ => 0 |}.

(** A sequence of calls of [applyDamageToPlayer], as enemy shots make them,
    interleaved with respawns. *)
Inductive PlayerOp : Type :=
  | Damage (dmg : Z)
  | Respawn.

Definition playerOp (E : Env) (op : PlayerOp) : Sim unit :=
  match op with
  | Damage dmg => applyDamageToPlayer E dmg
  | Respawn => respawnPlayer
  end.

Fixpoint runAll (l : list (Sim unit)) : Sim unit :=
  match l with
  | [] => ret tt
  | c :: l' => c ;; runAll l'
  end.


(** A player at 10 health who is hit for 14 at t = 5000, hit again while
    down at t = 6900, respawned by the first hit's timer (due at t = 7000),
    and hit once more at t = 7050. *)
Definition respawnEnv : Env :=
  {| performance_now := fun k =>
       match k with
       | O => 5000
       | S O => 6900
       | _ => 7050
       end;
     Math_random := Math_random scenarioEnv;
     intersectObjects := intersectObjects scenarioEnv;
     Vector3_length := Vector3_length scenarioEnv;
     Vector3_normalize := Vector3_normalize scenarioEnv;
     Math_cos := Math_cos scenarioEnv;
     Math_sin := Math_sin scenarioEnv |}.

Definition wounded : World := set_player (set_health 10 (player blank)) blank.

(** What one call of [performRaycastShot] adds to the log (newest first):
    always one enemy-pool query; then either the hit marker of the enemy it
    struck (after the removal of that enemy from the scene, if the hit
    killed it), or one world-pool query with the same ray, followed by an
    impact if that query hit. *)
Inductive PelletTrace (r : Ray) : list Event -> Prop :=
  | PelletEnemyHit (p : Vec3) :
      PelletTrace r [HitMarker p; EnemyQuery r]
  | PelletEnemyKill (p : Vec3) (e : nat) :
      PelletTrace r [HitMarker p; SceneRemove e; EnemyQuery r]
  | PelletWorldHit (p : Vec3) (n : option Vec3) :
      PelletTrace r [Impact p n; WorldQuery r; EnemyQuery r]
  | PelletMiss :
      PelletTrace r [WorldQuery r; EnemyQuery r].

Definition isPelletTrace (seg : list Event) : Prop := exists r, PelletTrace r seg.

(** The enemy whose mesh is the first object on the ray, if there is one:
    what [performRaycastShot] reads off the answer of the enemy-pool
    query. *)
Definition struckEnemy (m : EnemyManager.t) (hits : list Hit) : option (nat * Hit) :=
  match hits with
  | hit :: _ => (fun e => (e, hit)) <$> EnemyManager.meshToEnemy m !! object hit
  | [] => None
  end.

(** What the combat resolver and the enemy registry leave alone. *)
Record combatFrame (w w' : World) : Prop := mkCombatFrame {
  cf_nowIdx : nowIdx w' = nowIdx w;
  cf_nextRef : nextRef w' = nextRef w;
  cf_currentWeaponIndex : currentWeaponIndex w' = currentWeaponIndex w;
  cf_weaponState : weaponState w' = weaponState w;
  cf_player : player w' = player w;
  cf_input : input w' = input w;
  cf_camera : camera w' = camera w;
  cf_worldColliders : worldColliders w' = worldColliders w;
  cf_statusText : statusText w' = statusText w }.

(** No mesh of the lookup map leads to enemy [e]. *)
Definition unreachable (e : nat) (w : World) : Prop :=
  forall m, EnemyManager.meshToEnemy (enemyManager w) !! m <> Some e.

(** One pellet resolved, from [w] to [w']. Its ray is made of three fresh
    draws. The answer of the enemy-pool query decides what follows. If its
    first object is the mesh of an enemy, that enemy loses [dmg] health (and
    leaves the registry if that brings it to zero or below, with a respawn
    timer of 2000 ms), a hit marker is shown where the ray struck, and no
    other query is made. If not, the world pool is queried once with the
    same ray, no enemy is touched, and an impact is shown where that query
    hit, if it hit. *)
Definition pelletResolved (E : Env) (d : WeaponDef.t) (dmg : Z) (w w' : World) : Prop :=
  let r := pelletRay E d w in
  let m := enemyManager w in
  combatFrame w w' /\
  rndIdx w' = (rndIdx w + 3)%nat /\
  match struckEnemy m (intersectObjects E (queryIdx w) (EnemyManager.hitMeshes m) r) with
  | Some (e, hit) =>
      queryIdx w' = S (queryIdx w) /\
      exists en,
        store w !! e = Some en /\
        let h := (Enemy.health en - dmg)%Z in
        let killed := (h <=? 0)%Z in
        store w' =
          <[e := upd_enemy h (clamp (inject_Z h / 100) 0 1) (30 <? h)%Z en]> (store w) /\
        enemyManager w' =
          (if killed
           then EnemyManager.mk
                  (filter (fun x => x <> e) (EnemyManager.enemies m))
                  (filter (fun x => x <> Enemy.mesh en) (EnemyManager.hitMeshes m))
                  (delete (Enemy.mesh en) (EnemyManager.meshToEnemy m))
           else m) /\
        log w' =
          HitMarker (point hit) ::
          (if killed then [SceneRemove e] else []) ++ EnemyQuery r :: log w /\
        timers w' =
          (timers w ++ (if killed then [mkTimer CreateEnemy 2000] else []))
          ++ [mkTimer RemoveHitMarker 220]
  | None =>
      queryIdx w' = S (S (queryIdx w)) /\
      store w' = store w /\
      enemyManager w' = m /\
      match intersectObjects E (S (queryIdx w)) (worldColliders w) r with
      | h :: _ =>
          log w' = Impact (point h) (normal h) :: WorldQuery r :: EnemyQuery r :: log w /\
          timers w' = timers w ++ [mkTimer RemoveImpact 250]
      | [] =>
          log w' = WorldQuery r :: EnemyQuery r :: log w /\
          timers w' = timers w
      end
  end.

(** [n] pellets resolved one after the other. *)
Inductive pelletsResolved (E : Env) (d : WeaponDef.t) (dmg : Z) : nat -> World -> World -> Prop :=
  | pellets_done (w : World) : pelletsResolved E d dmg 0 w w
  | pellets_next (n : nat) (w w1 w2 : World) :
      pelletResolved E d dmg w w1 ->
      pelletsResolved E d dmg n w1 w2 ->
      pelletsResolved E d dmg (S n) w w2.


(** The pellet direction as the specification words it: offsets on the
    horizontal (x) and vertical (y) axes only, the vertical one scaled by a
    further 0.2. *)
Definition spreadDirection_as_specified (aim : Vec3) (spread r1 r2 : Q) : Vec3 :=
  mkVec3 (vx aim + (r1 - (1 # 2)) * spread)
         (vy aim + (r2 - (1 # 2)) * spread * (2 # 10))
         (vz aim).

(** The world after start-up in the scenario environment: the weapons of
    [WEAPON_DEFS] with full magazines and the eighteen enemies. *)
Definition arena : World :=
  match boot scenarioEnv WEAPON_DEFS blank with
  | Some (_, w) => w
  | None => blank
  end.

(** The assault rifle and the shotgun of the catalog, and their states at
    start-up in the scenario. *)
Definition assaultRifle : WeaponDef.t :=
  WeaponDef.mk "ar" "Assault Rifle" 28 700 30 180 (18 # 10) (8 # 1000) 1100 None true.
Definition shotgun : WeaponDef.t :=
  WeaponDef.mk "shotgun" "Shotgun" 12 85 8 48 (22 # 10) (35 # 1000) 250 (Some 8%nat) false.

(** The state of either at start-up in the scenario: skin [randInt(0, 6)]
    at a roll of 1/2. *)
Definition rifleState : WeaponState.t := WeaponState.mk 30 180 0 false 3.
Definition shotgunState : WeaponState.t := WeaponState.mk 8 48 0 false 3.

(** The first enemy of the arena (identity 1, mesh 0). *)
Definition firstEnemy : Enemy.t :=
  Enemy.mk 0 100 Patrol 0 (mkVec3 1 0 0) 0
    (mkVec3 (randFloat_of (1 # 2) (- WORLD_SIZE / 2) (WORLD_SIZE / 2)) 12
            (randFloat_of (1 # 2) (- WORLD_SIZE / 2) (WORLD_SIZE / 2)))
    1 true.

(** The arena with the shotgun equipped. *)
Definition arenaShotgun : World := set_currentWeaponIndex 3 arena.

(** The arena with the rifle's magazine down to 12 rounds. *)
Definition arenaSpent : World :=
  set_weaponState (alter (set_ammo 12) 2%nat (weaponState arena)) arena.

(** The player in the air, rising at 100 units/s, no key held. *)
Definition airborne : World :=
  set_player (Player.mk (mkVec3 0 100 0) false PLAYER_MAX_HEALTH 0)
    (set_camera (set_position (mkVec3 0 80 0) (camera blank)) blank).

(** The player on the ground with the jump key held. *)
Definition jumping : World :=
  mkWorld (nowIdx blank) (rndIdx blank) (queryIdx blank) (nextRef blank)
    (currentWeaponIndex blank) (weaponState blank) (player blank)
    (Input.mk false false false false true false false) (camera blank)
    (enemyManager blank) (store blank) (worldColliders blank) (statusText blank)
    (timers blank) (log blank).

(** ** Input handlers and further utilities of main.js *)

Definition set_input (i : Input.t) (w : World) : World :=
  mkWorld (nowIdx w) (rndIdx w) (queryIdx w) (nextRef w) (currentWeaponIndex w) (weaponState w)
    (player w) i (camera w) (enemyManager w) (store w) (worldColliders w)
    (statusText w) (timers w) (log w).

Definition set_shooting (b : bool) (i : Input.t) : Input.t :=
  Input.mk (Input.forward i) (Input.backward i) (Input.left i) (Input.right i)
    (Input.jump i) (Input.sprint i) b.

(** [Math.sign] *)
Definition Math_sign (x : Q) : Q :=
  if Qlt_bool 0 x then 1 else if Qlt_bool x 0 then - (1) else 0.

(** The names of [SKIN_LIBRARY], in order. *)
Definition SKIN_LIBRARY : list string :=
  ["Carbon"; "Desert"; "Arctic"; "Neon"; "Crimson"; "Forest"]%string.

(** [choose(arr)] at the outcome [r] of [Math.random()]: an index below 0
    or past the end reads [undefined]. *)
Definition choose_of {A : Type} (r : Q) (arr : list A) : option A :=
  let i := Qfloor (r * inject_Z (Z.of_nat (length arr))) in
  if (i <? 0)%Z then None else arr !! Z.to_nat i.

Section Handlers.

Variable E : Env.
Variable defs : list WeaponDef.t.

Definition choose {A : Type} (arr : list A) : Sim (option A) :=
  let* r := random E in ret (choose_of r arr).

(** [onWheel(e)], [deltaY] being [e.deltaY]. *)
Definition onWheel (deltaY : Q) : Sim unit :=
  let delta := Math_sign deltaY in
  let* cur := gets currentWeaponIndex in
  if Qlt_bool 0 delta then switchWeapon defs (Z.of_nat cur + 1)
  else if Qlt_bool delta 0 then switchWeapon defs (Z.of_nat cur - 1)
  else ret tt.

(** [onMouseDown(e)], [button] being [e.button]. *)
Definition onMouseDown (button : Z) : Sim unit :=
  if (button =? 0)%Z then
    modify (fun w => set_input (set_shooting true (input w)) w) ;;
    shoot E defs
  else ret tt.

(** [onMouseUp(e)] *)
Definition onMouseUp (button : Z) : Sim unit :=
  if (button =? 0)%Z then modify (fun w => set_input (set_shooting false (input w)) w)
  else ret tt.

End Handlers.

(** The magazine holds between 0 and [mag] rounds and the reserve is not
    negative. *)
Definition ammoInRange (d : WeaponDef.t) (s : WeaponState.t) : Prop :=
  (0 <= WeaponState.ammo s <= WeaponDef.mag d)%Z /\ (0 <= WeaponState.reserve s)%Z.

(** The arena with an empty rifle magazine. *)
Definition arenaEmpty : World :=
  set_weaponState (alter (set_ammo 0) 2%nat (weaponState arena)) arena.

(** The arena with the rifle reloading. *)
Definition arenaReloading : World :=
  set_weaponState (alter (set_reloading true) 2%nat (weaponState arena)) arena.

(** The registry lists each active enemy once, and every listed enemy is an
    object of positive health whose mesh is in the hit pool and leads back
    to it through the lookup map. *)
Record registryOk (w : World) : Prop := mkRegistryOk {
  reg_nodup : NoDup (EnemyManager.enemies (enemyManager w));
  reg_listed : forall e, e ∈ EnemyManager.enemies (enemyManager w) ->
    exists en,
      store w !! e = Some en /\
      (0 < Enemy.health en)%Z /\
      Enemy.mesh en ∈ EnemyManager.hitMeshes (enemyManager w) /\
      EnemyManager.meshToEnemy (enemyManager w) !! Enemy.mesh en = Some e }.

(** A player flagged as on the ground stands at eye level with no vertical
    velocity. *)
Definition grounded (w : World) : Prop :=
  Player.onGround (player w) = true ->
  vy (Player.velocity (player w)) == 0 /\ vy (Camera.position (camera w)) == 24.

(** Two versions of an enemy object that differ at most in what the
    behaviour loop rewrites: state, heading, timers, position. *)
Definition sameBody (a b : Enemy.t) : Prop :=
  Enemy.health b = Enemy.health a /\ Enemy.mesh b = Enemy.mesh a.

(** What the enemy behaviour loop leaves alone: the weapons, the registry,
    the camera, the identities in use, the input, every enemy's health and
    mesh, the player's velocity and grounded flag; and it does not make a
    non-negative player health negative. *)
Record aiFrame (w w' : World) : Prop := mkAiFrame {
  ai_currentWeaponIndex : currentWeaponIndex w' = currentWeaponIndex w;
  ai_weaponState : weaponState w' = weaponState w;
  ai_enemyManager : enemyManager w' = enemyManager w;
  ai_camera : camera w' = camera w;
  ai_nextRef : nextRef w' = nextRef w;
  ai_input : input w' = input w;
  ai_store : forall x,
    match store w !! x, store w' !! x with
    | Some a, Some b => sameBody a b
    | None, None => True
    | _, _ => False
    end;
  ai_velocity : Player.velocity (player w') = Player.velocity (player w);
  ai_onGround : Player.onGround (player w') = Player.onGround (player w);
  ai_health : (0 <= Player.health (player w))%Z -> (0 <= Player.health (player w'))%Z }.

(** Where [updateEnemies] keeps an enemy on the horizontal plane. *)
Definition inEnemyBounds (p : Vec3) : Prop :=
  (- (1580) <= vx p /\ vx p <= 1580) /\ (- (1580) <= vz p /\ vz p <= 1580).

(** Between [w] and [w'] exactly one call of [applyDamageToPlayer] was
    accepted, for [dmg], at a clock reading made after [w]. *)
Definition hitWith (E : Env) (dmg : Z) (w w' : World) : Prop :=
  exists k,
    (nowIdx w <= k < nowIdx w')%nat /\
    ~ fl (performance_now E k - Player.lastDamageTime (player w)) < 200 /\
    Player.lastDamageTime (player w') = performance_now E k /\
    Player.health (player w') = Z.max 0 (Player.health (player w) - dmg) /\
    Player.velocity (player w') = Player.velocity (player w) /\
    Player.onGround (player w') = Player.onGround (player w).

(** ** A second scenario: the yard

    The clock starts at [t0] and advances 10 ms per reading; the random
    source answers 1/2 to the sixty draws of start-up and 1/4 afterwards; a
    length is the sum of the three absolute coordinates, which is the
    length of a vector along an axis, as are all the vectors measured in
    this scenario: every enemy starts at (0, 12, 0), 12 units below the
    camera at (0, 24, 0). *)
Definition axisLength (v : Vec3) : Q := Qabs (vx v) + Qabs (vy v) + Qabs (vz v).

Definition yardEnv (t0 : Q) : Env :=
  {| performance_now := fun k => t0 + 10 * inject_Z (Z.of_nat k);
     Math_random := fun k => if (k <? 60)%nat then 1 # 2 else 1 # 4;
     intersectObjects := intersectObjects scenarioEnv;
     Vector3_length := axisLength;
     Vector3_normalize := fun v => vscale v (/ axisLength v);
     Math_cos := fun _ => 1;
     Math_sin := fun _ => 0 |}.

Definition yard : World :=
  match boot (yardEnv 1000) WEAPON_DEFS blank with
  | Some (_, w) => w
  | None => blank
  end.

(** The yard with the trigger held. *)
Definition yardFiring : World := set_input (set_shooting true (input yard)) yard.

(** The player sliding over the ground at (50, 0, -30) units/s, no key held. *)
Definition sliding : World :=
  set_player (Player.mk (mkVec3 50 0 (-30)) true PLAYER_MAX_HEALTH 0) blank.

(** A shooting range: the arena with the shotgun equipped and one cover box
    (identity 1000) as the world collider, under a raycaster that finds
    nothing on the queries whose index is 1 modulo 3 and the first object of
    the pool on the others. A fire of the shotgun there alternates between
    a pellet that strikes the first enemy and a pellet that misses the
    enemies and strikes the box. *)
Definition set_worldColliders (c : list nat) (w : World) : World :=
  mkWorld (nowIdx w) (rndIdx w) (queryIdx w) (nextRef w) (currentWeaponIndex w) (weaponState w)
    (player w) (input w) (camera w) (enemyManager w) (store w) c
    (statusText w) (timers w) (log w).

Definition rangeEnv : Env :=
  {| performance_now := performance_now scenarioEnv;
     Math_random := Math_random scenarioEnv;
     intersectObjects := fun k pool r =>
       if (k mod 3 =? 1)%nat then [] else intersectObjects scenarioEnv k pool r;
     Vector3_length := Vector3_length scenarioEnv;
     Vector3_normalize := Vector3_normalize scenarioEnv;
     Math_cos := Math_cos scenarioEnv;
     Math_sin := Math_sin scenarioEnv |}.

Definition range : World := set_worldColliders [1000%nat] arenaShotgun.

(** * Properties *)

From Stdlib Require Import Lqa.

(** ** Rounding to the nearest double *)

Lemma rne_bounds (y : Q) : (Qfloor y <= rne y <= Qfloor y + 1)%Z.
Proof.
  unfold rne. destruct (Qcompare _ _); [destruct (Z.even _) | |]; lia.
Qed.

Lemma rne_Z (n : Z) : rne (inject_Z n) = n.
Proof.
  unfold rne. rewrite Qfloor_Z.
  assert (H : inject_Z n - inject_Z n < 1 # 2) by lra.
  now rewrite (proj1 (Qlt_alt _ _) H).
Qed.

Lemma rne_mono (y1 y2 : Q) : y1 <= y2 -> (rne y1 <= rne y2)%Z.
Proof.
  intros H. pose proof (Qfloor_resp_le _ _ H) as Hf.
  destruct (Z.eq_dec (Qfloor y1) (Qfloor y2)) as [Heq | Hne].
  - unfold rne. rewrite <- Heq.
    set (r1 := y1 - inject_Z (Qfloor y1)). set (r2 := y2 - inject_Z (Qfloor y1)).
    assert (Hr : r1 <= r2) by (subst r1 r2; lra).
    clearbody r1 r2.
    destruct (Qcompare r1 (1 # 2)) eqn:H1; destruct (Qcompare r2 (1 # 2)) eqn:H2.
    all: first [apply Qeq_alt in H1 | apply Qlt_alt in H1 | apply Qgt_alt in H1].
    all: first [apply Qeq_alt in H2 | apply Qlt_alt in H2 | apply Qgt_alt in H2].
    all: try (exfalso; lra).
    all: try (destruct (Z.even (Qfloor y1))); lia.
  - pose proof (rne_bounds y1). pose proof (rne_bounds y2). lia.
Qed.

Lemma roundPos_mono (x x' : Q) : 0 <= x -> x <= x' -> roundPos x <= roundPos x'.
Proof.
  intros H0 Hle. unfold roundPos. cbv zeta.
  assert (HK : 0 < inject_Z (2 ^ 1074)).
  { change 0 with (inject_Z 0). rewrite <- Zlt_Qlt. now apply Z.pow_pos_nonneg. }
  set (K := inject_Z (2 ^ 1074)) in *. clearbody K.
  set (y := x * K). set (y' := x' * K).
  assert (Hy0 : 0 <= y) by (subst y; apply Qmult_le_0_compat; lra).
  assert (Hyy : y <= y') by (subst y y'; apply Qmult_le_compat_r; lra).
  set (M := Qfloor y). set (M' := Qfloor y').
  assert (HM0 : (0 <= M)%Z).
  { subst M. rewrite <- (Qfloor_Z 0). now apply Qfloor_resp_le. }
  assert (HMM : (M <= M')%Z) by (subst M M'; now apply Qfloor_resp_le).
  pose proof (Z.log2_le_mono M M' HMM) as Hlog.
  set (s := Z.max 0 (Z.log2 M - 52)). set (s' := Z.max 0 (Z.log2 M' - 52)).
  assert (Hs0 : (0 <= s)%Z) by (subst s; lia).
  assert (Hss : (s <= s')%Z) by (subst s s'; lia).
  assert (HP : forall k, (0 <= k)%Z -> 0 < inject_Z (2 ^ k)).
  { intros k Hk. change 0 with (inject_Z 0). rewrite <- Zlt_Qlt. now apply Z.pow_pos_nonneg. }
  set (A := rne (y / inject_Z (2 ^ s))). set (A' := rne (y' / inject_Z (2 ^ s'))).
  assert (Hgoal : (A * 2 ^ s <= A' * 2 ^ s')%Z).
  { destruct (Z.eq_dec s s') as [Heq | Hne].
    - rewrite <- Heq. apply Z.mul_le_mono_nonneg_r; [apply Z.pow_nonneg; lia |].
      subst A A'. rewrite <- Heq. apply rne_mono.
      pose proof (HP s Hs0) as Hp. unfold Qdiv. apply Qmult_le_compat_r; [assumption |].
      apply Qlt_le_weak. now apply Qinv_lt_0_compat.
    - assert (Hlt : (s < s')%Z) by lia.
      assert (Hup : (A <= 2 ^ 53)%Z).
      { subst A. rewrite <- (rne_Z (2 ^ 53)). apply rne_mono.
        pose proof (HP s Hs0) as Hp.
        apply Qle_shift_div_r; [assumption |].
        rewrite <- inject_Z_mult, <- Z.pow_add_r by lia.
        assert (HM1 : (M + 1 <= 2 ^ (53 + s))%Z).
        { destruct (Z.eq_dec M 0%Z) as [-> | HMne].
          - assert (0 < 2 ^ (53 + s))%Z by (apply Z.pow_pos_nonneg; lia). lia.
          - destruct (Z.log2_spec M) as [_ Hub]; [lia |].
            assert (2 ^ Z.succ (Z.log2 M) <= 2 ^ (53 + s))%Z
              by (apply Z.pow_le_mono_r; subst s; lia).
            lia. }
        apply Qlt_le_weak. eapply Qlt_le_trans; [apply (Qlt_floor y) |].
        fold M. rewrite <- Zle_Qle. exact HM1. }
      assert (Hlow : (2 ^ 52 <= A')%Z).
      { subst A'. rewrite <- (rne_Z (2 ^ 52)). apply rne_mono.
        assert (Hs'0 : (0 <= s')%Z) by lia.
        pose proof (HP s' Hs'0) as Hp.
        apply Qle_shift_div_l; [assumption |].
        rewrite <- inject_Z_mult, <- Z.pow_add_r by lia.
        assert (Hl : Z.log2 M' = (s' + 52)%Z) by (subst s'; lia).
        assert (HM'pos : (0 < M')%Z).
        { destruct (Z.le_gt_cases M' 0) as [Hle0 | Hgt0]; [| assumption].
          rewrite (Z.log2_nonpos M' Hle0) in Hl. lia. }
        destruct (Z.log2_spec M' HM'pos) as [Hlb _]. rewrite Hl in Hlb.
        eapply Qle_trans; [| apply (Qfloor_le y')]. fold M'.
        rewrite <- Zle_Qle. replace (52 + s')%Z with (s' + 52)%Z by lia. exact Hlb. }
      assert (H1 : (A * 2 ^ s <= 2 ^ 53 * 2 ^ s)%Z)
        by (apply Z.mul_le_mono_nonneg_r; [apply Z.pow_nonneg; lia | assumption]).
      assert (H2 : (2 ^ 52 * 2 ^ s' <= A' * 2 ^ s')%Z)
        by (apply Z.mul_le_mono_nonneg_r; [apply Z.pow_nonneg; lia | assumption]).
      assert (H3 : (2 ^ 53 * 2 ^ s <= 2 ^ 52 * 2 ^ s')%Z).
      { rewrite <- !Z.pow_add_r by lia. apply Z.pow_le_mono_r; lia. }
      lia. }
  unfold Qdiv. apply Qmult_le_compat_r.
  - now rewrite <- Zle_Qle.
  - apply Qlt_le_weak. now apply Qinv_lt_0_compat.
Qed.

Lemma roundPos_nonneg (x : Q) : 0 <= x -> 0 <= roundPos x.
Proof.
  intros H0. unfold roundPos. cbv zeta.
  assert (HK : 0 < inject_Z (2 ^ 1074)).
  { change 0 with (inject_Z 0). rewrite <- Zlt_Qlt. now apply Z.pow_pos_nonneg. }
  set (K := inject_Z (2 ^ 1074)) in *. clearbody K.
  set (y := x * K).
  assert (Hy0 : 0 <= y) by (subst y; apply Qmult_le_0_compat; lra).
  set (s := Z.max 0 (Z.log2 (Qfloor y) - 52)).
  assert (HP : 0 < inject_Z (2 ^ s)).
  { change 0 with (inject_Z 0). rewrite <- Zlt_Qlt. apply Z.pow_pos_nonneg; subst s; lia. }
  assert (HA : (0 <= rne (y / inject_Z (2 ^ s)))%Z).
  { rewrite <- (rne_Z 0) at 1. apply rne_mono. apply Qle_shift_div_l; [assumption |].
    change (inject_Z 0) with 0. now rewrite Qmult_0_l. }
  unfold Qdiv. apply Qmult_le_0_compat.
  - change 0 with (inject_Z 0). rewrite <- Zle_Qle.
    apply Z.mul_nonneg_nonneg; [assumption | apply Z.pow_nonneg; lia].
  - apply Qlt_le_weak. now apply Qinv_lt_0_compat.
Qed.

(** Rounding to the nearest double is monotone. *)
Lemma fl_mono (x x' : Q) : x <= x' -> fl x <= fl x'.
Proof.
  intros H. unfold fl. rewrite !Qred_correct.
  destruct (Qle_bool 0 x) eqn:Hx; destruct (Qle_bool 0 x') eqn:Hx'.
  - apply Qle_bool_iff in Hx. now apply roundPos_mono.
  - apply Qle_bool_iff in Hx. exfalso.
    assert (Hc : Qle_bool 0 x' = true) by (apply Qle_bool_iff; lra). congruence.
  - apply Qle_bool_iff in Hx'.
    assert (Hn : 0 <= - x).
    { destruct (Qlt_le_dec x 0) as [Hl | Hl]; [lra |].
      apply Qle_bool_iff in Hl. congruence. }
    pose proof (roundPos_nonneg (- x) Hn). pose proof (roundPos_nonneg x' Hx'). lra.
  - assert (Hn' : 0 <= - x').
    { destruct (Qlt_le_dec x' 0) as [Hl | Hl]; [lra |].
      apply Qle_bool_iff in Hl. congruence. }
    assert (Hm : roundPos (- x') <= roundPos (- x)) by (apply roundPos_mono; lra).
    lra.
Qed.

Lemma fl_ge (c x : Q) : fl c == c -> c <= x -> c <= fl x.
Proof.
  intros Hc H. rewrite <- Hc. now apply fl_mono.
Qed.

Global Opaque fl.

(** The thresholds the program compares with are doubles. *)
Lemma fl_200 : fl 200 == 200.
Proof. vm_compute. reflexivity. Qed.

Lemma fl_800 : fl 800 == 800.
Proof. vm_compute. reflexivity. Qed.

(** The rate-of-fire gate, for a weapon whose [rpm] is not 0, compares two
    doubles; it is open whenever the exact elapsed time has reached the
    exact [60000 / rpm]. For [rpm] 0 it never opens. *)
Lemma gateOpen_iff (d : WeaponDef.t) (last t : Q) :
  ~ WeaponDef.rpm d == 0 ->
  gateOpen d last t = true <-> fl (60000 / WeaponDef.rpm d) <= fl (t - last).
Proof.
  intros Hrpm. unfold gateOpen, msPerShotOf.
  destruct (Qeq_bool (WeaponDef.rpm d) 0) eqn:Hz.
  - apply Qeq_bool_iff in Hz. contradiction.
  - cbn [reached]. apply Qle_bool_iff.
Qed.

Lemma gateOpen_rpm_0 (d : WeaponDef.t) (last t : Q) :
  WeaponDef.rpm d == 0 -> gateOpen d last t = false.
Proof.
  intros Hrpm. unfold gateOpen, msPerShotOf.
  apply Qeq_bool_iff in Hrpm. now rewrite Hrpm.
Qed.

Lemma gateOpen_exact (d : WeaponDef.t) (last t : Q) :
  ~ WeaponDef.rpm d == 0 ->
  60000 / WeaponDef.rpm d <= t - last ->
  gateOpen d last t = true.
Proof.
  intros Hrpm H. apply gateOpen_iff; [assumption |]. now apply fl_mono.
Qed.

(** A time difference that is at least 200 exactly is at least 200 once
    rounded. *)
Lemma window_passed (x : Q) : ~ x < 200 -> ~ fl x < 200.
Proof.
  intros H Hfl. apply Qnot_lt_le in H.
  pose proof (fl_ge 200 x fl_200 H). lra.
Qed.

Lemma Qlt_bool_iff (x y : Q) : Qlt_bool x y = true <-> x < y.
Proof.
  unfold Qlt_bool. rewrite negb_true_iff, <- not_true_iff_false, Qle_bool_iff.
  split; [apply Qnot_le_lt | apply Qlt_not_le].
Qed.

Lemma Qlt_bool_false_iff (x y : Q) : Qlt_bool x y = false <-> y <= x.
Proof.
  unfold Qlt_bool. rewrite negb_false_iff. apply Qle_bool_iff.
Qed.

Lemma Qle_bool_false_iff (x y : Q) : Qle_bool x y = false <-> y < x.
Proof.
  rewrite <- not_true_iff_false, Qle_bool_iff.
  split; [apply Qnot_le_lt | apply Qlt_not_le].
Qed.

Ltac sim_unfold :=
  cbv beta iota zeta delta
    [bind ret gets modify defined throw now random fresh emit setStatus setTimeout
     queryPool randFloat randInt randIntDouble updateHUD spawnImpact spawnHitMarker
     getCurrentWeaponDef getCurrentWeaponState updWeapon setEnemyManager setPlayer
     flashMuzzle].

Ltac world_simpl :=
  cbn
    [set_nowIdx set_rndIdx set_queryIdx set_nextRef set_currentWeaponIndex
     set_weaponState set_player set_camera set_enemyManager set_store set_statusText
     set_timers set_log
     nowIdx rndIdx queryIdx nextRef currentWeaponIndex weaponState player input camera
     enemyManager store worldColliders statusText timers log
     set_velocity set_onGround set_health set_lastDamageTime set_position
     Player.velocity Player.onGround Player.health Player.lastDamageTime
     Camera.position Camera.aim Camera.yaw
     EnemyManager.enemies EnemyManager.hitMeshes EnemyManager.meshToEnemy].

Ltac world_simpl_all :=
  cbn
    [set_nowIdx set_rndIdx set_queryIdx set_nextRef set_currentWeaponIndex
     set_weaponState set_player set_camera set_enemyManager set_store set_statusText
     set_timers set_log
     nowIdx rndIdx queryIdx nextRef currentWeaponIndex weaponState player input camera
     enemyManager store worldColliders statusText timers log
     set_velocity set_onGround set_health set_lastDamageTime set_position
     Player.velocity Player.onGround Player.health Player.lastDamageTime
     Camera.position Camera.aim Camera.yaw
     EnemyManager.enemies EnemyManager.hitMeshes EnemyManager.meshToEnemy] in *.

Section PlayerHealth.

Variable E : Env.

Lemma applyDamageToPlayer_ignored (w : World) (dmg : Z) :
  fl (performance_now E (nowIdx w) - Player.lastDamageTime (player w)) < 200 ->
  applyDamageToPlayer E dmg w = Some (tt, set_nowIdx (S (nowIdx w)) w).
Proof.
  intros H. apply Qlt_bool_iff in H.
  unfold applyDamageToPlayer. sim_unfold. world_simpl.
  now rewrite H.
Qed.

Lemma applyDamageToPlayer_accepted (w : World) (dmg : Z) :
  ~ fl (performance_now E (nowIdx w) - Player.lastDamageTime (player w)) < 200 ->
  exists w',
    applyDamageToPlayer E dmg w = Some (tt, w') /\
    Player.lastDamageTime (player w') = performance_now E (nowIdx w) /\
    Player.health (player w') = Z.max 0 (Player.health (player w) - dmg) /\
    Player.velocity (player w') = Player.velocity (player w) /\
    Player.onGround (player w') = Player.onGround (player w) /\
    timers w' =
      (if (Player.health (player w) - dmg <=? 0)%Z
       then timers w ++ [mkTimer RespawnPlayer 2000] else timers w).
Proof.
  intros H. rewrite <- Qlt_bool_iff in H. apply not_true_is_false in H.
  unfold applyDamageToPlayer. sim_unfold. world_simpl. rewrite H. world_simpl.
  destruct (Z.leb_spec (Player.health (player w) - dmg) 0) as [Hle | Hgt];
    eexists; (split; [reflexivity |]); world_simpl; repeat split; lia.
Qed.

Lemma respawnPlayer_health (w : World) :
  exists w', respawnPlayer w = Some (tt, w') /\
             Player.health (player w') = PLAYER_MAX_HEALTH.
Proof. eexists; split; reflexivity. Qed.

Lemma playerOp_health_nonneg (op : PlayerOp) (w : World) :
  (0 <= Player.health (player w))%Z ->
  exists w', playerOp E op w = Some (tt, w') /\ (0 <= Player.health (player w'))%Z.
Proof.
  intros Hh. destruct op as [dmg |]; simpl.
  - destruct (Qlt_le_dec
                (fl (performance_now E (nowIdx w) - Player.lastDamageTime (player w))) 200)
      as [Hin | Hout].
    + rewrite (applyDamageToPlayer_ignored w dmg Hin). eauto.
    + apply Qle_not_lt in Hout.
      destruct (applyDamageToPlayer_accepted w dmg Hout) as (w' & -> & _ & Hhealth & _).
      exists w'. split; [reflexivity | lia].
  - destruct (respawnPlayer_health w) as (w' & -> & Hhealth).
    exists w'. split; [reflexivity |]. rewrite Hhealth. unfold PLAYER_MAX_HEALTH. lia.
Qed.

Lemma runAll_health_nonneg (ops : list PlayerOp) (w : World) :
  (0 <= Player.health (player w))%Z ->
  exists w', runAll (map (playerOp E) ops) w = Some (tt, w') /\
             (0 <= Player.health (player w'))%Z.
Proof.
  revert w. induction ops as [| op ops IH]; intros w Hh.
  - exists w. split; [reflexivity | assumption].
  - destruct (playerOp_health_nonneg op w Hh) as (w1 & Hop & Hh1).
    destruct (IH w1 Hh1) as (w2 & Hrun & Hh2).
    exists w2. split; [| assumption].
    change (bind (playerOp E op) (fun _ => runAll (map (playerOp E) ops)) w = Some (tt, w2)).
    unfold bind. now rewrite Hop.
Qed.

(** C3. With [elapsed] the double the code computes for
    [now - player.lastDamageTime]: a damage call with [elapsed < 200]
    changes nothing of the player (the world differs only in that the clock
    was read once); a call with [elapsed >= 200] records the time and takes
    the amount off the health, floored at 0, which is the case whenever the
    exact difference is 200 or more; so from a non-negative health no
    sequence of damage calls (and respawns) ever leaves a negative
    health. *)
Theorem applyDamageToPlayer_window_and_floor (w : World) (dmg : Z) :
  let t := performance_now E (nowIdx w) in
  let elapsed := fl (t - Player.lastDamageTime (player w)) in
  (elapsed < 200 ->
     applyDamageToPlayer E dmg w = Some (tt, set_nowIdx (S (nowIdx w)) w) /\
     player (set_nowIdx (S (nowIdx w)) w) = player w) /\
  (~ elapsed < 200 ->
     exists w',
       applyDamageToPlayer E dmg w = Some (tt, w') /\
       Player.lastDamageTime (player w') = t /\
       Player.health (player w') = Z.max 0 (Player.health (player w) - dmg)) /\
  (200 <= t - Player.lastDamageTime (player w) -> ~ elapsed < 200) /\
  ((0 <= Player.health (player w))%Z ->
     forall ops : list PlayerOp,
     exists w',
       runAll (map (playerOp E) ops) w = Some (tt, w') /\
       (0 <= Player.health (player w'))%Z).
Proof.
  intros t elapsed. split; [| split; [| split]].
  - intros H. split; [now apply applyDamageToPlayer_ignored | reflexivity].
  - intros H. destruct (applyDamageToPlayer_accepted w dmg H) as (w' & Hrun & Ht & Hh & _).
    exists w'. auto.
  - intros H. apply window_passed. now apply Qle_not_lt.
  - intros Hh ops. now apply runAll_health_nonneg.
Qed.

End PlayerHealth.

Section Respawn.

Variable E : Env.
Variable defs : list WeaponDef.t.

Lemma respawnPlayer_eq (w : World) :
  respawnPlayer w =
  Some (tt,
    {| nowIdx := nowIdx w; rndIdx := rndIdx w; queryIdx := queryIdx w;
       nextRef := nextRef w;
       currentWeaponIndex := currentWeaponIndex w;
       weaponState := weaponState w;
       player := Player.mk (mkVec3 0 0 0) (Player.onGround (player w))
                   PLAYER_MAX_HEALTH (Player.lastDamageTime (player w));
       input := input w;
       camera := Camera.mk (mkVec3 0 24 0) (Camera.aim (camera w)) (Camera.yaw (camera w));
       enemyManager := enemyManager w;
       store := store w;
       worldColliders := worldColliders w;
       statusText := "";
       timers := timers w;
       log := HudRefresh :: log w |}).
Proof. reflexivity. Qed.

(** C10. Respawn rewrites the camera position, the player's velocity and
    health and the status text (and refreshes the HUD); every weapon's
    runtime state, the equipped index, the enemy registry with its pools,
    the enemy objects and the pending timers (reload completions among
    them) are as before. *)
Theorem respawnPlayer_frame (w : World) :
  exists w',
    respawnPlayer w = Some (tt, w') /\
    weaponState w' = weaponState w /\
    currentWeaponIndex w' = currentWeaponIndex w /\
    enemyManager w' = enemyManager w /\
    store w' = store w /\
    timers w' = timers w /\
    input w' = input w /\
    Player.onGround (player w') = Player.onGround (player w) /\
    Player.lastDamageTime (player w') = Player.lastDamageTime (player w) /\
    Camera.aim (camera w') = Camera.aim (camera w) /\
    Camera.yaw (camera w') = Camera.yaw (camera w).
Proof.
  eexists. split; [apply respawnPlayer_eq |]. repeat split.
Qed.

(** C9, as the code has it. Damage that brings the health to 0 or below
    leaves it at 0 and schedules [respawnPlayer] after 2000 ms; the timer's
    callback is [respawnPlayer], which sets the health to
    [PLAYER_MAX_HEALTH], the position to (0, 24, 0) and the velocity to 0,
    and leaves [lastDamageTime] as it finds it. *)
Theorem respawn_restores_health_keeps_cooldown (w : World) (dmg : Z) :
  ~ performance_now E (nowIdx w) - Player.lastDamageTime (player w) < 200 ->
  (Player.health (player w) - dmg <= 0)%Z ->
  exists w1,
    applyDamageToPlayer E dmg w = Some (tt, w1) /\
    Player.health (player w1) = 0%Z /\
    timers w1 = timers w ++ [mkTimer RespawnPlayer 2000] /\
    runCallback E defs RespawnPlayer = respawnPlayer /\
    forall w2 : World,
    exists w3,
      respawnPlayer w2 = Some (tt, w3) /\
      Player.health (player w3) = PLAYER_MAX_HEALTH /\
      Camera.position (camera w3) = mkVec3 0 24 0 /\
      Player.velocity (player w3) = mkVec3 0 0 0 /\
      Player.lastDamageTime (player w3) = Player.lastDamageTime (player w2).
Proof.
  intros Hout Hfatal. apply window_passed in Hout.
  destruct (applyDamageToPlayer_accepted E w dmg Hout)
    as (w1 & Hrun & _ & Hh & _ & _ & Ht).
  exists w1. split; [assumption |]. split; [lia |]. split.
  - rewrite Ht. apply Z.leb_le in Hfatal. now rewrite Hfatal.
  - split; [reflexivity |]. intros w2. eexists.
    split; [apply respawnPlayer_eq |]. repeat split.
Qed.

End Respawn.

(** C9, at a concrete run: the hit taken while down (t = 6900) stamps
    [lastDamageTime]; the respawn keeps the stamp, so the hit at t = 7050,
    after the respawn, falls inside the 200 ms window and is ignored. *)
Lemma respawn_keeps_damage_cooldown :
  exists w1 w2 w3 w4,
    applyDamageToPlayer respawnEnv 14 wounded = Some (tt, w1) /\
    Player.health (player w1) = 0%Z /\
    timers w1 = [mkTimer RespawnPlayer 2000] /\
    applyDamageToPlayer respawnEnv 6 w1 = Some (tt, w2) /\
    Player.lastDamageTime (player w2) = 6900 /\
    fireTimer respawnEnv WEAPON_DEFS 0 w2 = Some (tt, w3) /\
    Player.health (player w3) = PLAYER_MAX_HEALTH /\
    Player.lastDamageTime (player w3) = 6900 /\
    applyDamageToPlayer respawnEnv 10 w3 = Some (tt, w4) /\
    Player.health (player w4) = PLAYER_MAX_HEALTH.
Proof.
  do 4 eexists.
  split; [vm_compute; reflexivity |].
  split; [reflexivity |].
  split; [reflexivity |].
  split; [vm_compute; reflexivity |].
  split; [reflexivity |].
  split; [vm_compute; reflexivity |].
  split; [reflexivity |].
  split; [reflexivity |].
  split; [vm_compute; reflexivity |].
  reflexivity.
Qed.

Lemma respawn_restores_health_keeps_cooldown_witness :
  exists w1,
    applyDamageToPlayer respawnEnv 14 wounded = Some (tt, w1) /\
    Player.health (player w1) = 0%Z.
Proof.
  destruct (respawn_restores_health_keeps_cooldown respawnEnv WEAPON_DEFS wounded 14)
    as (w1 & Hrun & Hh & _).
  - vm_compute. intros H. discriminate H.
  - vm_compute. intros H. discriminate H.
  - exists w1. split; assumption.
Defined.

Ltac weapon_simpl :=
  cbn [set_lastShotTime set_reloading set_ammo set_reserve
       WeaponState.ammo WeaponState.reserve WeaponState.lastShotTime
       WeaponState.reloading WeaponState.skinIndex].

Section Weapons.

Variable E : Env.
Variable defs : list WeaponDef.t.

Section CurrentWeapon.

Variable w : World.
Variable d : WeaponDef.t.
Variable s : WeaponState.t.
Hypothesis Hdef : defs !! currentWeaponIndex w = Some d.
Hypothesis Hst : weaponState w !! currentWeaponIndex w = Some s.

Lemma tryReload_noop :
  WeaponState.reloading s = true \/
  (WeaponDef.mag d <= WeaponState.ammo s)%Z \/
  (WeaponState.reserve s <= 0)%Z ->
  tryReload defs w = Some (tt, w).
Proof.
  intros H. unfold tryReload. sim_unfold. rewrite Hst, Hdef.
  destruct (WeaponState.reloading s); [reflexivity |].
  destruct H as [H | [H | H]]; [discriminate | |].
  - apply Z.leb_le in H. now rewrite H.
  - apply Z.leb_le in H. rewrite H. now rewrite orb_true_r.
Qed.

Lemma tryReload_starts :
  WeaponState.reloading s = false ->
  (WeaponState.ammo s < WeaponDef.mag d)%Z ->
  (0 < WeaponState.reserve s)%Z ->
  tryReload defs w =
  Some (tt,
    set_timers (timers w ++ [mkTimer (ReloadDone (currentWeaponIndex w))
                                     (WeaponDef.reload d * 1000)])
      (set_statusText "Reloading..."
        (set_weaponState (alter (set_reloading true) (currentWeaponIndex w) (weaponState w))
           w))).
Proof.
  intros Hr Ha Hres. unfold tryReload. sim_unfold. rewrite Hst, Hdef, Hr.
  apply Z.leb_gt in Ha, Hres. rewrite Ha, Hres. reflexivity.
Qed.

Lemma canShoot_reloading :
  WeaponState.reloading s = true -> canShoot E defs w = Some (false, w).
Proof.
  intros Hr. unfold canShoot. sim_unfold. now rewrite Hst, Hr.
Qed.

Lemma canShoot_empty :
  WeaponState.reloading s = false ->
  (WeaponState.ammo s <= 0)%Z ->
  exists w', tryReload defs w = Some (tt, w') /\ canShoot E defs w = Some (false, w').
Proof.
  intros Hr Ha.
  assert (Htry : exists w', tryReload defs w = Some (tt, w')).
  { destruct (Z.le_gt_cases (WeaponDef.mag d) (WeaponState.ammo s)) as [Hfull | Hroom].
    - exists w. apply tryReload_noop. auto.
    - destruct (Z.le_gt_cases (WeaponState.reserve s) 0) as [Hnone | Hsome].
      + exists w. apply tryReload_noop. auto.
      + eexists. now apply tryReload_starts. }
  destruct Htry as (w' & Htry). exists w'. split; [assumption |].
  unfold canShoot. sim_unfold. rewrite Hst, Hr.
  apply Z.leb_le in Ha. rewrite Ha.
  change (match tryReload defs w with
          | Some (_, w'0) => Some (false, w'0)
          | None => None
          end = Some (false, w')).
  now rewrite Htry.
Qed.

Lemma canShoot_gate :
  WeaponState.reloading s = false ->
  (0 < WeaponState.ammo s)%Z ->
  canShoot E defs w =
  Some (gateOpen d (WeaponState.lastShotTime s) (performance_now E (nowIdx w)),
        set_nowIdx (S (nowIdx w)) w).
Proof.
  intros Hr Ha. unfold canShoot. sim_unfold. rewrite Hst, Hr.
  apply Z.leb_gt in Ha. rewrite Ha. world_simpl. now rewrite Hdef.
Qed.

End CurrentWeapon.

(** The timer queued last expires. *)
Lemma fireTimer_last (w : World) (ts : list Timer) (t : Timer) :
  fireTimer E defs (length ts) (set_timers (ts ++ [t]) w) =
  runCallback E defs (callback t) (set_timers ts (set_timers (ts ++ [t]) w)).
Proof.
  unfold fireTimer. sim_unfold. world_simpl.
  rewrite (list_lookup_middle ts [] t (length ts) eq_refl).
  rewrite take_app_length, drop_ge, app_nil_r; [reflexivity |].
  rewrite length_app. cbn. lia.
Qed.

(** The completion of a reload of weapon [i], in whatever world it runs. *)
Lemma reloadDone_transfers (i : nat) (w : World) (d : WeaponDef.t) (s : WeaponState.t) :
  defs !! i = Some d ->
  weaponState w !! i = Some s ->
  let take := Z.min (WeaponDef.mag d - WeaponState.ammo s) (WeaponState.reserve s) in
  exists w',
    reloadDone defs i w = Some (tt, w') /\
    weaponState w' !! i =
      Some (WeaponState.mk (WeaponState.ammo s + take) (WeaponState.reserve s - take)
              (WeaponState.lastShotTime s) false (WeaponState.skinIndex s)) /\
    (forall j, j <> i -> weaponState w' !! j = weaponState w !! j) /\
    timers w' = timers w.
Proof.
  intros Hd Hs take. unfold reloadDone. sim_unfold. rewrite Hd, Hs. world_simpl.
  eexists. split; [reflexivity |]. world_simpl. split; [| split; [| reflexivity]].
  - rewrite !list_lookup_alter_eq, Hs. reflexivity.
  - intros j Hj. now rewrite !list_lookup_alter_ne by auto.
Qed.

(** C2. [tryReload] changes nothing when the equipped weapon is already
    reloading, its magazine is full ([ammo >= mag], [ammo = mag] included)
    or its reserve is empty ([reserve <= 0], [reserve = 0] included).
    Otherwise it sets [reloading] on that weapon only and schedules the
    completion after [reload * 1000] ms; the completion moves
    [min (mag - ammo) reserve] rounds from the reserve to the magazine and
    clears [reloading]. *)
Theorem tryReload_noop_or_transfer (w : World) (d : WeaponDef.t) (s : WeaponState.t) :
  let i := currentWeaponIndex w in
  defs !! i = Some d ->
  weaponState w !! i = Some s ->
  (WeaponState.reloading s = true \/
   (WeaponDef.mag d <= WeaponState.ammo s)%Z \/
   (WeaponState.reserve s <= 0)%Z ->
   tryReload defs w = Some (tt, w)) /\
  (WeaponState.reloading s = false ->
   (WeaponState.ammo s < WeaponDef.mag d)%Z ->
   (0 < WeaponState.reserve s)%Z ->
   exists w1,
     tryReload defs w = Some (tt, w1) /\
     weaponState w1 !! i = Some (set_reloading true s) /\
     (forall j, j <> i -> weaponState w1 !! j = weaponState w !! j) /\
     timers w1 = timers w ++ [mkTimer (ReloadDone i) (WeaponDef.reload d * 1000)] /\
     let take := Z.min (WeaponDef.mag d - WeaponState.ammo s) (WeaponState.reserve s) in
     exists w2,
       fireTimer E defs (length (timers w)) w1 = Some (tt, w2) /\
       weaponState w2 !! i =
         Some (WeaponState.mk (WeaponState.ammo s + take) (WeaponState.reserve s - take)
                 (WeaponState.lastShotTime s) false (WeaponState.skinIndex s)) /\
       (forall j, j <> i -> weaponState w2 !! j = weaponState w !! j) /\
       timers w2 = timers w).
Proof.
  intros i Hd Hs. split.
  - exact (tryReload_noop w d s Hd Hs).
  - intros Hr Ha Hres. eexists.
    split; [exact (tryReload_starts w d s Hd Hs Hr Ha Hres) |].
    fold i. world_simpl.
    assert (Hs1 : alter (set_reloading true) i (weaponState w) !! i = Some (set_reloading true s))
      by now rewrite list_lookup_alter_eq, Hs.
    split; [assumption |].
    split; [intros j Hj; now rewrite list_lookup_alter_ne by auto |].
    split; [reflexivity |].
    rewrite fireTimer_last. cbn [runCallback].
    destruct (reloadDone_transfers i
                (set_timers (timers w)
                   (set_timers (timers w ++ [mkTimer (ReloadDone i) (WeaponDef.reload d * 1000)])
                      (set_statusText "Reloading..."
                         (set_weaponState (alter (set_reloading true) i (weaponState w)) w))))
                d (set_reloading true s) Hd Hs1)
      as (w2 & Hrun & Hw2 & Hother & Htimers).
    exists w2. split; [exact Hrun |]. split; [exact Hw2 |]. split; [| exact Htimers].
    intros j Hj. rewrite (Hother j Hj). world_simpl.
    now rewrite list_lookup_alter_ne by auto.
Qed.

End Weapons.

Lemma combatFrame_refl (w : World) : combatFrame w w.
Proof. split; reflexivity. Qed.

Lemma combatFrame_trans (w1 w2 w3 : World) :
  combatFrame w1 w2 -> combatFrame w2 w3 -> combatFrame w1 w3.
Proof.
  intros [] []. split; etransitivity; eassumption.
Qed.

Section Enemies.

Variable E : Env.

Lemma applyDamageToEnemy_survives (w : World) (e : nat) (en : Enemy.t) (dmg : Z) :
  store w !! e = Some en ->
  (0 < Enemy.health en - dmg)%Z ->
  let h := (Enemy.health en - dmg)%Z in
  applyDamageToEnemy e dmg w =
  Some (tt, set_store
              (<[e := upd_enemy h (clamp (inject_Z h / 100) 0 1) (30 <? h)%Z en]> (store w)) w).
Proof.
  intros Hen Hh h. unfold applyDamageToEnemy. sim_unfold. rewrite Hen.
  fold h. apply Z.leb_gt in Hh. fold h in Hh. now rewrite Hh.
Qed.

Lemma applyDamageToEnemy_kills (w : World) (e : nat) (en : Enemy.t) (dmg : Z) :
  store w !! e = Some en ->
  (Enemy.health en - dmg <= 0)%Z ->
  let h := (Enemy.health en - dmg)%Z in
  let m := enemyManager w in
  applyDamageToEnemy e dmg w =
  Some (tt,
    set_timers (timers w ++ [mkTimer CreateEnemy 2000])
      (set_enemyManager
         (EnemyManager.mk
            (filter (fun x => x <> e) (EnemyManager.enemies m))
            (filter (fun x => x <> Enemy.mesh en) (EnemyManager.hitMeshes m))
            (delete (Enemy.mesh en) (EnemyManager.meshToEnemy m)))
         (set_log (SceneRemove e :: log w)
            (set_store
               (<[e := upd_enemy h (clamp (inject_Z h / 100) 0 1) (30 <? h)%Z en]> (store w))
               w)))).
Proof.
  intros Hen Hh h m. unfold applyDamageToEnemy. sim_unfold. rewrite Hen.
  fold h. apply Z.leb_le in Hh. fold h in Hh. now rewrite Hh.
Qed.

(** Rewriting an enemy object in place, deleting entries of the lookup
    map and filtering the two lists keep a world well formed. *)
Lemma wf_damage (w w' : World) (e : nat) (en en' : Enemy.t) :
  wf w ->
  store w !! e = Some en ->
  Enemy.mesh en' = Enemy.mesh en ->
  store w' = <[e := en']> (store w) ->
  nextRef w' = nextRef w ->
  (forall m x, EnemyManager.meshToEnemy (enemyManager w') !! m = Some x ->
               EnemyManager.meshToEnemy (enemyManager w) !! m = Some x) ->
  wf w'.
Proof.
  intros [Hmap Hsf Hmf] Hen Hmesh Hstore Hnext Hsub. split.
  - intros m x Hx. apply Hsub in Hx. destruct (Hmap m x Hx) as (ex & Hex & Hm).
    rewrite Hstore. destruct (decide (e = x)) as [-> | Hne].
    + exists en'. rewrite lookup_insert_eq. split; [reflexivity |]. congruence.
    + exists ex. now rewrite lookup_insert_ne.
  - intros x ex Hx. rewrite Hstore in Hx. rewrite Hnext.
    destruct (decide (e = x)) as [-> | Hne].
    + rewrite lookup_insert_eq in Hx. injection Hx as <-. rewrite Hmesh. eauto.
    + rewrite lookup_insert_ne in Hx by assumption. eauto.
  - intros m x Hx. rewrite Hnext. eauto.
Qed.

Lemma applyDamageToEnemy_spec (w : World) (e : nat) (en : Enemy.t) (dmg : Z) :
  wf w ->
  store w !! e = Some en ->
  exists w',
    applyDamageToEnemy e dmg w = Some (tt, w') /\
    combatFrame w w' /\
    wf w' /\
    rndIdx w' = rndIdx w /\
    queryIdx w' = queryIdx w /\
    (forall x, x <> e -> store w' !! x = store w !! x) /\
    (forall m x, EnemyManager.meshToEnemy (enemyManager w') !! m = Some x ->
                 EnemyManager.meshToEnemy (enemyManager w) !! m = Some x) /\
    (log w' = log w \/ log w' = SceneRemove e :: log w).
Proof.
  intros Hwf Hen.
  destruct (Z.le_gt_cases (Enemy.health en - dmg) 0) as [Hdead | Halive].
  - eexists. split; [exact (applyDamageToEnemy_kills w e en dmg Hen Hdead) |].
    world_simpl. split; [split; reflexivity |]. split.
    + eapply (wf_damage w _ e en); [assumption | eassumption | | reflexivity | reflexivity |].
      * reflexivity.
      * world_simpl. intros m x Hx. apply lookup_delete_Some in Hx. tauto.
    + split; [reflexivity |]. split; [reflexivity |]. split.
      * intros x Hx. now rewrite lookup_insert_ne by auto.
      * split; [| now right]. intros m x Hx. apply lookup_delete_Some in Hx. tauto.
  - eexists. split; [exact (applyDamageToEnemy_survives w e en dmg Hen Halive) |].
    world_simpl. split; [split; reflexivity |]. split.
    + eapply (wf_damage w _ e en); [assumption | eassumption | | reflexivity | reflexivity |].
      * reflexivity.
      * auto.
    + split; [reflexivity |]. split; [reflexivity |]. split.
      * intros x Hx. now rewrite lookup_insert_ne by auto.
      * split; [auto | now left].
Qed.

(** Reading the clock, drawing random numbers, querying a pool and
    logging do not disturb well-formedness. *)
Lemma wf_same (w w' : World) :
  wf w ->
  store w' = store w ->
  enemyManager w' = enemyManager w ->
  nextRef w' = nextRef w ->
  wf w'.
Proof.
  intros [Hmap Hsf Hmf] Hs Hm Hn. split; rewrite ?Hs, ?Hm, ?Hn; assumption.
Qed.

Lemma performRaycastShot_spec (w : World) (d : WeaponDef.t) (dmg : Z) :
  wf w ->
  exists w' seg,
    performRaycastShot E d dmg w = Some (tt, w') /\
    combatFrame w w' /\
    wf w' /\
    rndIdx w' = (rndIdx w + 3)%nat /\
    log w' = seg ++ log w /\
    PelletTrace (pelletRay E d w) seg /\
    (forall m x, EnemyManager.meshToEnemy (enemyManager w') !! m = Some x ->
                 EnemyManager.meshToEnemy (enemyManager w) !! m = Some x) /\
    (forall e, unreachable e w -> store w' !! e = store w !! e).
Proof.
  intros Hwf. unfold performRaycastShot, pelletRay. sim_unfold. world_simpl.
  match goal with
  | |- context [intersectObjects E (queryIdx w) ?pool ?r] =>
      set (ray := r); destruct (intersectObjects E (queryIdx w) pool ray) as [| hit rest]
  end.
  - (* nothing of the enemy pool on the ray *)
    world_simpl.
    destruct (intersectObjects E (S (queryIdx w)) (worldColliders w) ray) as [| wh rest];
      world_simpl; eexists; eexists; (split; [reflexivity |]); world_simpl.
    + split; [split; reflexivity |]. split; [eapply wf_same; [eassumption | reflexivity | reflexivity | reflexivity] |].
      split; [lia |]. split; [instantiate (1 := [_; _]); reflexivity |].
      split; [constructor |]. auto.
    + split; [split; reflexivity |]. split; [eapply wf_same; [eassumption | reflexivity | reflexivity | reflexivity] |].
      split; [lia |]. split; [instantiate (1 := [_; _; _]); reflexivity |].
      split; [constructor |]. auto.
  - world_simpl.
    destruct (EnemyManager.meshToEnemy (enemyManager w) !! object hit) as [e |] eqn:Hlook.
    + (* an enemy is struck *)
      destruct (wf_map w Hwf _ _ Hlook) as (en & Hen & Hmesh).
      match goal with
      | |- context [applyDamageToEnemy e dmg ?w1] =>
          destruct (applyDamageToEnemy_spec w1 e en dmg) as
            (w2 & Hrun & Hframe & Hwf2 & Hrnd & Hq & Hstore & Hsub & Hlog);
            [eapply wf_same; [eassumption | reflexivity | reflexivity | reflexivity] | exact Hen |];
            rewrite Hrun
      end.
      world_simpl. destruct Hframe. world_simpl_all.
      assert (Hreach : forall x, unreachable x w -> store w2 !! x = store w !! x).
      { intros x Hx. rewrite Hstore; [reflexivity |]. intros ->. exact (Hx _ Hlook). }
      destruct Hlog as [Hlog | Hlog].
      * eexists. exists [HitMarker (point hit); EnemyQuery ray].
        split; [reflexivity |]. world_simpl.
        split; [split; assumption |].
        split; [eapply wf_same; [eassumption | reflexivity | reflexivity | reflexivity] |].
        split; [lia |]. split; [now rewrite Hlog |]. split; [constructor |]. auto.
      * eexists. exists [HitMarker (point hit); SceneRemove e; EnemyQuery ray].
        split; [reflexivity |]. world_simpl.
        split; [split; assumption |].
        split; [eapply wf_same; [eassumption | reflexivity | reflexivity | reflexivity] |].
        split; [lia |]. split; [now rewrite Hlog |]. split; [constructor |]. auto.
    + (* the object hit is no enemy's mesh *)
      world_simpl.
      destruct (intersectObjects E (S (queryIdx w)) (worldColliders w) ray) as [| wh rest'];
        world_simpl; eexists; eexists; (split; [reflexivity |]); world_simpl.
      * split; [split; reflexivity |].
        split; [eapply wf_same; [eassumption | reflexivity | reflexivity | reflexivity] |].
        split; [lia |]. split; [instantiate (1 := [_; _]); reflexivity |].
        split; [constructor |]. auto.
      * split; [split; reflexivity |].
        split; [eapply wf_same; [eassumption | reflexivity | reflexivity | reflexivity] |].
        split; [lia |]. split; [instantiate (1 := [_; _; _]); reflexivity |].
        split; [constructor |]. auto.
Qed.

Lemma times_performRaycastShot_spec (n : nat) (d : WeaponDef.t) (dmg : Z) (w : World) :
  wf w ->
  exists w' segs,
    times n (performRaycastShot E d dmg) w = Some (tt, w') /\
    combatFrame w w' /\
    wf w' /\
    rndIdx w' = (rndIdx w + 3 * n)%nat /\
    length segs = n /\
    log w' = concat segs ++ log w /\
    Forall isPelletTrace segs /\
    (forall e, unreachable e w -> store w' !! e = store w !! e).
Proof.
  revert w. induction n as [| n IH]; intros w Hwf.
  - exists w, []. split; [reflexivity |]. split; [apply combatFrame_refl |].
    split; [assumption |]. split; [lia |]. split; [reflexivity |].
    split; [reflexivity |]. split; [constructor | reflexivity].
  - destruct (performRaycastShot_spec w d dmg Hwf)
      as (w1 & seg & Hrun1 & Hf1 & Hwf1 & Hrnd1 & Hlog1 & Hseg & Hsub1 & Hst1).
    destruct (IH w1 Hwf1) as (w2 & segs & Hrun2 & Hf2 & Hwf2 & Hrnd2 & Hlen & Hlog2 & Hsegs & Hst2).
    exists w2, (segs ++ [seg]).
    split.
    { cbn [times]. unfold bind at 1. now rewrite Hrun1. }
    split; [eapply combatFrame_trans; eassumption |].
    split; [assumption |]. split; [lia |].
    split; [rewrite length_app; cbn; lia |].
    split.
    { rewrite Hlog2, Hlog1, concat_app. cbn [concat]. now rewrite app_nil_r, app_assoc. }
    split; [apply Forall_app; split; [assumption | constructor; [eexists; eassumption | constructor]] |].
    intros e He. rewrite Hst2; [now apply Hst1 |].
    intros m Hm. apply Hsub1 in Hm. exact (He m Hm).
Qed.

(** What [performRaycastShot] does follows the answers of the raycaster. *)
Lemma performRaycastShot_resolved (w w' : World) (d : WeaponDef.t) (dmg : Z) :
  wf w ->
  performRaycastShot E d dmg w = Some (tt, w') ->
  pelletResolved E d dmg w w'.
Proof.
  intros Hwf. unfold pelletResolved, struckEnemy, performRaycastShot, pelletRay.
  sim_unfold. world_simpl. cbv zeta.
  match goal with
  | |- context [intersectObjects E (queryIdx w) ?pool ?r] =>
      set (ray := r); destruct (intersectObjects E (queryIdx w) pool ray) as [| hit rest]
  end.
  - (* nothing of the enemy pool on the ray *)
    world_simpl.
    destruct (intersectObjects E (S (queryIdx w)) (worldColliders w) ray) as [| wh rest];
      world_simpl; intros [= <-]; world_simpl;
      (split; [split; reflexivity |]); (split; [lia |]); repeat split; reflexivity.
  - world_simpl.
    destruct (EnemyManager.meshToEnemy (enemyManager w) !! object hit) as [e |] eqn:Hlook;
      cbn [fmap option_fmap option_map].
    + (* an enemy is struck *)
      destruct (wf_map w Hwf _ _ Hlook) as (en & Hen & Hmesh).
      destruct (Z.le_gt_cases (Enemy.health en - dmg) 0) as [Hdead | Halive].
      * match goal with
        | |- context [applyDamageToEnemy e dmg ?w1] =>
            rewrite (applyDamageToEnemy_kills w1 e en dmg Hen Hdead)
        end.
        world_simpl. intros [= <-]. world_simpl.
        split; [split; reflexivity |].
        split; [lia |]. split; [reflexivity |]. exists en. split; [assumption |].
        cbv zeta. rewrite (proj2 (Z.leb_le _ _) Hdead).
        repeat split; reflexivity.
      * match goal with
        | |- context [applyDamageToEnemy e dmg ?w1] =>
            rewrite (applyDamageToEnemy_survives w1 e en dmg Hen Halive)
        end.
        world_simpl. intros [= <-]. world_simpl.
        split; [split; reflexivity |].
        split; [lia |]. split; [reflexivity |]. exists en. split; [assumption |].
        cbv zeta. rewrite (proj2 (Z.leb_gt _ _) Halive), app_nil_r.
        repeat split; reflexivity.
    + (* the object hit is no enemy's mesh *)
      world_simpl.
      destruct (intersectObjects E (S (queryIdx w)) (worldColliders w) ray) as [| wh rest'];
        world_simpl; intros [= <-]; world_simpl;
        (split; [split; reflexivity |]); (split; [lia |]); repeat split; reflexivity.
Qed.

Lemma times_performRaycastShot_resolved (n : nat) (d : WeaponDef.t) (dmg : Z) (w w' : World) :
  wf w ->
  times n (performRaycastShot E d dmg) w = Some (tt, w') ->
  pelletsResolved E d dmg n w w'.
Proof.
  revert w. induction n as [| n IH]; intros w Hwf Hrun.
  - injection Hrun as <-. constructor.
  - destruct (performRaycastShot_spec w d dmg Hwf) as (w1 & seg & Hrun1 & _ & Hwf1 & _).
    cbn [times] in Hrun. unfold bind at 1 in Hrun. rewrite Hrun1 in Hrun.
    apply (pellets_next E d dmg n w w1 w').
    + now apply performRaycastShot_resolved.
    + now apply IH.
Qed.

End Enemies.

Section Fire.

Variable E : Env.
Variable defs : list WeaponDef.t.

(** How many times [shoot] calls [performRaycastShot]. *)
Let shots (d : WeaponDef.t) : nat :=
  if String.eqb (WeaponDef.key d) "shotgun" then pelletsOr8 d else 1%nat.

Lemma shoot_rejected (w w' : World) :
  canShoot E defs w = Some (false, w') -> shoot E defs w = Some (tt, w').
Proof.
  intros H. unfold shoot. sim_unfold. now rewrite H.
Qed.

Lemma shoot_fires (w : World) (d : WeaponDef.t) (s : WeaponState.t) :
  let i := currentWeaponIndex w in
  let t1 := performance_now E (S (nowIdx w)) in
  wf w ->
  defs !! i = Some d ->
  weaponState w !! i = Some s ->
  canShoot E defs w = Some (true, set_nowIdx (S (nowIdx w)) w) ->
  exists w1 segs,
    shoot E defs w = Some (tt, w1) /\
    wf w1 /\
    currentWeaponIndex w1 = i /\
    nowIdx w1 = (nowIdx w + 3)%nat /\
    weaponState w1 !! i = Some (set_ammo (WeaponState.ammo s - 1) (set_lastShotTime t1 s)) /\
    (forall j, j <> i -> weaponState w1 !! j = weaponState w !! j) /\
    length segs = shots d /\
    Forall isPelletTrace segs /\
    log w1 = MuzzleFlash :: HudRefresh :: concat segs ++ log w.
Proof.
  intros i t1 Hwf Hd Hs Hcan. unfold shoot. sim_unfold. rewrite Hcan.
  cbn [negb]. world_simpl. fold i. rewrite Hd.
  match goal with
  | |- context [set_weaponState ?ws (set_nowIdx ?n ?w')] =>
      set (w0 := set_weaponState ws (set_nowIdx n w'))
  end.
  assert (Hwf0 : wf w0)
    by (eapply wf_same; [eassumption | reflexivity | reflexivity | reflexivity]).
  assert (Hpellets : exists w2 segs,
    (if String.eqb (WeaponDef.key d) "shotgun"
     then times (pelletsOr8 d) (performRaycastShot E d (WeaponDef.damage d))
     else performRaycastShot E d (WeaponDef.damage d)) w0 = Some (tt, w2) /\
    combatFrame w0 w2 /\ wf w2 /\ length segs = shots d /\
    Forall isPelletTrace segs /\ log w2 = concat segs ++ log w0).
  { subst shots. cbn beta. destruct (String.eqb (WeaponDef.key d) "shotgun").
    - destruct (times_performRaycastShot_spec E (pelletsOr8 d) d (WeaponDef.damage d) w0 Hwf0)
        as (w2 & segs & Hrun & Hf & Hwf2 & _ & Hlen & Hlog & Hsegs & _).
      exists w2, segs. auto 10.
    - destruct (performRaycastShot_spec E w0 d (WeaponDef.damage d) Hwf0)
        as (w2 & seg & Hrun & Hf & Hwf2 & _ & Hlog & Hseg & _).
      exists w2, [seg]. cbn [concat]. rewrite app_nil_r.
      assert (isPelletTrace seg) by (eexists; eassumption). auto 10. }
  destruct Hpellets as (w2 & segs & Hrun & Hf & Hwf2 & Hlen & Hsegs & Hlog).
  rewrite Hrun. destruct Hf. subst w0. world_simpl_all.
  eexists. exists segs. split; [reflexivity |]. world_simpl.
  split; [eapply wf_same; [eassumption | reflexivity | reflexivity | reflexivity] |].
  split; [assumption |]. split; [lia |].
  rewrite cf_weaponState0. split.
  { rewrite !list_lookup_alter_eq, Hs. reflexivity. }
  split; [intros j Hj; now rewrite !list_lookup_alter_ne by auto |].
  split; [assumption |]. split; [assumption |]. now rewrite Hlog.
Qed.

Lemma countEvents_app (f : Event -> bool) (l1 l2 : list Event) :
  countEvents f (l1 ++ l2) = (countEvents f l1 + countEvents f l2)%nat.
Proof.
  unfold countEvents. now rewrite List.filter_app, length_app.
Qed.

Lemma PelletTrace_queries (seg : list Event) :
  isPelletTrace seg ->
  countEvents isEnemyQuery seg = 1%nat /\ (countEvents isWorldQuery seg <= 1)%nat.
Proof.
  intros [r []]; cbv; lia.
Qed.

Lemma PelletTraces_queries (segs : list (list Event)) :
  Forall isPelletTrace segs ->
  countEvents isEnemyQuery (concat segs) = length segs /\
  (countEvents isWorldQuery (concat segs) <= length segs)%nat.
Proof.
  induction 1 as [| seg segs Hseg _ [IHe IHw]]; [split; reflexivity |].
  destruct (PelletTrace_queries seg Hseg) as [He Hw].
  cbn [concat length]. rewrite !countEvents_app. lia.
Qed.

Section CurrentWeapon.

Variable w : World.
Variable d : WeaponDef.t.
Variable s : WeaponState.t.
Let i := currentWeaponIndex w.
Let t := performance_now E (nowIdx w).
Hypothesis Hdef : defs !! i = Some d.
Hypothesis Hst : weaponState w !! i = Some s.

Lemma shoot_once :
  wf w ->
  WeaponState.reloading s = false ->
  (0 < WeaponState.ammo s)%Z ->
  gateOpen d (WeaponState.lastShotTime s) t = true ->
  exists w1 segs,
    shoot E defs w = Some (tt, w1) /\
    wf w1 /\
    currentWeaponIndex w1 = i /\
    nowIdx w1 = (nowIdx w + 3)%nat /\
    weaponState w1 !! i =
      Some (set_ammo (WeaponState.ammo s - 1)
              (set_lastShotTime (performance_now E (S (nowIdx w))) s)) /\
    length segs = shots d /\
    Forall isPelletTrace segs /\
    log w1 = MuzzleFlash :: HudRefresh :: concat segs ++ log w.
Proof.
  intros Hwf Hr Ha Hgate.
  assert (Hcan : canShoot E defs w = Some (true, set_nowIdx (S (nowIdx w)) w)).
  { rewrite (canShoot_gate E defs w d s Hdef Hst Hr Ha).
    subst t. now rewrite Hgate. }
  destruct (shoot_fires w d s Hwf Hdef Hst Hcan)
    as (w1 & segs & Hrun & Hwf1 & Hi & Hn & Hw1 & _ & Hlen & Hsegs & Hlog).
  exists w1, segs. auto 10.
Qed.

(** A second attempt for which the gate, measured from the stamp [t1] of
    the first, is closed spends nothing. *)
Lemma shoot_again_rejected (w1 : World) (t1 : Q) :
  currentWeaponIndex w1 = i ->
  weaponState w1 !! i = Some (set_ammo (WeaponState.ammo s - 1) (set_lastShotTime t1 s)) ->
  WeaponState.reloading s = false ->
  gateOpen d t1 (performance_now E (nowIdx w1)) = false ->
  exists w2,
    shoot E defs w1 = Some (tt, w2) /\
    ammoOf i w2 = Some (WeaponState.ammo s - 1)%Z.
Proof.
  intros Hi Hw1 Hr Hsoon.
  assert (Hd1 : defs !! currentWeaponIndex w1 = Some d) by now rewrite Hi.
  assert (Hs1 : weaponState w1 !! currentWeaponIndex w1 =
                Some (set_ammo (WeaponState.ammo s - 1) (set_lastShotTime t1 s)))
    by now rewrite Hi.
  destruct (Z.le_gt_cases (WeaponState.ammo s - 1) 0) as [Hempty | Hleft].
  - (* the magazine is empty now: the attempt turns into a reload attempt *)
    destruct (canShoot_empty E defs w1 d _ Hd1 Hs1 Hr Hempty) as (w2 & Htry & Hcan).
    exists w2. split; [now apply shoot_rejected |].
    unfold ammoOf.
    destruct (Z.le_gt_cases (WeaponDef.mag d) (WeaponState.ammo s - 1)) as [Hfull | Hroom];
      [| destruct (Z.le_gt_cases (WeaponState.reserve s) 0) as [Hnone | Hsome]].
    + rewrite (tryReload_noop defs w1 d _ Hd1 Hs1) in Htry by (weapon_simpl; auto).
      injection Htry as Heq. rewrite <- Heq. now rewrite Hw1.
    + rewrite (tryReload_noop defs w1 d _ Hd1 Hs1) in Htry by (weapon_simpl; auto).
      injection Htry as Heq. rewrite <- Heq. now rewrite Hw1.
    + rewrite (tryReload_starts defs w1 d _ Hd1 Hs1 Hr Hroom Hsome) in Htry.
      injection Htry as Heq. rewrite <- Heq. world_simpl.
      rewrite Hi, list_lookup_alter_eq, Hw1. reflexivity.
  - (* the rate-of-fire gate is closed *)
    exists (set_nowIdx (S (nowIdx w1)) w1). split.
    + apply shoot_rejected.
      rewrite (canShoot_gate E defs w1 d _ Hd1 Hs1 Hr Hleft). weapon_simpl.
      now rewrite Hsoon.
    + unfold ammoOf. world_simpl. now rewrite Hw1.
Qed.

End CurrentWeapon.

(** What a call of [shoot] does to the equipped weapon: it fires, taking
    one round and stamping the second clock reading, exactly when the
    weapon is not reloading, has a round and the gate is open; otherwise
    the magazine and the stamp are as before. *)
Lemma shoot_outcome (w : World) (d : WeaponDef.t) (s : WeaponState.t) :
  let i := currentWeaponIndex w in
  let t := performance_now E (nowIdx w) in
  wf w ->
  defs !! i = Some d ->
  weaponState w !! i = Some s ->
  exists w' s',
    shoot E defs w = Some (tt, w') /\ wf w' /\
    currentWeaponIndex w' = i /\
    weaponState w' !! i = Some s' /\
    ((WeaponState.reloading s = false /\ (0 < WeaponState.ammo s)%Z /\
      gateOpen d (WeaponState.lastShotTime s) t = true /\
      s' = set_ammo (WeaponState.ammo s - 1)
             (set_lastShotTime (performance_now E (S (nowIdx w))) s) /\
      nowIdx w' = (nowIdx w + 3)%nat)
     \/
     (WeaponState.ammo s' = WeaponState.ammo s /\
      WeaponState.lastShotTime s' = WeaponState.lastShotTime s /\
      WeaponState.reloading s' = WeaponState.reloading s \/
      (WeaponState.ammo s' = WeaponState.ammo s /\ (WeaponState.ammo s <= 0)%Z))).
Proof.
  intros i t Hwf Hd Hs. subst i t.
  destruct (WeaponState.reloading s) eqn:Hr.
  { exists w, s. split; [apply shoot_rejected; exact (canShoot_reloading E defs w s Hs Hr) |].
    auto 10. }
  destruct (Z.le_gt_cases (WeaponState.ammo s) 0) as [Hempty | Hleft].
  - destruct (canShoot_empty E defs w d s Hd Hs Hr Hempty) as (w' & Htry & Hcan).
    destruct (Z.le_gt_cases (WeaponDef.mag d) (WeaponState.ammo s)) as [Hfull | Hroom];
      [| destruct (Z.le_gt_cases (WeaponState.reserve s) 0) as [Hnone | Hsome]].
    + rewrite (tryReload_noop defs w d s Hd Hs) in Htry by auto.
      injection Htry as Heq. rewrite <- Heq in *.
      exists w, s. split; [now apply shoot_rejected |]. auto 10.
    + rewrite (tryReload_noop defs w d s Hd Hs) in Htry by auto.
      injection Htry as Heq. rewrite <- Heq in *.
      exists w, s. split; [now apply shoot_rejected |]. auto 10.
    + rewrite (tryReload_starts defs w d s Hd Hs Hr Hroom Hsome) in Htry.
      injection Htry as Heq.
      exists w', (set_reloading true s). split; [now apply shoot_rejected |].
      rewrite <- Heq. world_simpl.
      split; [apply (wf_same w _ Hwf); reflexivity |]. split; [reflexivity |].
      split; [now rewrite list_lookup_alter_eq, Hs |].
      right. right. split; [reflexivity | assumption].
  - destruct (gateOpen d (WeaponState.lastShotTime s) (performance_now E (nowIdx w)))
      eqn:Hgate.
    + destruct (shoot_fires w d s Hwf Hd Hs) as
        (w1 & segs & Hrun & Hwf1 & Hi & Hn & Hw1 & Hother & _).
      { rewrite (canShoot_gate E defs w d s Hd Hs Hr Hleft). now rewrite Hgate. }
      exists w1, (set_ammo (WeaponState.ammo s - 1)
                    (set_lastShotTime (performance_now E (S (nowIdx w))) s)).
      split; [assumption |]. split; [assumption |]. split; [assumption |].
      split; [assumption |]. left. auto 10.
    + exists (set_nowIdx (S (nowIdx w)) w), s.
      split.
      { apply shoot_rejected. rewrite (canShoot_gate E defs w d s Hd Hs Hr Hleft).
        now rewrite Hgate. }
      world_simpl. split; [apply (wf_same w _ Hwf); reflexivity |]. auto 10.
Qed.

(** C1. For the equipped weapon, with definition [d] of non-zero [rpm]
    and state [s]: [canShoot] answers false, reading nothing, when [s] is
    reloading; answers false after a call of [tryReload] when the magazine
    is empty; otherwise reads the clock once and answers true exactly when
    [now - lastShotTime >= 60000 / rpm], both sides being the doubles the
    code computes. Hence when a [shoot] fires and a second [shoot] reads
    the clock at [t2] with [t2 - t1 < 60000 / rpm] as the code computes it,
    [t1] being the stamp the first left in [lastShotTime], the two together
    take one round off the magazine; and whether or not the first attempt
    fires, two attempts that close never take two rounds. *)
Theorem canShoot_gate_double_fire (w : World) (d : WeaponDef.t) (s : WeaponState.t) :
  let i := currentWeaponIndex w in
  let t := performance_now E (nowIdx w) in
  let t1 := performance_now E (S (nowIdx w)) in
  let t2 := performance_now E (nowIdx w + 3) in
  let msPerShot := fl (60000 / WeaponDef.rpm d) in
  let elapsed := fl (t - WeaponState.lastShotTime s) in
  defs !! i = Some d ->
  weaponState w !! i = Some s ->
  ~ WeaponDef.rpm d == 0 ->
  (WeaponState.reloading s = true -> canShoot E defs w = Some (false, w)) /\
  (WeaponState.reloading s = false -> WeaponState.ammo s = 0%Z ->
   exists w', tryReload defs w = Some (tt, w') /\ canShoot E defs w = Some (false, w')) /\
  (WeaponState.reloading s = false -> (0 < WeaponState.ammo s)%Z ->
   exists b, canShoot E defs w = Some (b, set_nowIdx (S (nowIdx w)) w) /\
             (b = true <-> msPerShot <= elapsed)) /\
  (wf w ->
   WeaponState.reloading s = false -> (0 < WeaponState.ammo s)%Z ->
   msPerShot <= elapsed ->
   exists w1,
     shoot E defs w = Some (tt, w1) /\
     ammoOf i w1 = Some (WeaponState.ammo s - 1)%Z /\
     weaponState w1 !! i =
       Some (set_ammo (WeaponState.ammo s - 1) (set_lastShotTime t1 s)) /\
     nowIdx w1 = (nowIdx w + 3)%nat /\
     (fl (t2 - t1) < msPerShot ->
      exists w2,
        shoot E defs w1 = Some (tt, w2) /\
        ammoOf i w2 = Some (WeaponState.ammo s - 1)%Z)) /\
  (wf w ->
   fl (t2 - t1) < msPerShot ->
   exists w1 w2 a2,
     shoot E defs w = Some (tt, w1) /\
     shoot E defs w1 = Some (tt, w2) /\
     ammoOf i w2 = Some a2 /\
     (WeaponState.ammo s - 1 <= a2 <= WeaponState.ammo s)%Z).
Proof.
  intros i t t1 t2 msPerShot elapsed Hd Hs Hrpm.
  assert (Hclosed : fl (t2 - t1) < msPerShot -> gateOpen d t1 t2 = false).
  { intros Hsoon. apply not_true_is_false. intros Hopen.
    apply (gateOpen_iff d t1 t2 Hrpm) in Hopen. subst msPerShot. lra. }
  subst i t t1 t2 msPerShot elapsed. split; [| split; [| split; [| split]]].
  - exact (canShoot_reloading E defs w s Hs).
  - intros Hr Ha. apply (canShoot_empty E defs w d s Hd Hs Hr). lia.
  - intros Hr Ha. eexists. split; [exact (canShoot_gate E defs w d s Hd Hs Hr Ha) |].
    now apply gateOpen_iff.
  - intros Hwf Hr Ha Hgate. apply (gateOpen_iff d _ _ Hrpm) in Hgate.
    destruct (shoot_once w d s Hd Hs Hwf Hr Ha Hgate)
      as (w1 & segs & Hrun & Hwf1 & Hi & Hn & Hw1 & _).
    exists w1. split; [assumption |]. split; [| split; [assumption | split; [assumption |]]].
    + unfold ammoOf. now rewrite Hw1.
    + intros Hsoon. apply Hclosed in Hsoon. rewrite <- Hn in Hsoon.
      exact (shoot_again_rejected w d s Hd w1 _ Hi Hw1 Hr Hsoon).
  - intros Hwf Hsoon. apply Hclosed in Hsoon.
    destruct (shoot_outcome w d s Hwf Hd Hs)
      as (w1 & s1 & Hrun1 & Hwf1 & Hi1 & Hs1 & Hcase).
    destruct Hcase as [(Hr & Ha & _ & Heq & Hn) | Hsame].
    + subst s1. rewrite <- Hn in Hsoon.
      destruct (shoot_again_rejected w d s Hd w1 _ Hi1 Hs1 Hr Hsoon) as (w2 & Hrun2 & Ha2).
      exists w1, w2, (WeaponState.ammo s - 1)%Z. split; [assumption |].
      split; [assumption |]. split; [assumption | lia].
    + assert (Hammo1 : WeaponState.ammo s1 = WeaponState.ammo s)
        by (destruct Hsame as [(Ha & _) | (Ha & _)]; exact Ha).
      destruct (shoot_outcome w1 d s1 Hwf1) as (w2 & s2 & Hrun2 & _ & _ & Hs2 & Hcase2);
        [now rewrite Hi1 | now rewrite Hi1 |].
      rewrite Hi1 in Hs2.
      exists w1, w2, (WeaponState.ammo s2). split; [assumption |]. split; [assumption |].
      split; [unfold ammoOf; now rewrite Hs2 |].
      destruct Hcase2 as [(_ & Ha & _ & Heq & _) | [(Ha & _) | (Ha & _)]].
      * subst s2. cbn [set_ammo WeaponState.ammo]. lia.
      * lia.
      * lia.
Qed.

(** C6. A fire of a weapon whose key is "shotgun" and whose [pellets] is
    [p >= 1] takes one round off the magazine and resolves [p] pellets one
    after the other, starting from the world in which the shot has been
    stamped. Each pellet draws its own ray, queries the enemy pool once, and
    goes by the answer: if the first object on the ray is an enemy's mesh,
    that enemy takes the weapon's damage and nothing else is queried; if
    not, the world pool is queried once with the same ray
    ([pelletsResolved]). So the fire makes [p] enemy-pool queries and at most
    [p] world-pool queries; then the round is taken, the HUD is refreshed
    and the muzzle flashes. *)
Theorem shotgun_one_round_p_queries
    (w : World) (d : WeaponDef.t) (s : WeaponState.t) (p : nat) :
  let i := currentWeaponIndex w in
  let t1 := performance_now E (S (nowIdx w)) in
  let stamped :=
    set_weaponState (alter (set_lastShotTime t1) i (weaponState w))
      (set_nowIdx (S (S (nowIdx w))) w) in
  let roundTaken (wb : World) :=
    set_log (MuzzleFlash :: HudRefresh :: log wb)
      (set_nowIdx (S (nowIdx wb))
         (set_weaponState
            (alter (fun s0 => set_ammo (WeaponState.ammo s0 - 1) s0) i (weaponState wb))
            wb)) in
  wf w ->
  defs !! i = Some d ->
  weaponState w !! i = Some s ->
  WeaponDef.key d = "shotgun"%string ->
  WeaponDef.pellets d = Some p ->
  (0 < p)%nat ->
  canShoot E defs w = Some (true, set_nowIdx (S (nowIdx w)) w) ->
  exists w1 segs,
    shoot E defs w = Some (tt, w1) /\
    ammoOf i w1 = Some (WeaponState.ammo s - 1)%Z /\
    log w1 = MuzzleFlash :: HudRefresh :: concat segs ++ log w /\
    length segs = p /\
    Forall isPelletTrace segs /\
    countEvents isEnemyQuery (MuzzleFlash :: HudRefresh :: concat segs) = p /\
    (countEvents isWorldQuery (MuzzleFlash :: HudRefresh :: concat segs) <= p)%nat /\
    exists wb,
      pelletsResolved E d (WeaponDef.damage d) p stamped wb /\
      log wb = concat segs ++ log w /\
      w1 = roundTaken wb.
Proof.
  intros i t1 stamped roundTaken Hwf Hd Hs Hkey Hp Hpos Hcan.
  assert (Hshots : pelletsOr8 d = p).
  { unfold pelletsOr8. rewrite Hp. destruct p; [lia | reflexivity]. }
  assert (Hwf0 : wf stamped)
    by (eapply wf_same; [eassumption | reflexivity | reflexivity | reflexivity]).
  destruct (times_performRaycastShot_spec E p d (WeaponDef.damage d) stamped Hwf0)
    as (wb & segs & Hrun & Hf & _ & _ & Hlen & Hlog & Hsegs & _).
  pose proof (times_performRaycastShot_resolved E p d (WeaponDef.damage d) stamped wb Hwf0 Hrun)
    as Hchain.
  destruct (PelletTraces_queries segs Hsegs) as [He Hwq].
  exists (roundTaken wb), segs.
  split.
  { unfold shoot. sim_unfold. rewrite Hcan.
    cbn [negb]. world_simpl. fold i. rewrite Hd, Hkey.
    cbn [String.eqb Ascii.eqb Bool.eqb]. rewrite Hshots.
    change (set_weaponState
              (alter (set_lastShotTime (performance_now E (S (nowIdx w)))) i (weaponState w))
              (set_nowIdx (S (S (nowIdx w))) (set_nowIdx (S (nowIdx w)) w)))
      with stamped.
    rewrite Hrun. reflexivity. }
  split.
  { unfold ammoOf, roundTaken. world_simpl. destruct Hf as [_ _ _ Hws _ _ _ _ _].
    rewrite Hws. subst stamped. world_simpl.
    rewrite !list_lookup_alter_eq, Hs. reflexivity. }
  split; [unfold roundTaken; world_simpl; now rewrite Hlog |].
  split; [assumption |]. split; [assumption |].
  rewrite <- Hlen. split; [exact He |]. split; [exact Hwq |].
  exists wb. split; [rewrite Hlen; exact Hchain |]. split; [exact Hlog | reflexivity].
Qed.

End Fire.

Section Registry.

Variable E : Env.
Variable defs : list WeaponDef.t.

(** The enemy object [createEnemy] builds in world [w]. *)
Let newcomer (w : World) : Enemy.t :=
  Enemy.mk (nextRef w) 100 Patrol 0 (mkVec3 1 0 0) 0
    (mkVec3 (randFloat_of (Math_random E (S (rndIdx w))) (- WORLD_SIZE / 2) (WORLD_SIZE / 2))
            12
            (randFloat_of (Math_random E (S (S (rndIdx w)))) (- WORLD_SIZE / 2) (WORLD_SIZE / 2)))
    1 true.

Lemma createEnemy_eq (w : World) :
  createEnemy E w =
  Some (tt,
    set_log (SceneAdd (S (nextRef w)) :: log w)
      (set_enemyManager
         (EnemyManager.mk
            (EnemyManager.enemies (enemyManager w) ++ [S (nextRef w)])
            (EnemyManager.hitMeshes (enemyManager w) ++ [nextRef w])
            (<[nextRef w := S (nextRef w)]> (EnemyManager.meshToEnemy (enemyManager w))))
         (set_store (<[S (nextRef w) := newcomer w]> (store w))
            (set_rndIdx (S (S (S (rndIdx w))))
               (set_nextRef (S (S (nextRef w))) w))))).
Proof. reflexivity. Qed.

Lemma createEnemy_wf (w w' : World) :
  wf w -> createEnemy E w = Some (tt, w') -> wf w'.
Proof.
  intros [Hmap Hsf Hmf]. rewrite createEnemy_eq. intros [= <-]. split; world_simpl.
  - intros m x Hx. apply lookup_insert_Some in Hx as [[<- <-] | [Hne Hx]].
    + exists (newcomer w). now rewrite lookup_insert_eq.
    + destruct (Hmap m x Hx) as (ex & Hex & Hm). exists ex. split; [| assumption].
      rewrite lookup_insert_ne; [assumption |].
      destruct (Hsf x ex Hex). lia.
  - intros x ex Hx. apply lookup_insert_Some in Hx as [[<- <-] | [Hne Hx]].
    + cbn. lia.
    + destruct (Hsf x ex Hx). lia.
  - intros m x Hx. apply lookup_insert_Some in Hx as [[<- <-] | [Hne Hx]].
    + lia.
    + specialize (Hmf m x Hx). lia.
Qed.

Lemma wf_blank : wf blank.
Proof.
  split; cbn; intros ? ? H; rewrite lookup_empty in H; discriminate.
Qed.

Lemma times_createEnemy_wf (n : nat) (w : World) :
  wf w -> exists w', times n (createEnemy E) w = Some (tt, w') /\ wf w'.
Proof.
  revert w. induction n as [| n IH]; intros w Hwf; [now exists w |].
  destruct (IH _ (createEnemy_wf w _ Hwf (createEnemy_eq w))) as (w' & Hrun & Hwf').
  exists w'. split; [| assumption].
  cbn [times]. unfold bind at 1. now rewrite createEnemy_eq.
Qed.

Lemma mapSim_initWeapon_frame (l : list WeaponDef.t) (w : World) :
  exists ws w',
    mapSim (initWeapon E) l w = Some (ws, w') /\
    store w' = store w /\ enemyManager w' = enemyManager w /\ nextRef w' = nextRef w.
Proof.
  revert w. induction l as [| d l IH]; intros w; [now exists [], w |].
  destruct (IH (set_rndIdx (S (rndIdx w)) w)) as (ws & w' & Hrun & Hs & Hm & Hn).
  exists (WeaponState.mk (WeaponDef.mag d) (WeaponDef.reserve d) 0 false
            (randInt_of (Math_random E (rndIdx w)) 0 6) :: ws), w'.
  split; [| auto].
  cbn [mapSim]. unfold initWeapon at 1. sim_unfold. now rewrite Hrun.
Qed.

Lemma boot_wf (w : World) :
  wf w -> exists w', boot E defs w = Some (tt, w') /\ wf w'.
Proof.
  intros Hwf. destruct (mapSim_initWeapon_frame defs w) as (ws & w1 & Hrun & Hs & Hm & Hn).
  assert (Hwf1 : wf (set_weaponState ws w1)) by (eapply wf_same; eassumption).
  destruct (times_createEnemy_wf ENEMY_TARGET_COUNT _ Hwf1) as (w' & Hrun' & Hwf').
  exists w'. split; [| assumption].
  unfold boot. unfold bind at 1. rewrite Hrun. unfold bind at 1. exact Hrun'.
Qed.

(** C4. When [applyDamageToEnemy] brings the health of enemy [e] to 0 or
    below, the same call takes [e] out of [enemies], its mesh out of
    [hitMeshes] and out of [meshToEnemy], so that no mesh leads to [e] any
    more and a shot resolved next cannot strike it; the other enemies
    stay. It queues [createEnemy] after 2000 ms, which builds an enemy of
    a new identity, with health 100, at a position drawn at random. *)
Theorem applyDamageToEnemy_kill_removes (w : World) (e : nat) (en : Enemy.t) (dmg : Z) :
  wf w ->
  store w !! e = Some en ->
  (Enemy.health en - dmg <= 0)%Z ->
  exists w',
    applyDamageToEnemy e dmg w = Some (tt, w') /\
    (e ∉ EnemyManager.enemies (enemyManager w')) /\
    (Enemy.mesh en ∉ EnemyManager.hitMeshes (enemyManager w')) /\
    EnemyManager.meshToEnemy (enemyManager w') !! Enemy.mesh en = None /\
    unreachable e w' /\
    (forall x, x <> e -> x ∈ EnemyManager.enemies (enemyManager w) ->
               x ∈ EnemyManager.enemies (enemyManager w')) /\
    (forall d damage, exists w'' seg,
       performRaycastShot E d damage w' = Some (tt, w'') /\
       log w'' = seg ++ log w' /\
       PelletTrace (pelletRay E d w') seg /\
       store w'' !! e = store w' !! e) /\
    timers w' = timers w ++ [mkTimer CreateEnemy 2000] /\
    runCallback E defs CreateEnemy = createEnemy E /\
    (forall wl, wf wl -> is_Some (store wl !! e) ->
     exists wl' r fresh,
       createEnemy E wl = Some (tt, wl') /\
       r <> e /\
       store wl !! r = None /\
       store wl' !! r = Some fresh /\
       Enemy.health fresh = 100%Z /\
       Enemy.position fresh =
         mkVec3 (randFloat_of (Math_random E (S (rndIdx wl))) (- WORLD_SIZE / 2) (WORLD_SIZE / 2))
                12
                (randFloat_of (Math_random E (S (S (rndIdx wl)))) (- WORLD_SIZE / 2) (WORLD_SIZE / 2)) /\
       r ∈ EnemyManager.enemies (enemyManager wl') /\
       Enemy.mesh fresh ∈ EnemyManager.hitMeshes (enemyManager wl') /\
       EnemyManager.meshToEnemy (enemyManager wl') !! Enemy.mesh fresh = Some r).
Proof.
  intros Hwf Hen Hdead.
  destruct (applyDamageToEnemy_spec w e en dmg Hwf Hen)
    as (w' & Hrun & _ & Hwf' & _).
  exists w'. split; [assumption |].
  rewrite (applyDamageToEnemy_kills w e en dmg Hen Hdead) in Hrun.
  injection Hrun as Hw'.
  assert (Hun : unreachable e w').
  { intros m Hm. rewrite <- Hw' in Hm. world_simpl_all.
    apply lookup_delete_Some in Hm as [Hne Hm].
    destruct (wf_map w Hwf m e Hm) as (ex & Hex & Hmesh). congruence. }
  split; [| split; [| split; [| split; [exact Hun | split; [| split; [| split; [| split]]]]]]].
  - rewrite <- Hw'. world_simpl. rewrite list_elem_of_filter. tauto.
  - rewrite <- Hw'. world_simpl. rewrite list_elem_of_filter. tauto.
  - rewrite <- Hw'. world_simpl. apply lookup_delete_eq.
  - intros x Hx Hin. rewrite <- Hw'. world_simpl. rewrite list_elem_of_filter. tauto.
  - intros d damage.
    destruct (performRaycastShot_spec E w' d damage Hwf')
      as (w'' & seg & Hshot & _ & _ & _ & Hlog & Hseg & _ & Hkeep).
    exists w'', seg. auto.
  - rewrite <- Hw'. reflexivity.
  - reflexivity.
  - intros wl Hwfl [el Hel].
    exists (set_log (SceneAdd (S (nextRef wl)) :: log wl)
      (set_enemyManager
         (EnemyManager.mk
            (EnemyManager.enemies (enemyManager wl) ++ [S (nextRef wl)])
            (EnemyManager.hitMeshes (enemyManager wl) ++ [nextRef wl])
            (<[nextRef wl := S (nextRef wl)]> (EnemyManager.meshToEnemy (enemyManager wl))))
         (set_store (<[S (nextRef wl) := newcomer wl]> (store wl))
            (set_rndIdx (S (S (S (rndIdx wl))))
               (set_nextRef (S (S (nextRef wl))) wl))))),
      (S (nextRef wl)), (newcomer wl).
    split; [apply createEnemy_eq |]. world_simpl.
    destruct (wf_store_fresh wl Hwfl e el Hel) as [He _].
    split; [lia |]. split.
    { destruct (store wl !! S (nextRef wl)) as [x |] eqn:Hx; [| reflexivity].
      destruct (wf_store_fresh wl Hwfl _ _ Hx). lia. }
    split; [apply lookup_insert_eq |].
    split; [reflexivity |]. split; [reflexivity |].
    split; [apply elem_of_app; right; apply list_elem_of_singleton; reflexivity |].
    split; [apply elem_of_app; right; apply list_elem_of_singleton; reflexivity |].
    apply lookup_insert_eq.
Qed.

End Registry.

(** ** Enemy behaviour by distance *)

Lemma modeAt_thresholds (dist : Q) :
  (dist < 700 -> modeAt dist = Attack) /\
  (700 <= dist -> dist < 1100 -> modeAt dist = Chase) /\
  (1100 <= dist -> modeAt dist = Patrol).
Proof.
  unfold modeAt. split; [| split].
  - intros H. apply Qlt_bool_iff in H. now rewrite H.
  - intros H1 H2. apply Qlt_bool_false_iff in H1. apply Qlt_bool_iff in H2.
    now rewrite H1, H2.
  - intros H. assert (H' : 700 <= dist) by (eapply Qle_trans; [| exact H]; discriminate).
    apply Qlt_bool_false_iff in H, H'. now rewrite H, H'.
Qed.

Example modeAt_500_900_1500 :
  modeAt 500 = Attack /\ modeAt 900 = Chase /\ modeAt 1500 = Patrol.
Proof. repeat split. Qed.

(** ** Spread, hit chance and damage rolls *)

Lemma clamp_bounds (value min max : Q) :
  min <= max -> min <= clamp value min max /\ clamp value min max <= max.
Proof.
  intros H. unfold clamp. split.
  - apply Q.le_max_l.
  - apply Q.max_lub; [assumption | apply Q.le_min_l].
Qed.

Lemma hitChanceAt_bounds (dist : Q) :
  fl (5 # 100) <= hitChanceAt dist /\ hitChanceAt dist <= fl (35 # 100).
Proof.
  unfold hitChanceAt. apply clamp_bounds. vm_compute. discriminate.
Qed.

(** The doubles 0.05 and 0.35 lie within the rationals 5/100 and 35/100. *)
Lemma hitChance_literals : (5 # 100) <= fl (5 # 100) /\ fl (35 # 100) <= (35 # 100).
Proof.
  split; vm_compute; discriminate.
Qed.

(** [randInt(6, 14)] evaluated in doubles: [Math.floor] of
    [r * (14 - 6) + 6], each operation rounded. *)
Lemma randInt_6_14_doubles (r : Q) :
  0 <= r -> r < 1 -> (6 <= randInt_double r 6 14 <= 14)%Z.
Proof.
  intros H0 H1. unfold randInt_double, randFloat_double.
  assert (H8 : fl (14 - 6) == 8) by (vm_compute; reflexivity).
  assert (Hlo : 0 <= fl (r * fl (14 - 6))).
  { apply (fl_ge 0); [vm_compute; reflexivity |]. rewrite H8.
    apply Qmult_le_0_compat; [assumption | discriminate]. }
  assert (Hhi : fl (r * fl (14 - 6)) <= 8).
  { assert (Hf8 : fl 8 == 8) by (vm_compute; reflexivity).
    apply Qle_trans with (fl 8); [| rewrite Hf8; apply Qle_refl].
    apply fl_mono. rewrite H8. lra. }
  assert (H6 : 6 <= fl (fl (r * fl (14 - 6)) + 6)).
  { apply (fl_ge 6); [vm_compute; reflexivity | lra]. }
  assert (H14 : fl (fl (r * fl (14 - 6)) + 6) <= 14).
  { assert (Hf14 : fl 14 == 14) by (vm_compute; reflexivity).
    apply Qle_trans with (fl 14); [| rewrite Hf14; apply Qle_refl].
    apply fl_mono. lra. }
  split.
  - rewrite <- (Qfloor_Z 6). now apply Qfloor_resp_le.
  - rewrite <- (Qfloor_Z 14). now apply Qfloor_resp_le.
Qed.

Lemma randInt_6_14_range (r : Q) :
  0 <= r -> r < 1 -> (6 <= randInt_of r 6 14 <= 13)%Z.
Proof.
  intros H0 H1. unfold randInt_of, randFloat_of. split.
  - rewrite <- (Qfloor_Z 6). apply Qfloor_resp_le.
    setoid_replace (r * (14 - 6) + 6) with (r * 8 + 6) using relation Qeq by ring.
    rewrite <- (Qplus_0_l (inject_Z 6)) at 1.
    apply Qplus_le_l. apply Qmult_le_0_compat; [assumption | discriminate].
  - apply Z.lt_succ_r. change (Z.succ 13) with 14%Z. rewrite Zlt_Qlt.
    eapply Qle_lt_trans; [apply Qfloor_le |].
    setoid_replace (r * (14 - 6) + 6) with (r * 8 + 6) using relation Qeq by ring.
    setoid_replace (inject_Z 14) with (1 * 8 + 6) using relation Qeq by reflexivity.
    apply Qplus_lt_l. apply Qmult_lt_compat_r; [reflexivity | assumption].
Qed.

Section Shots.

Variable E : Env.

(** C5, as the code has it. The pellet's direction is the aim direction
    plus three offsets, one per [Math.random()] call: [(r1 - 0.5) * spread]
    on x, [(r2 - 0.5) * spread] on y (the vertical axis, at full spread)
    and [(r3 - 0.5) * spread * 0.2] on z; the ray queried has that vector,
    normalised, as its direction. *)
Theorem pellet_direction_spread (w : World) (d : WeaponDef.t) (dmg : Z) :
  let aim := Camera.aim (camera w) in
  let spread := WeaponDef.spread d in
  let r1 := Math_random E (rndIdx w) in
  let r2 := Math_random E (S (rndIdx w)) in
  let r3 := Math_random E (S (S (rndIdx w))) in
  let v := spreadDirection aim spread r1 r2 r3 in
  wf w ->
  vx v - vx aim == (r1 - (1 # 2)) * spread /\
  vy v - vy aim == (r2 - (1 # 2)) * spread /\
  vz v - vz aim == (r3 - (1 # 2)) * spread * (2 # 10) /\
  exists w' seg,
    performRaycastShot E d dmg w = Some (tt, w') /\
    log w' = seg ++ log w /\
    PelletTrace (mkRay (Camera.position (camera w)) (Vector3_normalize E v)
                   (WeaponDef.range d)) seg.
Proof.
  intros aim spread r1 r2 r3 v Hwf.
  split; [cbn; ring |]. split; [cbn; ring |]. split; [cbn; ring |].
  destruct (performRaycastShot_spec E w d dmg Hwf)
    as (w' & seg & Hrun & _ & _ & _ & Hlog & Hseg & _).
  exists w', seg. auto.
Qed.

(** C7. The chance is [clamp(0.6 - dist / 2000, 0.05, 0.35)] as doubles
    compute it: within [0.05, 0.35] at every distance and equal to the
    double 0.05 at distance 1800. The shot calls [applyDamageToPlayer]
    exactly when the roll is below the chance, and then with
    [randInt(6, 14)] as doubles compute it, an integer from 6 to 14; 14 is
    taken at the largest double below 1, where [r * 8 + 6] rounds to 14,
    although in exact arithmetic the integer would stay below 14. A miss
    leaves the player as it was and shows an impact, which a 250 ms timer
    takes away. *)
Theorem attemptEnemyShot_chance_and_damage
    (w : World) (enemy : nat) (e : Enemy.t) (playerPos : Vec3) :
  let dist := Vector3_length E (vsub (Enemy.position e) playerPos) in
  let roll := Math_random E (rndIdx w) in
  let r := Math_random E (S (rndIdx w)) in
  store w !! enemy = Some e ->
  hitChanceAt dist = clamp (fl (fl (6 # 10) - fl (dist / 2000))) (fl (5 # 100)) (fl (35 # 100)) /\
  (fl (5 # 100) <= hitChanceAt dist /\ hitChanceAt dist <= fl (35 # 100)) /\
  ((5 # 100) <= hitChanceAt dist /\ hitChanceAt dist <= (35 # 100)) /\
  hitChanceAt 1800 = fl (5 # 100) /\
  (roll < hitChanceAt dist ->
   attemptEnemyShot E enemy playerPos w =
   applyDamageToPlayer E (randInt_double r 6 14) (set_rndIdx (S (S (rndIdx w))) w)) /\
  (~ roll < hitChanceAt dist ->
   exists w' p,
     attemptEnemyShot E enemy playerPos w = Some (tt, w') /\
     player w' = player w /\ nowIdx w' = nowIdx w /\
     log w' = Impact p (Some (mkVec3 0 1 0)) :: log w /\
     timers w' = timers w ++ [mkTimer RemoveImpact 250]) /\
  (0 <= r -> r < 1 ->
   (6 <= randInt_double r 6 14 <= 14)%Z /\
   (6 <= randInt_of r 6 14 <= 13)%Z) /\
  randInt_double (1 - (1 # 2 ^ 53)) 6 14 = 14%Z.
Proof.
  intros dist roll r He.
  pose proof (hitChanceAt_bounds dist) as [Hlo Hhi].
  pose proof hitChance_literals as [H5 H35].
  split; [reflexivity |]. split; [auto |].
  split; [split; [exact (Qle_trans _ _ _ H5 Hlo) | exact (Qle_trans _ _ _ Hhi H35)] |].
  split; [vm_compute; reflexivity |].
  split; [| split].
  - intros Hhit. apply Qlt_bool_iff in Hhit.
    unfold attemptEnemyShot. sim_unfold. rewrite He. fold dist roll.
    rewrite Hhit. world_simpl. reflexivity.
  - intros Hmiss. rewrite <- Qlt_bool_iff in Hmiss. apply not_true_is_false in Hmiss.
    unfold attemptEnemyShot. sim_unfold. rewrite He. fold dist roll.
    rewrite Hmiss. world_simpl. eexists. eexists. split; [reflexivity |].
    world_simpl. repeat split.
  - split.
    + intros H0 H1. split; [now apply randInt_6_14_doubles | now apply randInt_6_14_range].
    + vm_compute. reflexivity.
Qed.

(** The vertical velocity [updateMovement] integrates with, for a player
    in the air: the acceleration step has already scaled it. *)
Lemma beforeIntegration_airborne (delta : Q) (w : World) :
  Player.onGround (player w) = false ->
  vy (Player.velocity (beforeIntegration E delta w)) ==
  vy (Player.velocity (player w))
  - vy (Player.velocity (player w)) * clamp (600 * delta) 0 1
  - GRAVITY * delta.
Proof.
  intros Hair. unfold beforeIntegration, gravityAndJump, accelerate.
  cbn [set_velocity Player.onGround Player.velocity]. rewrite Hair.
  cbn [negb set_velocity Player.onGround Player.velocity andb vy addScaledVector vsub vscale].
  assert (Hy : vy (intentOf E (input w) (Camera.yaw (camera w))) = 0).
  { unfold intentOf. destruct (Qlt_bool 0 (lengthSq (keyDirOf (input w)))); reflexivity. }
  rewrite Hy, Hair.
  cbn [negb set_velocity Player.onGround Player.velocity andb vy]. ring.
Qed.

(** A jump request on the ground sets the vertical velocity to the jump
    speed and clears the grounded flag. *)
Lemma beforeIntegration_jump (delta : Q) (w : World) :
  Player.onGround (player w) = true ->
  Input.jump (input w) = true ->
  vy (Player.velocity (beforeIntegration E delta w)) = PLAYER_JUMP_VELOCITY /\
  Player.onGround (beforeIntegration E delta w) = false.
Proof.
  intros Hg Hj. unfold beforeIntegration, gravityAndJump, accelerate.
  cbn [set_velocity Player.onGround Player.velocity]. rewrite Hg, Hj.
  cbn [negb set_velocity Player.onGround]. rewrite Hg.
  split; reflexivity.
Qed.

End Shots.

(** C5, at a concrete pellet: aim (0, 0, -1), the shotgun's spread 0.035
    and three rolls of 0. The vertical offset is the full
    [(0 - 0.5) * 0.035], not a fifth of it, and the z component moves, which
    the specified direction leaves alone. *)
Lemma spread_vertical_at_full_scale :
  let code := spreadDirection (mkVec3 0 0 (-1)) (35 # 1000) 0 0 0 in
  let specified := spreadDirection_as_specified (mkVec3 0 0 (-1)) (35 # 1000) 0 0 in
  vy code == - (175 # 10000) /\
  vy specified == - (35 # 10000) /\
  ~ vy code == vy specified /\
  ~ vz code == vz specified.
Proof.
  cbv zeta. split; [reflexivity |]. split; [reflexivity |].
  split; intros H; discriminate H.
Qed.

(** C8, at a concrete tick: in the air at 100 units/s upward, no key held,
    a 50 ms tick. The vertical velocity that reaches the integration is
    -3.2, not 100 - 64 * 0.05 = 96.8: the acceleration step took the whole
    of it before gravity applied. *)
Lemma airborne_vertical_velocity_lost :
  Player.onGround (player airborne) = false /\
  vy (Player.velocity (player airborne)) == 100 /\
  vy (Player.velocity (beforeIntegration scenarioEnv (1 # 20) airborne)) == - (32 # 10) /\
  ~ vy (Player.velocity (beforeIntegration scenarioEnv (1 # 20) airborne))
    == vy (Player.velocity (player airborne)) - GRAVITY * (1 # 20).
Proof.
  split; [reflexivity |]. split; [reflexivity |]. split; [reflexivity |].
  intros H. discriminate H.
Qed.

(** ** The properties at work in the scenario *)

Lemma arena_wf : wf arena.
Proof.
  unfold arena.
  destruct (boot_wf scenarioEnv WEAPON_DEFS blank wf_blank) as (w' & Hrun & Hwf).
  now rewrite Hrun.
Qed.

Lemma wf_set_currentWeaponIndex (i : nat) (w : World) :
  wf w -> wf (set_currentWeaponIndex i w).
Proof.
  intros H. apply (wf_same w _ H); reflexivity.
Qed.

Lemma wf_set_worldColliders (c : list nat) (w : World) :
  wf w -> wf (set_worldColliders c w).
Proof.
  intros H. apply (wf_same w _ H); reflexivity.
Qed.

Lemma wf_set_weaponState (ws : list WeaponState.t) (w : World) :
  wf w -> wf (set_weaponState ws w).
Proof.
  intros H. apply (wf_same w _ H); reflexivity.
Qed.

Lemma arenaShotgun_wf : wf arenaShotgun.
Proof.
  exact (wf_set_currentWeaponIndex 3 arena arena_wf).
Qed.

Lemma arenaSpent_wf : wf arenaSpent.
Proof.
  exact (wf_set_weaponState _ arena arena_wf).
Qed.

(** The rifle fires at t = 1000 and stamps t = 1010; the attempt at
    t = 1030 is inside the 85.7 ms gate, and the magazine stays at 29. *)
Lemma canShoot_gate_double_fire_witness :
  exists w1 w2,
    shoot scenarioEnv WEAPON_DEFS arena = Some (tt, w1) /\
    ammoOf 2 w1 = Some 29%Z /\
    shoot scenarioEnv WEAPON_DEFS w1 = Some (tt, w2) /\
    ammoOf 2 w2 = Some 29%Z.
Proof.
  destruct (canShoot_gate_double_fire scenarioEnv WEAPON_DEFS arena assaultRifle rifleState)
    as (_ & _ & _ & Hfire & _).
  - vm_compute. reflexivity.
  - vm_compute. reflexivity.
  - vm_compute. discriminate.
  - destruct Hfire as (w1 & Hrun1 & Hammo1 & _ & Hidx & Hsecond).
    + exact arena_wf.
    + reflexivity.
    + reflexivity.
    + vm_compute. discriminate.
    + destruct Hsecond as (w2 & Hrun2 & Hammo2).
      * vm_compute. reflexivity.
      * exists w1, w2. auto.
Defined.

(** With 12 rounds in the rifle, [tryReload] starts a reload whose
    completion brings the magazine to 30 and the reserve to 162. *)
Lemma tryReload_noop_or_transfer_witness :
  exists w1 w2,
    tryReload WEAPON_DEFS arenaSpent = Some (tt, w1) /\
    weaponState w1 !! 2%nat = Some (set_reloading true (set_ammo 12 rifleState)) /\
    fireTimer scenarioEnv WEAPON_DEFS 0 w1 = Some (tt, w2) /\
    weaponState w2 !! 2%nat = Some (WeaponState.mk 30 162 0 false 3).
Proof.
  destruct (tryReload_noop_or_transfer scenarioEnv WEAPON_DEFS arenaSpent assaultRifle
              (set_ammo 12 rifleState))
    as (_ & Hstart).
  - vm_compute. reflexivity.
  - vm_compute. reflexivity.
  - destruct Hstart as (w1 & Hrun1 & Hst1 & _ & _ & w2 & Hrun2 & Hst2 & _).
    + reflexivity.
    + reflexivity.
    + reflexivity.
    + exists w1, w2. auto.
Defined.

(** The hit for 14 on a player at 10 health, outside the window, leaves the
    health at 0, and no further sequence of hits and respawns leaves it
    negative. *)
Lemma applyDamageToPlayer_window_and_floor_witness :
  exists w1 w2,
    applyDamageToPlayer respawnEnv 14 wounded = Some (tt, w1) /\
    Player.health (player w1) = 0%Z /\
    runAll (map (playerOp respawnEnv) [Damage 14; Respawn; Damage 3]) wounded = Some (tt, w2) /\
    (0 <= Player.health (player w2))%Z.
Proof.
  destruct (applyDamageToPlayer_window_and_floor respawnEnv wounded 14)
    as (_ & Haccepted & _ & Hnever).
  destruct Haccepted as (w1 & Hrun1 & _ & Hh1).
  - vm_compute. discriminate.
  - destruct (Hnever ltac:(vm_compute; discriminate) [Damage 14; Respawn; Damage 3])
      as (w2 & Hrun2 & Hh2).
    exists w1, w2. auto.
Defined.

(** A hit for 100 on the first enemy of the arena removes it from the
    registry and queues its replacement. *)
Lemma applyDamageToEnemy_kill_removes_witness :
  exists w',
    applyDamageToEnemy 1 100 arena = Some (tt, w') /\
    (1%nat ∉ EnemyManager.enemies (enemyManager w')) /\
    (0%nat ∉ EnemyManager.hitMeshes (enemyManager w')) /\
    timers w' = [mkTimer CreateEnemy 2000].
Proof.
  destruct (applyDamageToEnemy_kill_removes scenarioEnv WEAPON_DEFS arena 1 firstEnemy 100)
    as (w' & Hrun & Hgone & Hmesh & _ & _ & _ & _ & Htimers & _).
  - exact arena_wf.
  - vm_compute. reflexivity.
  - vm_compute. discriminate.
  - exists w'. auto.
Defined.

(** One pellet of the shotgun in the arena. *)
Lemma pellet_direction_spread_witness :
  exists w' seg,
    performRaycastShot scenarioEnv shotgun 12 arena = Some (tt, w') /\
    log w' = seg ++ log arena /\
    PelletTrace (pelletRay scenarioEnv shotgun arena) seg.
Proof.
  destruct (pellet_direction_spread scenarioEnv arena shotgun 12 arena_wf)
    as (_ & _ & _ & w' & seg & H).
  exists w', seg. exact H.
Defined.

(** The shotgun of the catalog on the range: one round, eight pellets, of
    which four strike the first enemy (100 - 4 * 12 = 52) and four go on to
    the world pool: twelve queries in all. *)
Lemma shotgun_one_round_p_queries_witness :
  exists w1 segs,
    shoot rangeEnv WEAPON_DEFS range = Some (tt, w1) /\
    ammoOf 3 w1 = Some 7%Z /\
    length segs = 8%nat /\
    countEvents isEnemyQuery (MuzzleFlash :: HudRefresh :: concat segs) = 8%nat /\
    (exists wb,
       pelletsResolved rangeEnv shotgun 12 8
         (set_weaponState (alter (set_lastShotTime 1010) 3%nat (weaponState range))
            (set_nowIdx 2 range)) wb /\
       queryIdx wb = 12%nat) /\
    Enemy.health <$> store w1 !! 1%nat = Some 52%Z.
Proof.
  destruct (shotgun_one_round_p_queries rangeEnv WEAPON_DEFS range shotgun
              shotgunState 8)
    as (w1 & segs & Hrun & Hammo & _ & Hlen & _ & Hq & _ & wb & Hchain & _ & Hw1).
  - exact (wf_set_worldColliders _ arenaShotgun arenaShotgun_wf).
  - vm_compute. reflexivity.
  - vm_compute. reflexivity.
  - reflexivity.
  - reflexivity.
  - lia.
  - vm_compute. reflexivity.
  - assert (Hc : (fun o => match o with
                           | Some (_, w0) =>
                               Some (queryIdx w0, Enemy.health <$> store w0 !! 1%nat)
                           | None => None
                           end) (shoot rangeEnv WEAPON_DEFS range) = Some (12%nat, Some 52%Z))
      by (vm_compute; reflexivity).
    cbv beta in Hc. rewrite Hrun in Hc. injection Hc as Hqi Hh.
    exists w1, segs. split; [assumption |]. split; [assumption |].
    split; [assumption |]. split; [assumption |]. split; [| assumption].
    exists wb. split.
    + exact Hchain.
    + rewrite Hw1 in Hqi. exact Hqi.
Defined.

(** The first enemy of the yard shoots from 12 units away, where the
    chance is the cap, and rolls 1/4: a hit, for [randInt(6, 14)] at a roll
    of 1/4, which is 8. *)
Lemma attemptEnemyShot_chance_and_damage_witness :
  attemptEnemyShot (yardEnv 1000) 1 (Camera.position (camera yard)) yard =
    applyDamageToPlayer (yardEnv 1000) 8 (set_rndIdx 62 yard) /\
  (6 <= randInt_double (1 # 4) 6 14 <= 14)%Z.
Proof.
  destruct (attemptEnemyShot_chance_and_damage (yardEnv 1000) yard 1 firstEnemy
              (Camera.position (camera yard)))
    as (_ & _ & _ & _ & Hhit & _ & Hrange & _).
  - vm_compute. reflexivity.
  - split.
    + rewrite Hhit; [vm_compute; reflexivity | vm_compute; reflexivity].
    + apply Hrange; [vm_compute; discriminate | vm_compute; reflexivity].
Defined.

(** * Further properties of the program *)

(** ** Weapons: reloads in progress, ammunition bounds, switching *)

Section WeaponsMore.

Variable E : Env.
Variable defs : list WeaponDef.t.

(** While the equipped weapon reloads, pulling the trigger and asking for
    another reload both leave the whole world as it is. *)
Lemma reloading_blocks_fire_and_reload (w : World) (s : WeaponState.t) :
  weaponState w !! currentWeaponIndex w = Some s ->
  WeaponState.reloading s = true ->
  shoot E defs w = Some (tt, w) /\ tryReload defs w = Some (tt, w).
Proof.
  intros Hs Hr. split.
  - apply shoot_rejected. exact (canShoot_reloading E defs w s Hs Hr).
  - unfold tryReload. sim_unfold. now rewrite Hs, Hr.
Qed.

(** X1. A reload that has started cannot be started again and blocks the
    trigger: a second [tryReload] and a [shoot] right after the first
    [tryReload] leave the whole world as it is (no round spent, no time
    stamp, no hit query), so exactly one completion is pending. *)
Theorem tryReload_twice_queues_once (w : World) (d : WeaponDef.t) (s : WeaponState.t) :
  defs !! currentWeaponIndex w = Some d ->
  weaponState w !! currentWeaponIndex w = Some s ->
  WeaponState.reloading s = false ->
  (WeaponState.ammo s < WeaponDef.mag d)%Z ->
  (0 < WeaponState.reserve s)%Z ->
  exists w1,
    tryReload defs w = Some (tt, w1) /\
    tryReload defs w1 = Some (tt, w1) /\
    shoot E defs w1 = Some (tt, w1) /\
    timers w1 = timers w ++ [mkTimer (ReloadDone (currentWeaponIndex w))
                                     (WeaponDef.reload d * 1000)].
Proof.
  intros Hd Hs Hr Ha Hres. eexists.
  split; [exact (tryReload_starts defs w d s Hd Hs Hr Ha Hres) |].
  match goal with |- tryReload defs ?w1 = _ /\ _ => set (w' := w1) end.
  assert (Hs1 : weaponState w' !! currentWeaponIndex w' = Some (set_reloading true s)).
  { subst w'. world_simpl. now rewrite list_lookup_alter_eq, Hs. }
  destruct (reloading_blocks_fire_and_reload w' _ Hs1 eq_refl) as [Hshoot Htry].
  split; [exact Htry |]. split; [exact Hshoot | reflexivity].
Qed.

End WeaponsMore.

Section WeaponsBounds.

Variable E : Env.
Variable defs : list WeaponDef.t.

(** Whatever the state of the equipped weapon, [shoot] returns, and the
    weapon's magazine afterwards holds what it held or one round less; the
    reserve is as before and so is every other weapon. *)
Lemma shoot_ammo_step (w : World) (d : WeaponDef.t) (s : WeaponState.t) :
  wf w ->
  defs !! currentWeaponIndex w = Some d ->
  weaponState w !! currentWeaponIndex w = Some s ->
  exists w' s',
    shoot E defs w = Some (tt, w') /\
    wf w' /\
    currentWeaponIndex w' = currentWeaponIndex w /\
    weaponState w' !! currentWeaponIndex w = Some s' /\
    (forall j, j <> currentWeaponIndex w -> weaponState w' !! j = weaponState w !! j) /\
    WeaponState.reserve s' = WeaponState.reserve s /\
    (WeaponState.ammo s' = WeaponState.ammo s \/
     ((0 < WeaponState.ammo s)%Z /\ WeaponState.ammo s' = (WeaponState.ammo s - 1)%Z)).
Proof.
  intros Hwf Hd Hs.
  destruct (WeaponState.reloading s) eqn:Hr.
  { exists w, s. split; [apply shoot_rejected; exact (canShoot_reloading E defs w s Hs Hr) |].
    auto 10. }
  destruct (Z.le_gt_cases (WeaponState.ammo s) 0) as [Hempty | Hleft].
  - destruct (canShoot_empty E defs w d s Hd Hs Hr Hempty) as (w' & Htry & Hcan).
    destruct (Z.le_gt_cases (WeaponDef.mag d) (WeaponState.ammo s)) as [Hfull | Hroom];
      [| destruct (Z.le_gt_cases (WeaponState.reserve s) 0) as [Hnone | Hsome]].
    + rewrite (tryReload_noop defs w d s Hd Hs) in Htry by auto.
      injection Htry as Heq. rewrite <- Heq in *.
      exists w, s. split; [now apply shoot_rejected |]. auto 10.
    + rewrite (tryReload_noop defs w d s Hd Hs) in Htry by auto.
      injection Htry as Heq. rewrite <- Heq in *.
      exists w, s. split; [now apply shoot_rejected |]. auto 10.
    + rewrite (tryReload_starts defs w d s Hd Hs Hr Hroom Hsome) in Htry.
      injection Htry as Heq.
      exists w', (set_reloading true s). split; [now apply shoot_rejected |].
      rewrite <- Heq. world_simpl.
      split; [apply (wf_same w _ Hwf); reflexivity |]. split; [reflexivity |].
      split; [now rewrite list_lookup_alter_eq, Hs |].
      split; [intros j Hj; now rewrite list_lookup_alter_ne by auto |].
      split; [reflexivity | now left].
  - destruct (gateOpen d (WeaponState.lastShotTime s) (performance_now E (nowIdx w)))
      eqn:Hgate.
    + destruct (shoot_fires E defs w d s Hwf Hd Hs) as
        (w1 & segs & Hrun & Hwf1 & Hi & _ & Hw1 & Hother & _).
      { rewrite (canShoot_gate E defs w d s Hd Hs Hr Hleft). now rewrite Hgate. }
      exists w1, (set_ammo (WeaponState.ammo s - 1)
                    (set_lastShotTime (performance_now E (S (nowIdx w))) s)).
      split; [assumption |]. split; [assumption |]. split; [assumption |].
      split; [assumption |]. split; [assumption |].
      split; [reflexivity |]. right. split; [assumption | reflexivity].
    + exists (set_nowIdx (S (nowIdx w)) w), s.
      split.
      { apply shoot_rejected. rewrite (canShoot_gate E defs w d s Hd Hs Hr Hleft).
        now rewrite Hgate. }
      world_simpl. split; [apply (wf_same w _ Hwf); reflexivity |]. auto 10.
Qed.

(** X2. [shoot] never overdraws the magazine: from a magazine within
    [0, mag] it returns with the magazine still within [0, mag], equal to
    what it was or one less, and the reserve untouched. *)
Theorem shoot_keeps_ammo_in_range (w : World) (d : WeaponDef.t) (s : WeaponState.t) :
  wf w ->
  defs !! currentWeaponIndex w = Some d ->
  weaponState w !! currentWeaponIndex w = Some s ->
  ammoInRange d s ->
  exists w' s',
    shoot E defs w = Some (tt, w') /\
    weaponState w' !! currentWeaponIndex w = Some s' /\
    ammoInRange d s' /\
    (WeaponState.ammo s - 1 <= WeaponState.ammo s' <= WeaponState.ammo s)%Z /\
    WeaponState.reserve s' = WeaponState.reserve s.
Proof.
  intros Hwf Hd Hs [Ha Hres].
  destruct (shoot_ammo_step w d s Hwf Hd Hs)
    as (w' & s' & Hrun & _ & _ & Hs' & _ & Hr' & Hstep).
  exists w', s'. split; [assumption |]. split; [assumption |].
  unfold ammoInRange. rewrite Hr'.
  destruct Hstep as [-> | [Hpos ->]]; repeat split; lia.
Qed.

(** X3. The completion of a reload conserves rounds: what leaves the
    reserve enters the magazine. From a magazine within [0, mag] and a
    non-negative reserve, the magazine does not shrink and ends within
    [0, mag], the reserve does not grow and stays non-negative, and either
    the magazine is full or the reserve is empty afterwards. *)
Theorem reloadDone_conserves_rounds
    (i : nat) (w : World) (d : WeaponDef.t) (s : WeaponState.t) :
  defs !! i = Some d ->
  weaponState w !! i = Some s ->
  ammoInRange d s ->
  exists w' s',
    reloadDone defs i w = Some (tt, w') /\
    weaponState w' !! i = Some s' /\
    (WeaponState.ammo s' + WeaponState.reserve s' =
     WeaponState.ammo s + WeaponState.reserve s)%Z /\
    ammoInRange d s' /\
    (WeaponState.ammo s <= WeaponState.ammo s')%Z /\
    (WeaponState.reserve s' <= WeaponState.reserve s)%Z /\
    (WeaponState.ammo s' = WeaponDef.mag d \/ WeaponState.reserve s' = 0%Z) /\
    WeaponState.reloading s' = false.
Proof.
  intros Hd Hs [Ha Hres].
  destruct (reloadDone_transfers defs i w d s Hd Hs) as (w' & Hrun & Hs' & _).
  eexists w', _. split; [exact Hrun |]. split; [exact Hs' |].
  unfold ammoInRange. weapon_simpl. repeat split; lia.
Qed.

End WeaponsBounds.

Section Switching.

Variable E : Env.
Variable defs : list WeaponDef.t.

(** The index [switchWeapon(nextIndex)] settles on, for a catalog of [n]
    weapons. *)
Let wrapped (n nextIndex : Z) : Z :=
  let z := if (nextIndex <? 0)%Z then (n - 1)%Z else nextIndex in
  if (n <=? z)%Z then 0%Z else z.

Lemma switchWeapon_index (z : Z) (w : World) :
  (0 < length defs)%nat ->
  exists w',
    switchWeapon defs z w = Some (tt, w') /\
    Z.of_nat (currentWeaponIndex w') = wrapped (Z.of_nat (length defs)) z /\
    (w' = w \/ w' = set_log (HudRefresh :: log w)
                      (set_currentWeaponIndex (currentWeaponIndex w') w)).
Proof.
  intros Hlen. unfold switchWeapon, wrapped. sim_unfold.
  set (n := Z.of_nat (length defs)).
  set (z1 := if (z <? 0)%Z then (n - 1)%Z else z).
  set (z2 := if (n <=? z1)%Z then 0%Z else z1).
  assert (Hz2 : (0 <= z2)%Z).
  { subst z2 z1 n. destruct (Z.ltb_spec z 0);
      match goal with |- context [(?a <=? ?b)%Z] => destruct (Z.leb_spec a b) end; lia. }
  destruct (Z.eqb_spec (Z.of_nat (currentWeaponIndex w)) z2) as [Heq | Hne].
  - exists w. auto.
  - eexists. split; [reflexivity |]. world_simpl. split; [now rewrite Z2Nat.id | now right].
Qed.

Lemma switchWeapon_frame (z : Z) (w : World) :
  (0 < length defs)%nat ->
  exists w',
    switchWeapon defs z w = Some (tt, w') /\
    weaponState w' = weaponState w /\
    timers w' = timers w.
Proof.
  intros Hlen. destruct (switchWeapon_index z w Hlen) as (w' & Hrun & _ & Hw').
  exists w'. split; [assumption |]. destruct Hw' as [-> | ->]; split; reflexivity.
Qed.

(** X4. With a non-empty catalog, [switchWeapon] accepts any integer and
    always leaves a valid index: the index asked for when it is in range,
    the last weapon when it is negative, the first when it is past the end.
    It touches no weapon's state, no pending timer and nothing of the
    player or the enemies. *)
Theorem switchWeapon_wraps_in_range (z : Z) (w : World) :
  (0 < length defs)%nat ->
  exists w',
    switchWeapon defs z w = Some (tt, w') /\
    (currentWeaponIndex w' < length defs)%nat /\
    ((0 <= z < Z.of_nat (length defs))%Z -> currentWeaponIndex w' = Z.to_nat z) /\
    ((z < 0)%Z -> currentWeaponIndex w' = (length defs - 1)%nat) /\
    ((Z.of_nat (length defs) <= z)%Z -> currentWeaponIndex w' = 0%nat) /\
    weaponState w' = weaponState w /\
    timers w' = timers w /\
    player w' = player w /\
    enemyManager w' = enemyManager w /\
    store w' = store w.
Proof.
  intros Hlen. destruct (switchWeapon_index z w Hlen) as (w' & Hrun & Hidx & Hw').
  exists w'. split; [assumption |].
  assert (Hframe : weaponState w' = weaponState w /\ timers w' = timers w /\
                   player w' = player w /\ enemyManager w' = enemyManager w /\
                   store w' = store w).
  { destruct Hw' as [-> | ->]; repeat split. }
  unfold wrapped in Hidx.
  destruct (Z.ltb_spec z 0) as [Hneg | Hpos];
    match type of Hidx with context [(?a <=? ?b)%Z] => destruct (Z.leb_spec a b) end;
    (split; [lia |]); (split; [lia |]); (split; [lia |]); (split; [lia |]); exact Hframe.
Qed.

(** The timer queued last expires, in any world. *)
Lemma fireTimer_at_end (w : World) (ts : list Timer) (t : Timer) :
  timers w = ts ++ [t] ->
  fireTimer E defs (length ts) w = runCallback E defs (callback t) (set_timers ts w).
Proof.
  intros Ht. unfold fireTimer. sim_unfold. rewrite Ht.
  rewrite (list_lookup_middle ts [] t (length ts) eq_refl).
  rewrite take_app_length, drop_ge, app_nil_r; [reflexivity |].
  rewrite length_app. cbn. lia.
Qed.

(** X5. Switching weapons does not cancel a reload: after [tryReload] on
    weapon [i], a [switchWeapon] to any index and then the expiry of the
    reload timer, weapon [i] has received [min (mag - ammo) reserve] rounds
    and is no longer reloading, while the weapon switched to stays
    equipped. *)
Theorem reload_completes_after_switch
    (w : World) (d : WeaponDef.t) (s : WeaponState.t) (z : Z) :
  let i := currentWeaponIndex w in
  let take := Z.min (WeaponDef.mag d - WeaponState.ammo s) (WeaponState.reserve s) in
  defs !! i = Some d ->
  weaponState w !! i = Some s ->
  WeaponState.reloading s = false ->
  (WeaponState.ammo s < WeaponDef.mag d)%Z ->
  (0 < WeaponState.reserve s)%Z ->
  exists w1 w2 w3,
    tryReload defs w = Some (tt, w1) /\
    switchWeapon defs z w1 = Some (tt, w2) /\
    fireTimer E defs (length (timers w)) w2 = Some (tt, w3) /\
    currentWeaponIndex w3 = currentWeaponIndex w2 /\
    weaponState w3 !! i =
      Some (WeaponState.mk (WeaponState.ammo s + take) (WeaponState.reserve s - take)
              (WeaponState.lastShotTime s) false (WeaponState.skinIndex s)) /\
    timers w3 = timers w.
Proof.
  intros i take Hd Hs Hr Ha Hres.
  assert (Hlen : (0 < length defs)%nat).
  { apply lookup_lt_Some in Hd. lia. }
  eexists. 
  destruct (switchWeapon_frame z
              (set_timers (timers w ++ [mkTimer (ReloadDone i) (WeaponDef.reload d * 1000)])
                 (set_statusText "Reloading..."
                    (set_weaponState (alter (set_reloading true) i (weaponState w)) w))) Hlen)
    as (w2 & Hsw & Hws & Hts).
  exists w2.
  assert (Hs2 : weaponState w2 !! i = Some (set_reloading true s)).
  { rewrite Hws. world_simpl. now rewrite list_lookup_alter_eq, Hs. }
  assert (Hs2' : weaponState (set_timers (timers w) w2) !! i = Some (set_reloading true s))
    by exact Hs2.
  destruct (reloadDone_transfers defs i (set_timers (timers w) w2) d _ Hd Hs2')
    as (w3 & Hdone & Hs3 & _ & Ht3).
  exists w3.
  split; [exact (tryReload_starts defs w d s Hd Hs Hr Ha Hres) |].
  split; [exact Hsw |]. split.
  { rewrite (fireTimer_at_end w2 (timers w) (mkTimer (ReloadDone i) (WeaponDef.reload d * 1000)))
      by (rewrite Hts; reflexivity).
    exact Hdone. }
  split; [| split; [exact Hs3 | exact Ht3]].
  revert Hdone. unfold reloadDone. sim_unfold. rewrite Hd. world_simpl.
  rewrite Hs2. intros [= <-]. reflexivity.
Qed.

End Switching.

Section Wheel.

Variable defs : list WeaponDef.t.

Lemma onWheel_down (deltaY : Q) (w : World) :
  0 < deltaY ->
  onWheel defs deltaY w = switchWeapon defs (Z.of_nat (currentWeaponIndex w) + 1) w.
Proof.
  intros H. apply Qlt_bool_iff in H. unfold onWheel, Math_sign. sim_unfold.
  now rewrite H.
Qed.

Lemma onWheel_up (deltaY : Q) (w : World) :
  deltaY < 0 ->
  onWheel defs deltaY w = switchWeapon defs (Z.of_nat (currentWeaponIndex w) - 1) w.
Proof.
  intros H.
  assert (H0 : Qlt_bool 0 deltaY = false)
    by (apply Qlt_bool_false_iff; now apply Qlt_le_weak).
  apply Qlt_bool_iff in H. unfold onWheel, Math_sign. sim_unfold.
  now rewrite H0, H.
Qed.

(** The index one notch of the wheel leads to. *)
Lemma switchWeapon_step (z : Z) (w : World) :
  (0 < length defs)%nat ->
  exists w',
    switchWeapon defs z w = Some (tt, w') /\
    Z.of_nat (currentWeaponIndex w') =
      (let n := Z.of_nat (length defs) in
       let z1 := if (z <? 0)%Z then (n - 1)%Z else z in
       if (n <=? z1)%Z then 0%Z else z1) /\
    weaponState w' = weaponState w /\
    timers w' = timers w.
Proof.
  intros Hlen. destruct (switchWeapon_index defs z w Hlen) as (w' & Hrun & Hidx & Hw').
  exists w'. split; [assumption |]. split; [exact Hidx |].
  destruct Hw' as [-> | ->]; split; reflexivity.
Qed.

(** X6. The mouse wheel cycles through the catalog and is reversible: from
    a valid index, one notch down followed by one notch up, or one up
    followed by one down, brings back the weapon that was equipped, and no
    weapon's state or pending timer changes on the way. *)
Theorem onWheel_round_trip (w : World) (down up : Q) :
  (currentWeaponIndex w < length defs)%nat ->
  0 < down ->
  up < 0 ->
  (exists w1 w2,
     onWheel defs down w = Some (tt, w1) /\
     onWheel defs up w1 = Some (tt, w2) /\
     currentWeaponIndex w2 = currentWeaponIndex w /\
     weaponState w2 = weaponState w /\ timers w2 = timers w) /\
  (exists w1 w2,
     onWheel defs up w = Some (tt, w1) /\
     onWheel defs down w1 = Some (tt, w2) /\
     currentWeaponIndex w2 = currentWeaponIndex w /\
     weaponState w2 = weaponState w /\ timers w2 = timers w).
Proof.
  intros Hcur Hdown Hup.
  assert (Hlen : (0 < length defs)%nat) by lia.
  split.
  - destruct (switchWeapon_step (Z.of_nat (currentWeaponIndex w) + 1) w Hlen)
      as (w1 & Hrun1 & Hi1 & Hws1 & Ht1).
    destruct (switchWeapon_step (Z.of_nat (currentWeaponIndex w1) - 1) w1 Hlen)
      as (w2 & Hrun2 & Hi2 & Hws2 & Ht2).
    exists w1, w2.
    split; [now rewrite onWheel_down |]. split; [now rewrite onWheel_up |].
    split; [| split; congruence].
    cbv zeta in Hi1, Hi2.
    repeat match type of Hi1 with
           | context [(?a <? ?b)%Z] => destruct (Z.ltb_spec a b)
           | context [(?a <=? ?b)%Z] => destruct (Z.leb_spec a b)
           end;
    repeat match type of Hi2 with
           | context [(?a <? ?b)%Z] => destruct (Z.ltb_spec a b)
           | context [(?a <=? ?b)%Z] => destruct (Z.leb_spec a b)
           end; lia.
  - destruct (switchWeapon_step (Z.of_nat (currentWeaponIndex w) - 1) w Hlen)
      as (w1 & Hrun1 & Hi1 & Hws1 & Ht1).
    destruct (switchWeapon_step (Z.of_nat (currentWeaponIndex w1) + 1) w1 Hlen)
      as (w2 & Hrun2 & Hi2 & Hws2 & Ht2).
    exists w1, w2.
    split; [now rewrite onWheel_up |]. split; [now rewrite onWheel_down |].
    split; [| split; congruence].
    cbv zeta in Hi1, Hi2.
    repeat match type of Hi1 with
           | context [(?a <? ?b)%Z] => destruct (Z.ltb_spec a b)
           | context [(?a <=? ?b)%Z] => destruct (Z.leb_spec a b)
           end;
    repeat match type of Hi2 with
           | context [(?a <? ?b)%Z] => destruct (Z.ltb_spec a b)
           | context [(?a <=? ?b)%Z] => destruct (Z.leb_spec a b)
           end; lia.
Qed.

End Wheel.

Section Trigger.

Variable E : Env.
Variable defs : list WeaponDef.t.

(** X7. How many pellets a shot resolves is decided by the weapon's key
    alone: a weapon whose key is not "shotgun" queries the enemy pool
    exactly once per shot, whatever its [pellets]; one whose key is
    "shotgun" and whose [pellets] is missing or 0 queries it 8 times. *)
Theorem shoot_pellets_by_key (w : World) (d : WeaponDef.t) (s : WeaponState.t) :
  wf w ->
  defs !! currentWeaponIndex w = Some d ->
  weaponState w !! currentWeaponIndex w = Some s ->
  canShoot E defs w = Some (true, set_nowIdx (S (nowIdx w)) w) ->
  exists w1 k,
    shoot E defs w = Some (tt, w1) /\
    countEvents isEnemyQuery (log w1) = (k + countEvents isEnemyQuery (log w))%nat /\
    (WeaponDef.key d <> "shotgun"%string -> k = 1%nat) /\
    (WeaponDef.key d = "shotgun"%string ->
     WeaponDef.pellets d = None \/ WeaponDef.pellets d = Some 0%nat -> k = 8%nat).
Proof.
  intros Hwf Hd Hs Hcan.
  destruct (shoot_fires E defs w d s Hwf Hd Hs Hcan)
    as (w1 & segs & Hrun & _ & _ & _ & _ & _ & Hlen & Hsegs & Hlog).
  destruct (PelletTraces_queries segs Hsegs) as [Hq _].
  exists w1, (length segs). split; [assumption |]. split.
  { rewrite Hlog.
    change (MuzzleFlash :: HudRefresh :: concat segs ++ log w)
      with ([MuzzleFlash; HudRefresh] ++ (concat segs ++ log w)).
    rewrite !countEvents_app, Hq. reflexivity. }
  rewrite Hlen. split.
  - intros Hkey. apply String.eqb_neq in Hkey. now rewrite Hkey.
  - intros Hkey Hp. apply String.eqb_eq in Hkey. rewrite Hkey.
    unfold pelletsOr8. now destruct Hp as [-> | ->].
Qed.

(** X8. A left click on an empty magazine is a reload request: with
    rounds in reserve and no reload running, [onMouseDown] raises the
    shooting flag, starts the reload and fires nothing (the log is as
    before); a click of any other button changes nothing at all. *)
Theorem onMouseDown_empty_magazine
    (w : World) (d : WeaponDef.t) (s : WeaponState.t) (button : Z) :
  let i := currentWeaponIndex w in
  defs !! i = Some d ->
  weaponState w !! i = Some s ->
  WeaponState.reloading s = false ->
  (WeaponState.ammo s <= 0)%Z ->
  (WeaponState.ammo s < WeaponDef.mag d)%Z ->
  (0 < WeaponState.reserve s)%Z ->
  (button <> 0%Z -> onMouseDown E defs button w = Some (tt, w)) /\
  exists w1,
    onMouseDown E defs 0 w = Some (tt, w1) /\
    Input.shooting (input w1) = true /\
    weaponState w1 !! i = Some (set_reloading true s) /\
    timers w1 = timers w ++ [mkTimer (ReloadDone i) (WeaponDef.reload d * 1000)] /\
    log w1 = log w.
Proof.
  intros i Hd Hs Hr Hempty Hroom Hres. split.
  - intros Hb. unfold onMouseDown. apply Z.eqb_neq in Hb. now rewrite Hb.
  - set (w0 := set_input (set_shooting true (input w)) w).
    assert (Hd0 : defs !! currentWeaponIndex w0 = Some d) by exact Hd.
    assert (Hs0 : weaponState w0 !! currentWeaponIndex w0 = Some s) by exact Hs.
    destruct (canShoot_empty E defs w0 d s Hd0 Hs0 Hr Hempty) as (w1 & Htry & Hcan).
    exists w1. split.
    { unfold onMouseDown. cbn [Z.eqb]. sim_unfold. fold w0.
      exact (shoot_rejected E defs w0 w1 Hcan). }
    rewrite (tryReload_starts defs w0 d s Hd0 Hs0 Hr Hroom Hres) in Htry.
    injection Htry as Heq. rewrite <- Heq. world_simpl.
    split; [reflexivity |]. split; [| split; reflexivity].
    subst i. now rewrite list_lookup_alter_eq, Hs.
Qed.

End Trigger.

(** ** The enemy registry *)

Lemma registryOk_ext (w w' : World) :
  registryOk w -> store w' = store w -> enemyManager w' = enemyManager w -> registryOk w'.
Proof.
  intros [Hnd Hl] Hs Hm. split; rewrite ?Hs, ?Hm; assumption.
Qed.

Lemma length_filter_remove (l : list nat) (e : nat) :
  NoDup l -> e ∈ l -> S (length (filter (fun x => x <> e) l)) = length l.
Proof.
  induction l as [| a l IH]; intros Hnd Hin; [now apply elem_of_nil in Hin |].
  apply NoDup_cons in Hnd as [Ha Hnd].
  destruct (decide (a = e)) as [-> | Hne].
  - rewrite filter_cons_False by tauto. cbn [length]. f_equal.
    clear IH Hin Hnd. induction l as [| b l IH]; [reflexivity |].
    apply not_elem_of_cons in Ha as [Hb Ha].
    rewrite filter_cons_True by auto. cbn [length]. now rewrite IH.
  - rewrite filter_cons_True by assumption. cbn [length]. f_equal.
    apply IH; [assumption |]. apply elem_of_cons in Hin as [-> | Hin]; [congruence | assumption].
Qed.

Section RegistryInvariant.

Variable E : Env.

Lemma createEnemy_registry (w : World) :
  wf w -> registryOk w ->
  exists w',
    createEnemy E w = Some (tt, w') /\
    wf w' /\ registryOk w' /\
    EnemyManager.enemies (enemyManager w') =
      EnemyManager.enemies (enemyManager w) ++ [S (nextRef w)] /\
    (exists en, store w' !! S (nextRef w) = Some en /\ Enemy.health en = 100%Z /\
       Enemy.position en =
         mkVec3 (randFloat_of (Math_random E (S (rndIdx w))) (- WORLD_SIZE / 2) (WORLD_SIZE / 2))
                12
                (randFloat_of (Math_random E (S (S (rndIdx w)))) (- WORLD_SIZE / 2) (WORLD_SIZE / 2))) /\
    (forall e, e <> S (nextRef w) -> store w' !! e = store w !! e) /\
    timers w' = timers w /\ player w' = player w /\ weaponState w' = weaponState w.
Proof.
  intros Hwf [Hnd Hl]. eexists. split; [apply createEnemy_eq |].
  split; [exact (createEnemy_wf E w _ Hwf (createEnemy_eq E w)) |].
  world_simpl. split; [| split; [reflexivity | split; [| split; [| repeat split]]]].
  - assert (Hfresh : forall e, e ∈ EnemyManager.enemies (enemyManager w) -> (e < nextRef w)%nat).
    { intros e He. destruct (Hl e He) as (en & Hen & _).
      destruct (wf_store_fresh w Hwf e en Hen). assumption. }
    split; world_simpl.
    + apply NoDup_app. split; [assumption |]. split; [| apply NoDup_singleton].
      intros e He Hin. apply list_elem_of_singleton in Hin. apply Hfresh in He. lia.
    + intros e He. apply elem_of_app in He as [He | He].
      * destruct (Hl e He) as (en & Hen & Hh & Hm & Hmap).
        destruct (wf_store_fresh w Hwf e en Hen) as [He' Hmesh].
        exists en. rewrite lookup_insert_ne by lia. split; [assumption |].
        split; [assumption |]. split; [apply elem_of_app; now left |].
        rewrite lookup_insert_ne by lia. assumption.
      * apply list_elem_of_singleton in He. subst e. eexists.
        rewrite lookup_insert_eq. split; [reflexivity |]. cbn [Enemy.health Enemy.mesh].
        split; [lia |]. split; [apply elem_of_app; right; now apply list_elem_of_singleton |].
        apply lookup_insert_eq.
  - eexists. rewrite lookup_insert_eq. split; [reflexivity |]. split; reflexivity.
  - intros e He. now rewrite lookup_insert_ne by auto.
Qed.

Lemma applyDamageToEnemy_registry (w : World) (e : nat) (en : Enemy.t) (dmg : Z) :
  wf w -> registryOk w ->
  store w !! e = Some en ->
  EnemyManager.meshToEnemy (enemyManager w) !! Enemy.mesh en = Some e ->
  exists w',
    applyDamageToEnemy e dmg w = Some (tt, w') /\
    wf w' /\ registryOk w' /\
    ((0 < Enemy.health en - dmg)%Z ->
     enemyManager w' = enemyManager w /\ timers w' = timers w) /\
    ((Enemy.health en - dmg <= 0)%Z ->
     EnemyManager.enemies (enemyManager w') =
       filter (fun x => x <> e) (EnemyManager.enemies (enemyManager w)) /\
     timers w' = timers w ++ [mkTimer CreateEnemy 2000]).
Proof.
  intros Hwf [Hnd Hl] Hen Hmap.
  destruct (applyDamageToEnemy_spec w e en dmg Hwf Hen) as (w' & Hrun & _ & Hwf' & _).
  exists w'. split; [assumption |]. split; [assumption |].
  destruct (Z.le_gt_cases (Enemy.health en - dmg) 0) as [Hdead | Halive].
  - rewrite (applyDamageToEnemy_kills w e en dmg Hen Hdead) in Hrun.
    injection Hrun as Hw'. rewrite <- Hw'. world_simpl.
    split; [| split; [lia | auto]].
    split; world_simpl.
    + now apply NoDup_filter.
    + intros x Hx. apply list_elem_of_filter in Hx as [Hne Hx].
      destruct (Hl x Hx) as (ex & Hex & Hh & Hm & Hxmap).
      assert (Hmesh : Enemy.mesh ex <> Enemy.mesh en).
      { intros Heq. rewrite Heq in Hxmap. congruence. }
      exists ex. rewrite lookup_insert_ne by auto. split; [assumption |].
      split; [assumption |]. split; [apply list_elem_of_filter; auto |].
      now rewrite lookup_delete_ne by auto.
  - rewrite (applyDamageToEnemy_survives w e en dmg Hen Halive) in Hrun.
    injection Hrun as Hw'. rewrite <- Hw'. world_simpl.
    split; [| split; [auto | lia]].
    split; world_simpl; [assumption |].
    intros x Hx. destruct (Hl x Hx) as (ex & Hex & Hh & Hm & Hxmap).
    destruct (decide (e = x)) as [-> | Hne].
    + eexists. rewrite lookup_insert_eq. split; [reflexivity |].
      cbn [upd_enemy Enemy.health Enemy.mesh].
      assert (ex = en) by congruence. subst ex. auto.
    + exists ex. now rewrite lookup_insert_ne by auto.
Qed.

End RegistryInvariant.

Section RegistryUnderFire.

Variable E : Env.
Variable defs : list WeaponDef.t.

Lemma performRaycastShot_registry (w : World) (d : WeaponDef.t) (dmg : Z) :
  wf w -> registryOk w ->
  exists w',
    performRaycastShot E d dmg w = Some (tt, w') /\ wf w' /\ registryOk w'.
Proof.
  intros Hwf Hreg. unfold performRaycastShot. sim_unfold. world_simpl.
  match goal with
  | |- context [intersectObjects E (queryIdx w) ?pool ?r] =>
      set (ray := r); destruct (intersectObjects E (queryIdx w) pool ray) as [| hit rest]
  end.
  - world_simpl.
    destruct (intersectObjects E (S (queryIdx w)) (worldColliders w) ray) as [| wh rest];
      world_simpl; eexists; (split; [reflexivity |]);
      (split; [apply (wf_same w _ Hwf); reflexivity
              | apply (registryOk_ext w _ Hreg); reflexivity]).
  - world_simpl.
    destruct (EnemyManager.meshToEnemy (enemyManager w) !! object hit) as [e |] eqn:Hlook.
    + destruct (wf_map w Hwf _ _ Hlook) as (en & Hen & Hmesh).
      match goal with
      | |- context [applyDamageToEnemy e dmg ?w1] =>
          destruct (applyDamageToEnemy_registry w1 e en dmg) as
            (w2 & Hrun & Hwf2 & Hreg2 & _);
            [apply (wf_same w _ Hwf); reflexivity
            | apply (registryOk_ext w _ Hreg); reflexivity
            | exact Hen
            | world_simpl; now rewrite Hmesh
            | rewrite Hrun]
      end.
      world_simpl. eexists. split; [reflexivity |].
      split; [apply (wf_same w2 _ Hwf2); reflexivity
             | apply (registryOk_ext w2 _ Hreg2); reflexivity].
    + world_simpl.
      destruct (intersectObjects E (S (queryIdx w)) (worldColliders w) ray) as [| wh rest'];
        world_simpl; eexists; (split; [reflexivity |]);
        (split; [apply (wf_same w _ Hwf); reflexivity
                | apply (registryOk_ext w _ Hreg); reflexivity]).
Qed.

Lemma times_performRaycastShot_registry (n : nat) (d : WeaponDef.t) (dmg : Z) (w : World) :
  wf w -> registryOk w ->
  exists w',
    times n (performRaycastShot E d dmg) w = Some (tt, w') /\ wf w' /\ registryOk w'.
Proof.
  revert w. induction n as [| n IH]; intros w Hwf Hreg; [now exists w |].
  destruct (performRaycastShot_registry w d dmg Hwf Hreg) as (w1 & Hrun1 & Hwf1 & Hreg1).
  destruct (IH w1 Hwf1 Hreg1) as (w2 & Hrun2 & Hwf2 & Hreg2).
  exists w2. split; [| auto]. cbn [times]. unfold bind at 1. now rewrite Hrun1.
Qed.

(** [shoot] keeps the invariants of the registry and touches neither the
    player nor the camera, the input or the equipped index. *)
Lemma shoot_registry_frame (w : World) (d : WeaponDef.t) (s : WeaponState.t) :
  wf w -> registryOk w ->
  defs !! currentWeaponIndex w = Some d ->
  weaponState w !! currentWeaponIndex w = Some s ->
  exists w',
    shoot E defs w = Some (tt, w') /\ wf w' /\ registryOk w' /\
    camera w' = camera w /\ player w' = player w /\ input w' = input w /\
    currentWeaponIndex w' = currentWeaponIndex w.
Proof.
  intros Hwf Hreg Hd Hs.
  destruct (WeaponState.reloading s) eqn:Hr.
  { exists w. split; [apply shoot_rejected; exact (canShoot_reloading E defs w s Hs Hr) |].
    auto 10. }
  destruct (Z.le_gt_cases (WeaponState.ammo s) 0) as [Hempty | Hleft].
  - destruct (canShoot_empty E defs w d s Hd Hs Hr Hempty) as (w' & Htry & Hcan).
    exists w'. split; [now apply shoot_rejected |].
    revert Htry. unfold tryReload. sim_unfold. rewrite Hs, Hd, Hr.
    destruct ((WeaponDef.mag d <=? WeaponState.ammo s)%Z || (WeaponState.reserve s <=? 0)%Z);
      intros [= <-]; [auto 10 |].
    split; [apply (wf_same w _ Hwf); reflexivity |].
    split; [apply (registryOk_ext w _ Hreg); reflexivity |].
    world_simpl. auto.
  - pose proof (canShoot_gate E defs w d s Hd Hs Hr Hleft) as Hcan.
    destruct (gateOpen d (WeaponState.lastShotTime s) (performance_now E (nowIdx w))).
    + unfold shoot. sim_unfold. rewrite Hcan. cbn [negb]. world_simpl. rewrite Hd.
      match goal with
      | |- context [set_weaponState ?ws (set_nowIdx ?n ?w')] =>
          set (w0 := set_weaponState ws (set_nowIdx n w'))
      end.
      assert (Hwf0 : wf w0) by (apply (wf_same w _ Hwf); reflexivity).
      assert (Hreg0 : registryOk w0) by (apply (registryOk_ext w _ Hreg); reflexivity).
      assert (Hpellets : exists w2,
        (if String.eqb (WeaponDef.key d) "shotgun"
         then times (pelletsOr8 d) (performRaycastShot E d (WeaponDef.damage d))
         else performRaycastShot E d (WeaponDef.damage d)) w0 = Some (tt, w2) /\
        wf w2 /\ registryOk w2 /\ combatFrame w0 w2).
      { destruct (String.eqb (WeaponDef.key d) "shotgun").
        - destruct (times_performRaycastShot_registry (pelletsOr8 d) d (WeaponDef.damage d)
                      w0 Hwf0 Hreg0) as (w2 & Hrun & Hwf2 & Hreg2).
          destruct (times_performRaycastShot_spec E (pelletsOr8 d) d (WeaponDef.damage d)
                      w0 Hwf0) as (w2' & segs & Hrun' & Hf & _).
          assert (w2' = w2) by congruence. subst w2'. exists w2. auto.
        - destruct (performRaycastShot_registry w0 d (WeaponDef.damage d) Hwf0 Hreg0)
            as (w2 & Hrun & Hwf2 & Hreg2).
          destruct (performRaycastShot_spec E w0 d (WeaponDef.damage d) Hwf0)
            as (w2' & seg & Hrun' & Hf & _).
          assert (w2' = w2) by congruence. subst w2'. exists w2. auto. }
      destruct Hpellets as (w2 & Hrun & Hwf2 & Hreg2 & Hf). rewrite Hrun.
      eexists. split; [reflexivity |].
      split; [apply (wf_same w2 _ Hwf2); reflexivity |].
      split; [apply (registryOk_ext w2 _ Hreg2); reflexivity |].
      destruct Hf. subst w0. world_simpl_all. auto.
    + exists (set_nowIdx (S (nowIdx w)) w). split; [now apply shoot_rejected |].
      split; [apply (wf_same w _ Hwf); reflexivity |].
      split; [apply (registryOk_ext w _ Hreg); reflexivity |].
      world_simpl. auto.
Qed.

(** X9. Shooting keeps the registry sound: whatever the state of the
    equipped weapon, [shoot] returns, and afterwards the registry still
    lists each active enemy once, each with positive health, its mesh in the
    hit pool and mapped back to it. An enemy whose health reached 0 is
    never left listed. *)
Theorem shoot_keeps_registry (w : World) (d : WeaponDef.t) (s : WeaponState.t) :
  wf w -> registryOk w ->
  defs !! currentWeaponIndex w = Some d ->
  weaponState w !! currentWeaponIndex w = Some s ->
  exists w', shoot E defs w = Some (tt, w') /\ wf w' /\ registryOk w'.
Proof.
  intros Hwf Hreg Hd Hs.
  destruct (shoot_registry_frame w d s Hwf Hreg Hd Hs) as (w' & Hrun & Hwf' & Hreg' & _).
  exists w'. auto.
Qed.

End RegistryUnderFire.

(** [randFloat] and [randInt] stay within their bounds, the upper one
    excluded. *)
Lemma randFloat_of_range (r lo hi : Q) :
  0 <= r -> r < 1 -> lo < hi ->
  lo <= randFloat_of r lo hi /\ randFloat_of r lo hi < hi.
Proof.
  intros H0 H1 Hlt. unfold randFloat_of.
  assert (Hd : 0 < hi - lo) by lra.
  assert (Hm0 : 0 <= r * (hi - lo)) by (apply Qmult_le_0_compat; lra).
  assert (Hm1 : r * (hi - lo) < 1 * (hi - lo)) by (apply Qmult_lt_compat_r; lra).
  split; lra.
Qed.

Lemma randInt_of_range (r : Q) (lo hi : Z) :
  0 <= r -> r < 1 -> (lo < hi)%Z ->
  (lo <= randInt_of r (inject_Z lo) (inject_Z hi) <= hi - 1)%Z.
Proof.
  intros H0 H1 Hlt. unfold randInt_of.
  assert (Hq : inject_Z lo < inject_Z hi) by now rewrite <- Zlt_Qlt.
  destruct (randFloat_of_range r _ _ H0 H1 Hq) as [Hlo Hhi]. split.
  - rewrite <- (Qfloor_Z lo) at 1. now apply Qfloor_resp_le.
  - apply Z.lt_succ_r. replace (Z.succ (hi - 1)) with hi by lia. rewrite Zlt_Qlt.
    eapply Qle_lt_trans; [apply Qfloor_le | exact Hhi].
Qed.

(** Running a computation whose outcome is known. *)
Lemma bind_eval {A B : Type} (m : Sim A) (k : A -> Sim B) (w : World) (a : A) (w1 : World) :
  m w = Some (a, w1) -> bind m k w = k a w1.
Proof.
  intros H. unfold bind. now rewrite H.
Qed.

Section StartUp.

Variable E : Env.
Variable defs : list WeaponDef.t.

Lemma mapSim_initWeapon_full (l : list WeaponDef.t) (w : World) :
  exists ws w',
    mapSim (initWeapon E) l w = Some (ws, w') /\
    w' = set_rndIdx (rndIdx w + length l) w /\
    length ws = length l /\
    (forall i d, l !! i = Some d ->
       ws !! i = Some (WeaponState.mk (WeaponDef.mag d) (WeaponDef.reserve d) 0 false
                         (randInt_of (Math_random E (rndIdx w + i)) 0 6))).
Proof.
  revert w. induction l as [| d l IH]; intros w.
  - exists [], w. split; [reflexivity |]. split.
    + cbn [length]. rewrite Nat.add_0_r. now destruct w.
    + split; [reflexivity |]. intros i d' H. now rewrite lookup_nil in H.
  - destruct (IH (set_rndIdx (S (rndIdx w)) w)) as (ws & w' & Hrun & Hw' & Hlen & Hall).
    exists (WeaponState.mk (WeaponDef.mag d) (WeaponDef.reserve d) 0 false
              (randInt_of (Math_random E (rndIdx w)) 0 6) :: ws), w'.
    split; [cbn [mapSim]; unfold initWeapon at 1; sim_unfold; now rewrite Hrun |].
    split.
    { rewrite Hw'. world_simpl. cbn [length]. unfold set_rndIdx. cbn.
      f_equal. lia. }
    split; [cbn [length]; now rewrite Hlen |].
    intros [| i] d' H.
    + cbn in H. injection H as <-. cbn. now rewrite Nat.add_0_r.
    + cbn in H. specialize (Hall i d' H). world_simpl_all.
      change (ws !! i = Some (WeaponState.mk (WeaponDef.mag d') (WeaponDef.reserve d') 0 false
                                (randInt_of (Math_random E (rndIdx w + S i)) 0 6))).
      rewrite Hall. now replace (rndIdx w + S i)%nat with (S (rndIdx w) + i)%nat by lia.
Qed.

Lemma times_createEnemy_registry (n : nat) (w : World) :
  wf w -> registryOk w ->
  (forall e, e ∈ EnemyManager.enemies (enemyManager w) ->
     exists en, store w !! e = Some en /\ Enemy.health en = 100%Z) ->
  exists w',
    times n (createEnemy E) w = Some (tt, w') /\
    wf w' /\ registryOk w' /\
    length (EnemyManager.enemies (enemyManager w')) =
      (length (EnemyManager.enemies (enemyManager w)) + n)%nat /\
    (forall e, e ∈ EnemyManager.enemies (enemyManager w') ->
       exists en, store w' !! e = Some en /\ Enemy.health en = 100%Z) /\
    timers w' = timers w /\ player w' = player w /\ weaponState w' = weaponState w.
Proof.
  revert w. induction n as [| n IH]; intros w Hwf Hreg Hfull.
  - exists w. rewrite Nat.add_0_r. auto 10.
  - destruct (createEnemy_registry E w Hwf Hreg)
      as (w1 & Hrun1 & Hwf1 & Hreg1 & Hen1 & (en & Hnew & Hh & _) & Hold & Ht1 & Hp1 & Hws1).
    destruct (IH w1 Hwf1 Hreg1) as (w2 & Hrun2 & Hwf2 & Hreg2 & Hlen2 & Hfull2 & Ht2 & Hp2 & Hws2).
    { intros e He. rewrite Hen1 in He. apply elem_of_app in He as [He | He].
      - destruct (Hfull e He) as (ex & Hex & Hhx). exists ex. split; [| assumption].
        rewrite Hold; [assumption |]. destruct (wf_store_fresh w Hwf e ex Hex). lia.
      - apply list_elem_of_singleton in He. subst e. eauto. }
    exists w2. split; [cbn [times]; unfold bind at 1; now rewrite Hrun1 |].
    split; [assumption |]. split; [assumption |]. split.
    { rewrite Hlen2, Hen1, length_app. cbn. lia. }
    split; [assumption |]. split; [congruence |]. split; congruence.
Qed.

Lemma registryOk_blank : registryOk blank.
Proof.
  split; cbn; [constructor |]. intros e He. now apply elem_of_nil in He.
Qed.

Lemma boot_registry :
  exists w', boot E defs blank = Some (tt, w') /\ registryOk w'.
Proof.
  destruct (mapSim_initWeapon_full defs blank) as (ws & w1 & Hrun1 & Hw1 & Hlen & Hall).
  set (w2 := set_weaponState ws w1).
  assert (Hwf2 : wf w2) by (subst w2 w1; apply (wf_same blank _ wf_blank); reflexivity).
  assert (Hreg2 : registryOk w2)
    by (subst w2 w1; apply (registryOk_ext blank _ registryOk_blank); reflexivity).
  destruct (times_createEnemy_registry ENEMY_TARGET_COUNT w2 Hwf2 Hreg2)
    as (w' & Hrun & _ & Hreg' & _).
  { subst w2 w1. cbn. intros e He. now apply elem_of_nil in He. }
  exists w'. split; [| assumption].
  unfold boot. rewrite (bind_eval _ _ _ _ _ Hrun1).
  now rewrite (bind_eval (modify (set_weaponState ws)) _ w1 tt w2 eq_refl).
Qed.

(** X10. Start-up, from the globals as declared: every weapon of the
    catalog gets a full magazine, its full reserve and no reload running,
    and [ENEMY_TARGET_COUNT] = 18 enemies are created, all distinct, each
    with health 100, its mesh in the hit pool and mapped back to it; no
    timer is pending and the player has full health. *)
Theorem boot_full_magazines_and_eighteen_enemies :
  exists w',
    boot E defs blank = Some (tt, w') /\
    wf w' /\ registryOk w' /\
    length (EnemyManager.enemies (enemyManager w')) = 18%nat /\
    (forall e, e ∈ EnemyManager.enemies (enemyManager w') ->
       exists en, store w' !! e = Some en /\ Enemy.health en = 100%Z) /\
    length (weaponState w') = length defs /\
    (forall i d, defs !! i = Some d ->
       exists s, weaponState w' !! i = Some s /\
         WeaponState.ammo s = WeaponDef.mag d /\
         WeaponState.reserve s = WeaponDef.reserve d /\
         WeaponState.reloading s = false) /\
    timers w' = [] /\
    Player.health (player w') = PLAYER_MAX_HEALTH.
Proof.
  destruct (mapSim_initWeapon_full defs blank) as (ws & w1 & Hrun1 & Hw1 & Hlen & Hall).
  set (w2 := set_weaponState ws w1).
  assert (Hwf2 : wf w2) by (subst w2 w1; apply (wf_same blank _ wf_blank); reflexivity).
  assert (Hreg2 : registryOk w2)
    by (subst w2 w1; apply (registryOk_ext blank _ registryOk_blank); reflexivity).
  destruct (times_createEnemy_registry ENEMY_TARGET_COUNT w2 Hwf2 Hreg2)
    as (w' & Hrun & Hwf' & Hreg' & Hlen' & Hfull & Ht & Hp & Hws).
  { subst w2 w1. cbn. intros e He. now apply elem_of_nil in He. }
  exists w'. split.
  { unfold boot. rewrite (bind_eval _ _ _ _ _ Hrun1).
    now rewrite (bind_eval (modify (set_weaponState ws)) _ w1 tt w2 eq_refl). }
  split; [assumption |]. split; [assumption |]. split.
  { rewrite Hlen'. subst w2 w1. reflexivity. }
  split; [assumption |]. rewrite Hws, Ht, Hp. subst w2 w1. world_simpl.
  split; [assumption |]. split; [| split; reflexivity].
  intros i d Hd. eexists. split; [exact (Hall i d Hd) |]. repeat split.
Qed.

(** X11. When [Math.random()] answers within [0, 1), every skin index
    drawn at start-up is a valid index of [SKIN_LIBRARY]. *)
Theorem boot_skins_valid :
  (forall k, 0 <= Math_random E k /\ Math_random E k < 1) ->
  exists w',
    boot E defs blank = Some (tt, w') /\
    forall i s, weaponState w' !! i = Some s ->
      (0 <= WeaponState.skinIndex s)%Z /\
      is_Some (SKIN_LIBRARY !! Z.to_nat (WeaponState.skinIndex s)).
Proof.
  intros Hrnd.
  destruct (mapSim_initWeapon_full defs blank) as (ws & w1 & Hrun1 & Hw1 & Hlen & Hall).
  set (w2 := set_weaponState ws w1).
  assert (Hwf2 : wf w2) by (subst w2 w1; apply (wf_same blank _ wf_blank); reflexivity).
  assert (Hreg2 : registryOk w2)
    by (subst w2 w1; apply (registryOk_ext blank _ registryOk_blank); reflexivity).
  destruct (times_createEnemy_registry ENEMY_TARGET_COUNT w2 Hwf2 Hreg2)
    as (w'' & Hrun & _ & _ & _ & _ & _ & _ & Hws).
  { subst w2 w1. cbn. intros e He. now apply elem_of_nil in He. }
  exists w''. split.
  { unfold boot. rewrite (bind_eval _ _ _ _ _ Hrun1).
    now rewrite (bind_eval (modify (set_weaponState ws)) _ w1 tt w2 eq_refl). }
  intros i s Hs. rewrite Hws in Hs. subst w2. world_simpl_all.
  assert (Hi : (i < length defs)%nat) by (rewrite <- Hlen; now apply lookup_lt_Some in Hs).
  destruct (lookup_lt_is_Some_2 defs i Hi) as [d Hd].
  rewrite (Hall i d Hd) in Hs. injection Hs as <-. cbn [WeaponState.skinIndex].
  match goal with
  | |- context [randInt_of (Math_random E ?k) 0 6] =>
      destruct (Hrnd k) as [H0 H1];
      pose proof (randInt_of_range (Math_random E k) 0 6 H0 H1 ltac:(lia)) as Hrange
  end.
  change (6 - 1)%Z with 5%Z in Hrange. unfold inject_Z in Hrange.
  split; [lia |]. apply lookup_lt_is_Some. cbn [length SKIN_LIBRARY]. lia.
Qed.

End StartUp.

Section Population.

Variable E : Env.
Variable defs : list WeaponDef.t.

(** X12. When [Math.random()] answers within [0, 1), [createEnemy] places
    the new enemy inside the world square, at height 12:
    [-1600 <= x < 1600] and [-1600 <= z < 1600]; the enemy is new to the
    registry, which grows by exactly that one entry and stays sound. *)
Theorem createEnemy_spawns_inside_world (w : World) :
  wf w -> registryOk w ->
  (forall k, 0 <= Math_random E k /\ Math_random E k < 1) ->
  exists w' en,
    createEnemy E w = Some (tt, w') /\
    wf w' /\ registryOk w' /\
    EnemyManager.enemies (enemyManager w') =
      EnemyManager.enemies (enemyManager w) ++ [S (nextRef w)] /\
    (S (nextRef w) ∉ EnemyManager.enemies (enemyManager w)) /\
    store w' !! S (nextRef w) = Some en /\
    Enemy.health en = 100%Z /\
    - (1600) <= vx (Enemy.position en) /\ vx (Enemy.position en) < 1600 /\
    vy (Enemy.position en) = 12 /\
    - (1600) <= vz (Enemy.position en) /\ vz (Enemy.position en) < 1600.
Proof.
  intros Hwf Hreg Hrnd.
  destruct (createEnemy_registry E w Hwf Hreg)
    as (w' & Hrun & Hwf' & Hreg' & Hen & (en & Hnew & Hh & Hpos) & _).
  exists w', en. split; [assumption |]. split; [assumption |]. split; [assumption |].
  split; [assumption |]. split.
  { intros Hin. destruct (reg_listed w Hreg _ Hin) as (ex & Hex & _).
    destruct (wf_store_fresh w Hwf _ _ Hex). lia. }
  split; [assumption |]. split; [assumption |]. rewrite Hpos. cbn [vx vy vz].
  assert (Hb : - WORLD_SIZE / 2 < WORLD_SIZE / 2) by reflexivity.
  destruct (Hrnd (S (rndIdx w))) as [Hx0 Hx1].
  destruct (Hrnd (S (S (rndIdx w)))) as [Hz0 Hz1].
  destruct (randFloat_of_range _ _ _ Hx0 Hx1 Hb) as [Hxlo Hxhi].
  destruct (randFloat_of_range _ _ _ Hz0 Hz1 Hb) as [Hzlo Hzhi].
  assert (Hlo : - WORLD_SIZE / 2 == - (1600)) by reflexivity.
  assert (Hhi : WORLD_SIZE / 2 == 1600) by reflexivity.
  split; [eapply Qle_trans; [| exact Hxlo]; rewrite Hlo; apply Qle_refl |].
  split; [eapply Qlt_le_trans; [exact Hxhi |]; rewrite Hhi; apply Qle_refl |].
  split; [reflexivity |].
  split; [eapply Qle_trans; [| exact Hzlo]; rewrite Hlo; apply Qle_refl |].
  eapply Qlt_le_trans; [exact Hzhi |]; rewrite Hhi; apply Qle_refl.
Qed.

(** X13. The population is conserved across a kill and the respawn it
    queues: when a listed enemy is killed, the registry loses exactly that
    entry, and once the queued [createEnemy] timer has run the registry
    has as many enemies as before the kill, is sound again, and does not
    list the dead enemy. *)
Theorem kill_then_respawn_conserves_population
    (w : World) (e : nat) (en : Enemy.t) (dmg : Z) :
  wf w -> registryOk w ->
  e ∈ EnemyManager.enemies (enemyManager w) ->
  store w !! e = Some en ->
  (Enemy.health en - dmg <= 0)%Z ->
  exists w1 w2,
    applyDamageToEnemy e dmg w = Some (tt, w1) /\
    S (length (EnemyManager.enemies (enemyManager w1))) =
      length (EnemyManager.enemies (enemyManager w)) /\
    fireTimer E defs (length (timers w)) w1 = Some (tt, w2) /\
    length (EnemyManager.enemies (enemyManager w2)) =
      length (EnemyManager.enemies (enemyManager w)) /\
    wf w2 /\ registryOk w2 /\
    (e ∉ EnemyManager.enemies (enemyManager w2)) /\
    timers w2 = timers w.
Proof.
  intros Hwf Hreg Hin Hen Hdead.
  destruct (reg_listed w Hreg e Hin) as (en' & Hen' & _ & _ & Hmap).
  assert (en' = en) by congruence. subst en'.
  destruct (applyDamageToEnemy_registry w e en dmg Hwf Hreg Hen Hmap)
    as (w1 & Hrun1 & Hwf1 & Hreg1 & _ & Hkill).
  destruct (Hkill Hdead) as [Hes Hts].
  assert (Hwf1' : wf (set_timers (timers w) w1)) by (apply (wf_same w1 _ Hwf1); reflexivity).
  assert (Hreg1' : registryOk (set_timers (timers w) w1))
    by (apply (registryOk_ext w1 _ Hreg1); reflexivity).
  destruct (createEnemy_registry E _ Hwf1' Hreg1')
    as (w2 & Hrun2 & Hwf2 & Hreg2 & Hes2 & _ & _ & Hts2 & _).
  world_simpl_all.
  assert (Hlen1 : S (length (EnemyManager.enemies (enemyManager w1))) =
                  length (EnemyManager.enemies (enemyManager w))).
  { rewrite Hes. apply length_filter_remove; [apply (reg_nodup w Hreg) | assumption]. }
  exists w1, w2. split; [assumption |]. split; [assumption |]. split.
  { rewrite (fireTimer_at_end E defs w1 (timers w) (mkTimer CreateEnemy 2000) Hts).
    exact Hrun2. }
  split; [rewrite Hes2, length_app; cbn [length]; lia |].
  split; [assumption |]. split; [assumption |]. split; [| assumption].
  rewrite Hes2, Hes. intros Hin2. apply elem_of_app in Hin2 as [Hin2 | Hin2].
  - apply list_elem_of_filter in Hin2. tauto.
  - apply list_elem_of_singleton in Hin2.
    assert (Hst1 : is_Some (store w1 !! e)).
    { destruct (reg_listed w Hreg e Hin) as (? & ? & _).
      destruct (applyDamageToEnemy_spec w e en dmg Hwf Hen) as (w1' & Hrun1' & _ & _ & _ & _ & _).
      assert (w1' = w1) by congruence. subst w1'.
      rewrite (applyDamageToEnemy_kills w e en dmg Hen Hdead) in Hrun1.
      injection Hrun1 as <-. world_simpl. rewrite lookup_insert_eq. eauto. }
    destruct Hst1 as [ex Hex]. destruct (wf_store_fresh w1 Hwf1 e ex Hex). lia.
Qed.

End Population.

(** ** Locomotion *)

Section Locomotion.

Variable E : Env.

Lemma intentOf_vy (inp : Input.t) (yaw : Q) : vy (intentOf E inp yaw) = 0.
Proof.
  unfold intentOf. destruct (Qlt_bool 0 (lengthSq (keyDirOf inp))); reflexivity.
Qed.

Lemma beforeIntegration_frame (keyDir : Vec3) (sprint jump : bool) (delta : Q) (p : Player.t) :
  Player.health (gravityAndJump jump delta (accelerate keyDir sprint delta p)) =
    Player.health p /\
  Player.lastDamageTime (gravityAndJump jump delta (accelerate keyDir sprint delta p)) =
    Player.lastDamageTime p.
Proof.
  unfold gravityAndJump, accelerate.
  cbn [set_velocity Player.onGround Player.velocity].
  destruct (Player.onGround p) eqn:Hg; cbn [negb set_velocity Player.onGround];
    rewrite Hg; destruct jump; split; reflexivity.
Qed.

Lemma clamp_player_bounds (v : Q) :
  - (1590) <= clamp v (- WORLD_SIZE / 2 + 10) (WORLD_SIZE / 2 - 10) /\
  clamp v (- WORLD_SIZE / 2 + 10) (WORLD_SIZE / 2 - 10) <= 1590.
Proof.
  destruct (clamp_bounds v (- WORLD_SIZE / 2 + 10) (WORLD_SIZE / 2 - 10)) as [Hlo Hhi];
    [discriminate |].
  split.
  - eapply Qle_trans; [| exact Hlo]. discriminate.
  - eapply Qle_trans; [exact Hhi |]. discriminate.
Qed.

Lemma stages_onGround (keyDir : Vec3) (sprint jump : bool) (delta : Q) (p : Player.t) :
  Player.onGround (gravityAndJump jump delta (accelerate keyDir sprint delta p)) =
  Player.onGround p && negb jump.
Proof.
  unfold gravityAndJump, accelerate.
  cbn [set_velocity Player.onGround Player.velocity].
  destruct (Player.onGround p) eqn:Hg, jump;
    repeat (cbn [negb andb set_velocity set_onGround Player.onGround]; rewrite ?Hg);
    reflexivity.
Qed.

Lemma stages_vy_grounded (keyDir : Vec3) (sprint jump : bool) (delta : Q) (p : Player.t) :
  Player.onGround p = true -> jump = false ->
  vy (Player.velocity (gravityAndJump jump delta (accelerate keyDir sprint delta p))) =
  vy (Player.velocity p) +
  (vy keyDir * (PLAYER_SPEED * (if sprint then PLAYER_SPRINT_MULTIPLIER else 1)) -
   vy (Player.velocity p)) * clamp (600 * delta) 0 1.
Proof.
  intros Hg ->. unfold gravityAndJump, accelerate.
  repeat (cbn [negb andb set_velocity set_onGround Player.onGround Player.velocity];
          rewrite ?Hg).
  reflexivity.
Qed.

Lemma stages_horizontal (keyDir : Vec3) (sprint jump : bool) (delta : Q) (p : Player.t) :
  let speed := PLAYER_SPEED * (if sprint then PLAYER_SPRINT_MULTIPLIER else 1) in
  let v := Player.velocity (gravityAndJump jump delta (accelerate keyDir sprint delta p)) in
  vx v = vx (Player.velocity p) +
         (vx keyDir * speed - vx (Player.velocity p)) * clamp (600 * delta) 0 1 /\
  vz v = vz (Player.velocity p) +
         (vz keyDir * speed - vz (Player.velocity p)) * clamp (600 * delta) 0 1.
Proof.
  unfold gravityAndJump, accelerate.
  destruct (Player.onGround p) eqn:Hg, jump;
    repeat (cbn [negb andb set_velocity set_onGround Player.onGround Player.velocity];
            rewrite ?Hg);
    split; reflexivity.
Qed.

Lemma updateMovement_eq (delta : Q) (w : World) :
  updateMovement E delta w =
  Some (tt,
    let p := beforeIntegration E delta w in
    let pos := addScaledVector (Camera.position (camera w)) (Player.velocity p) delta in
    set_camera (set_position (fst (land pos p)) (camera w)) (set_player (snd (land pos p)) w)).
Proof.
  unfold updateMovement, modify. cbv zeta.
  destruct (land _ _) as [pos p]. reflexivity.
Qed.

(** What a movement tick does to the world. *)
Lemma updateMovement_spec (delta : Q) (w : World) :
  exists w',
    updateMovement E delta w = Some (tt, w') /\
    - (1590) <= vx (Camera.position (camera w')) /\
    vx (Camera.position (camera w')) <= 1590 /\
    - (1590) <= vz (Camera.position (camera w')) /\
    vz (Camera.position (camera w')) <= 1590 /\
    24 <= vy (Camera.position (camera w')) /\
    Player.health (player w') = Player.health (player w) /\
    Player.lastDamageTime (player w') = Player.lastDamageTime (player w) /\
    weaponState w' = weaponState w /\
    enemyManager w' = enemyManager w /\
    store w' = store w /\
    timers w' = timers w /\
    log w' = log w /\
    nextRef w' = nextRef w /\
    currentWeaponIndex w' = currentWeaponIndex w /\
    input w' = input w /\
    nowIdx w' = nowIdx w.
Proof.
  eexists. split; [apply updateMovement_eq |]. cbv zeta. world_simpl.
  set (p := beforeIntegration E delta w).
  set (pos := addScaledVector (Camera.position (camera w)) (Player.velocity p) delta).
  assert (Hp : Player.health p = Player.health (player w) /\
               Player.lastDamageTime p = Player.lastDamageTime (player w)).
  { subst p. unfold beforeIntegration. apply beforeIntegration_frame. }
  unfold land. cbv zeta.
  destruct (Qle_bool (vy pos) 24) eqn:Hground; cbn [fst snd vx vy vz].
  - destruct (clamp_player_bounds (vx pos)) as [Hx1 Hx2].
    destruct (clamp_player_bounds (vz pos)) as [Hz1 Hz2].
    split; [assumption |]. split; [assumption |]. split; [assumption |].
    split; [assumption |]. split; [apply Qle_refl |].
    cbn [set_onGround set_velocity Player.health Player.lastDamageTime].
    destruct Hp. repeat split; assumption || reflexivity.
  - destruct (clamp_player_bounds (vx pos)) as [Hx1 Hx2].
    destruct (clamp_player_bounds (vz pos)) as [Hz1 Hz2].
    apply Qle_bool_false_iff in Hground.
    split; [assumption |]. split; [assumption |]. split; [assumption |].
    split; [assumption |]. split; [now apply Qlt_le_weak |].
    destruct Hp. repeat split; assumption || reflexivity.
Qed.

(** X14. After every movement tick, whatever the input, the time step and
    the velocity, the player is inside the world and not below eye level:
    [-1590 <= x <= 1590], [-1590 <= z <= 1590] and [y >= 24]. The tick
    touches nothing but the camera position and the player's velocity and
    grounded flag. *)
Theorem updateMovement_keeps_player_in_world (delta : Q) (w : World) :
  exists w',
    updateMovement E delta w = Some (tt, w') /\
    - (1590) <= vx (Camera.position (camera w')) /\
    vx (Camera.position (camera w')) <= 1590 /\
    - (1590) <= vz (Camera.position (camera w')) /\
    vz (Camera.position (camera w')) <= 1590 /\
    24 <= vy (Camera.position (camera w')) /\
    Player.health (player w') = Player.health (player w) /\
    Player.lastDamageTime (player w') = Player.lastDamageTime (player w) /\
    weaponState w' = weaponState w /\
    enemyManager w' = enemyManager w /\
    store w' = store w /\
    timers w' = timers w /\
    log w' = log w.
Proof.
  destruct (updateMovement_spec delta w)
    as (w' & Hrun & Hx1 & Hx2 & Hz1 & Hz2 & Hy & Hh & Hl & Hws & Hm & Hs & Ht & Hlog & _).
  exists w'. auto 15.
Qed.

(** X15. The grounded flag stays truthful: if a player flagged as on the
    ground stands at eye level (y = 24) with no vertical velocity before a
    movement tick, the same holds after it, for every input and time step;
    in particular the flag is never left set on a player above the ground. *)
Theorem updateMovement_keeps_grounded (delta : Q) (w : World) :
  grounded w ->
  exists w', updateMovement E delta w = Some (tt, w') /\ grounded w'.
Proof.
  intros Hg. eexists. split; [apply updateMovement_eq |]. cbv zeta.
  unfold grounded. world_simpl.
  set (p := beforeIntegration E delta w).
  set (pos := addScaledVector (Camera.position (camera w)) (Player.velocity p) delta).
  unfold land. cbv zeta.
  destruct (Qle_bool (vy pos) 24) eqn:Hground; cbn [fst snd vx vy vz].
  - intros _. cbn. split; reflexivity.
  - intros Hon. exfalso. apply Qle_bool_false_iff in Hground.
    subst p. unfold beforeIntegration in Hon. rewrite stages_onGround in Hon.
    apply andb_true_iff in Hon as [Hw Hj]. apply negb_true_iff in Hj.
    destruct (Hg Hw) as [Hv Hy].
    assert (Hvb : vy (Player.velocity (beforeIntegration E delta w)) == 0).
    { unfold beforeIntegration. rewrite stages_vy_grounded by assumption.
      rewrite intentOf_vy, Hv. ring. }
    subst pos. cbn [addScaledVector vy] in Hground. rewrite Hvb, Hy in Hground.
    ring_simplify in Hground. now apply Qlt_irrefl in Hground.
Qed.

(** At any frame of 1/600 s or longer the acceleration step is complete;
    with no movement key held the target velocity is zero, and the
    horizontal velocity the tick integrates with is zero. *)
Lemma beforeIntegration_stops (delta : Q) (w : World) :
  1 <= 600 * delta ->
  Input.forward (input w) = false -> Input.backward (input w) = false ->
  Input.left (input w) = false -> Input.right (input w) = false ->
  vx (Player.velocity (beforeIntegration E delta w)) == 0 /\
  vz (Player.velocity (beforeIntegration E delta w)) == 0.
Proof.
  intros Hdelta Hf Hb Hl Hr.
  assert (Hstep : clamp (600 * delta) 0 1 = 1).
  { unfold clamp, Qmin, GenericMinMax.gmin.
    destruct (1 ?= 600 * delta) eqn:Hc; [reflexivity | reflexivity |].
    apply Qgt_alt in Hc. exfalso. exact (Qlt_not_le _ _ Hc Hdelta). }
  unfold beforeIntegration.
  destruct (stages_horizontal (intentOf E (input w) (Camera.yaw (camera w)))
              (Input.sprint (input w)) (Input.jump (input w)) delta (player w)) as [-> ->].
  rewrite Hstep. unfold intentOf, keyDirOf. rewrite Hf, Hb, Hl, Hr. cbv zeta.
  change (Qlt_bool 0 (lengthSq (mkVec3 0 0 0))) with false. cbn [vx vz].
  split; ring.
Qed.

(** X16. Without a movement key the player stops within one frame: after
    a movement tick of 1/600 s or longer with none of the four movement
    keys held, the player's horizontal velocity is zero, whatever it was
    (the target velocity is zero and the acceleration step is complete, so
    the tick adds to the velocity its own opposite). *)
Theorem updateMovement_stops_without_keys (delta : Q) (w : World) :
  1 <= 600 * delta ->
  Input.forward (input w) = false -> Input.backward (input w) = false ->
  Input.left (input w) = false -> Input.right (input w) = false ->
  exists w',
    updateMovement E delta w = Some (tt, w') /\
    vx (Player.velocity (player w')) == 0 /\
    vz (Player.velocity (player w')) == 0.
Proof.
  intros Hdelta Hf Hb Hl Hr.
  destruct (beforeIntegration_stops delta w Hdelta Hf Hb Hl Hr) as [Hx Hz].
  eexists. split; [apply updateMovement_eq |]. cbv zeta. world_simpl.
  unfold land. cbv zeta.
  destruct (Qle_bool _ 24); cbn [fst snd set_onGround set_velocity Player.velocity vx vz];
    split; assumption.
Qed.

End Locomotion.

(** ** Enemy behaviour *)

Lemma sameBody_refl (a : Enemy.t) : sameBody a a.
Proof. split; reflexivity. Qed.

Lemma aiFrame_refl (w : World) : aiFrame w w.
Proof.
  split; try reflexivity; [| auto].
  intros x. destruct (store w !! x); [apply sameBody_refl | exact I].
Qed.

Lemma aiFrame_trans (w1 w2 w3 : World) : aiFrame w1 w2 -> aiFrame w2 w3 -> aiFrame w1 w3.
Proof.
  intros [] []. split; try (etransitivity; eassumption); [| auto].
  intros x. specialize (ai_store0 x). specialize (ai_store1 x).
  destruct (store w1 !! x), (store w2 !! x), (store w3 !! x); try tauto.
  destruct ai_store0, ai_store1. split; congruence.
Qed.

(** Whatever leaves the store and the fields of the frame alone. *)
Lemma aiFrame_same (w w' : World) :
  currentWeaponIndex w' = currentWeaponIndex w ->
  weaponState w' = weaponState w ->
  enemyManager w' = enemyManager w ->
  camera w' = camera w ->
  nextRef w' = nextRef w ->
  input w' = input w ->
  store w' = store w ->
  Player.velocity (player w') = Player.velocity (player w) ->
  Player.onGround (player w') = Player.onGround (player w) ->
  ((0 <= Player.health (player w))%Z -> (0 <= Player.health (player w'))%Z) ->
  aiFrame w w'.
Proof.
  intros ? ? ? ? ? ? Hs ? ? ?. split; try assumption.
  intros x. rewrite Hs. destruct (store w !! x); [apply sameBody_refl | exact I].
Qed.

Lemma aiFrame_updEnemy (e : nat) (f : Enemy.t -> Enemy.t) (w : World) :
  (forall a, sameBody a (f a)) ->
  aiFrame w (set_store (alter f e (store w)) w).
Proof.
  intros Hf. split; try reflexivity; [| auto].
  intros x. world_simpl. destruct (decide (e = x)) as [-> | Hne].
  - rewrite lookup_alter_eq. destruct (store w !! x); cbn; [apply Hf | exact I].
  - rewrite lookup_alter_ne by assumption.
    destruct (store w !! x); [apply sameBody_refl | exact I].
Qed.

Lemma aiFrame_wf (w w' : World) : aiFrame w w' -> wf w -> wf w'.
Proof.
  intros [] [Hmap Hsf Hmf]. split.
  - intros m e He. rewrite ai_enemyManager0 in He. destruct (Hmap m e He) as (en & Hen & Hm).
    specialize (ai_store0 e). rewrite Hen in ai_store0.
    destruct (store w' !! e) as [en' |]; [| contradiction].
    exists en'. split; [reflexivity |]. destruct ai_store0. congruence.
  - intros e en' Hen'. rewrite ai_nextRef0. specialize (ai_store0 e). rewrite Hen' in ai_store0.
    destruct (store w !! e) as [en |] eqn:Hen; [| contradiction].
    destruct (Hsf e en Hen). destruct ai_store0 as [_ Hm]. rewrite Hm. auto.
  - intros m e He. rewrite ai_enemyManager0 in He. rewrite ai_nextRef0. eauto.
Qed.

Lemma aiFrame_registryOk (w w' : World) : aiFrame w w' -> registryOk w -> registryOk w'.
Proof.
  intros [] [Hnd Hl]. split; rewrite ai_enemyManager0; [assumption |].
  intros e He. destruct (Hl e He) as (en & Hen & Hh & Hm & Hmap).
  specialize (ai_store0 e). rewrite Hen in ai_store0.
  destruct (store w' !! e) as [en' |]; [| contradiction].
  destruct ai_store0 as [Hh' Hm']. exists en'. rewrite Hh', Hm'. auto.
Qed.

Section EnemyShots.

Variable E : Env.

Lemma applyDamageToPlayer_aiFrame (dmg : Z) (w : World) :
  exists w',
    applyDamageToPlayer E dmg w = Some (tt, w') /\
    aiFrame w w' /\ store w' = store w /\
    (nowIdx w <= nowIdx w' <= S (nowIdx w))%nat /\
    ((player w' = player w /\ timers w' = timers w) \/ hitWith E dmg w w').
Proof.
  destruct (Qlt_le_dec
              (fl (performance_now E (nowIdx w) - Player.lastDamageTime (player w))) 200)
    as [Hin | Hout].
  - rewrite (applyDamageToPlayer_ignored E w dmg Hin). eexists. split; [reflexivity |].
    world_simpl. split; [apply aiFrame_same; auto |]. split; [reflexivity |].
    split; [lia | left; split; reflexivity].
  - apply Qle_not_lt in Hout.
    destruct (applyDamageToPlayer_accepted E w dmg Hout)
      as (w' & Hrun & Ht & Hh & Hv & Hg & _).
    exists w'. split; [assumption |].
    assert (Hhit : nowIdx w' = S (nowIdx w) /\ hitWith E dmg w w').
    { assert (Hn : nowIdx w' = S (nowIdx w)).
      { revert Hrun. unfold applyDamageToPlayer. sim_unfold. world_simpl.
        destruct (Qlt_bool _ _); [intros [= <-]; reflexivity |]. world_simpl.
        destruct (_ <=? 0)%Z; intros [= <-]; reflexivity. }
      split; [assumption |]. exists (nowIdx w). rewrite Hn. auto 10. }
    destruct Hhit as [Hn Hhit].
    revert Hrun. unfold applyDamageToPlayer. sim_unfold. world_simpl.
    pose proof Hout as Hout'.
    rewrite <- Qlt_bool_iff in Hout'. apply not_true_is_false in Hout'. rewrite Hout'.
    world_simpl.
    destruct (Z.leb_spec (Player.health (player w) - dmg) 0); intros Heq;
      injection Heq as Heq; rewrite <- Heq in *; world_simpl;
      (split; [apply aiFrame_same; world_simpl; try reflexivity; lia |]);
      (split; [reflexivity |]); (split; [lia |]); right; exact Hhit.
Qed.

Lemma attemptEnemyShot_aiFrame (e : nat) (en : Enemy.t) (playerPos : Vec3) (w : World) :
  store w !! e = Some en ->
  exists w',
    attemptEnemyShot E e playerPos w = Some (tt, w') /\
    aiFrame w w' /\ store w' = store w /\
    (nowIdx w <= nowIdx w' <= S (nowIdx w))%nat /\
    (player w' = player w \/
     exists i, hitWith E (randInt_double (Math_random E i) 6 14) w w').
Proof.
  intros Hen. unfold attemptEnemyShot. sim_unfold. rewrite Hen. world_simpl.
  destruct (Qlt_bool _ _).
  - match goal with
    | |- context [applyDamageToPlayer E ?d ?w1] =>
        destruct (applyDamageToPlayer_aiFrame d w1) as (w' & Hrun & Hf & Hs & Hn & Hp);
          rewrite Hrun
    end.
    exists w'. split; [reflexivity |]. world_simpl_all.
    split; [eapply aiFrame_trans; [| exact Hf]; apply aiFrame_same; auto |].
    split; [assumption |]. split; [assumption |].
    destruct Hp as [[Hp _] | Hp]; [now left | right]. eexists. exact Hp.
  - eexists. split; [reflexivity |]. world_simpl.
    split; [apply aiFrame_same; auto |]. split; [reflexivity |].
    split; [lia | left; reflexivity].
Qed.

End EnemyShots.

Lemma clamp_enemy_bounds (v : Q) :
  - (1580) <= clamp v (- WORLD_SIZE / 2 + 20) (WORLD_SIZE / 2 - 20) /\
  clamp v (- WORLD_SIZE / 2 + 20) (WORLD_SIZE / 2 - 20) <= 1580.
Proof.
  destruct (clamp_bounds v (- WORLD_SIZE / 2 + 20) (WORLD_SIZE / 2 - 20)) as [Hlo Hhi];
    [discriminate |].
  split.
  - eapply Qle_trans; [| exact Hlo]. discriminate.
  - eapply Qle_trans; [exact Hhi |]. discriminate.
Qed.

(** A world that differs from [w] in the record of enemy [e] at most, and
    there in neither health nor mesh. *)
Lemma aiFrame_one_enemy (e : nat) (w w' : World) :
  currentWeaponIndex w' = currentWeaponIndex w ->
  weaponState w' = weaponState w ->
  enemyManager w' = enemyManager w ->
  camera w' = camera w ->
  nextRef w' = nextRef w ->
  input w' = input w ->
  player w' = player w ->
  (forall x, x <> e -> store w' !! x = store w !! x) ->
  (exists a b, store w !! e = Some a /\ store w' !! e = Some b /\ sameBody a b) ->
  aiFrame w w'.
Proof.
  intros ? ? ? ? ? ? Hp Hother (a & b & Ha & Hb & Hab). split; try assumption;
    try (now rewrite Hp).
  intros x. destruct (decide (x = e)) as [-> | Hne].
  - now rewrite Ha, Hb.
  - rewrite (Hother x Hne). destruct (store w !! x); [apply sameBody_refl | exact I].
Qed.

Ltac enemy_simpl :=
  cbn [set_state set_nextWanderTime set_wanderDir set_enemyLastShotTime set_enemyPosition
       Enemy.mesh Enemy.health Enemy.state Enemy.nextWanderTime Enemy.wanderDir
       Enemy.lastShotTime Enemy.position Enemy.barScale Enemy.barGreen fmap option_fmap
       option_map].

Section EnemyLoop.

Variable E : Env.

(** One iteration of the loop of [updateEnemies], on enemy [e]. *)
Lemma updateEnemy_spec (delta t : Q) (playerPos : Vec3) (e : nat) (en : Enemy.t) (w : World) :
  store w !! e = Some en ->
  let dist := Vector3_length E (vsub playerPos (Enemy.position en)) in
  exists w' en',
    updateEnemy E delta t playerPos e w = Some (tt, w') /\
    aiFrame w w' /\
    (nowIdx w <= nowIdx w' <= S (nowIdx w))%nat /\
    store w' !! e = Some en' /\
    (forall x, x <> e -> store w' !! x = store w !! x) /\
    Enemy.state en' = modeAt dist /\
    inEnemyBounds (Enemy.position en') /\
    (~ (dist < 700 /\ 800 <= fl (t - Enemy.lastShotTime en)) ->
     player w' = player w /\ timers w' = timers w /\ nowIdx w' = nowIdx w) /\
    (player w' = player w \/
     exists i, hitWith E (randInt_double (Math_random E i) 6 14) w w').
Proof.
  intros Hen dist. unfold updateEnemy.
  rewrite (bind_eval (gets (fun w => store w !! e)) _ w (Some en) w)
    by (unfold gets; now rewrite Hen).
  rewrite (bind_eval (defined (Some en)) _ w en w eq_refl).
  cbv zeta. fold dist.
  set (toPlayer := Vector3_normalize E (vsub playerPos (Enemy.position en))).
  set (w1 := set_store (alter (set_state (modeAt dist)) e (store w)) w).
  rewrite (bind_eval (updEnemy e (set_state (modeAt dist))) _ w tt w1 eq_refl).
  assert (Hen1 : store w1 !! e = Some (set_state (modeAt dist) en)).
  { subst w1. world_simpl. now rewrite lookup_alter_eq, Hen. }
  assert (Hother1 : forall x, x <> e -> store w1 !! x = store w !! x).
  { intros x Hx. subst w1. world_simpl. now rewrite lookup_alter_ne by auto. }
  match goal with
  | |- context [bind ?M _ w1] =>
      assert (Hmid : exists w2 en2,
        M w1 = Some (tt, w2) /\
        aiFrame w w2 /\ (nowIdx w <= nowIdx w2 <= S (nowIdx w))%nat /\
        store w2 !! e = Some en2 /\ Enemy.state en2 = modeAt dist /\
        (forall x, x <> e -> store w2 !! x = store w !! x) /\
        (~ (dist < 700 /\ 800 <= fl (t - Enemy.lastShotTime en)) ->
         player w2 = player w /\ timers w2 = timers w /\ nowIdx w2 = nowIdx w) /\
        (player w2 = player w \/
         exists i, hitWith E (randInt_double (Math_random E i) 6 14) w w2))
  end.
  { subst w1. world_simpl_all. destruct (modeAt dist) eqn:Hmode.
    - (* patrol *)
      unfold updEnemy; sim_unfold. destruct (Qlt_bool (Enemy.nextWanderTime en) t);
        eexists; eexists; (split; [reflexivity |]); world_simpl;
        rewrite ?lookup_alter_eq, Hen; enemy_simpl;
        (split; [apply (aiFrame_one_enemy e); world_simpl; try reflexivity;
                 [intros x Hx; rewrite ?lookup_alter_ne by auto; reflexivity
                 | eexists; eexists; split; [exact Hen |];
                   rewrite ?lookup_alter_eq, Hen; enemy_simpl;
                   split; [reflexivity | split; reflexivity]] |]);
        (split; [lia |]); (split; [reflexivity |]); (split; [reflexivity |]);
        (split; [intros x Hx; rewrite ?lookup_alter_ne by auto; reflexivity |]);
        (split; [intros _; repeat split | now left]).
    - (* chase *)
      unfold updEnemy; sim_unfold.
      eexists; eexists; (split; [reflexivity |]); world_simpl;
        rewrite ?lookup_alter_eq, Hen; enemy_simpl;
        (split; [apply (aiFrame_one_enemy e); world_simpl; try reflexivity;
                 [intros x Hx; rewrite ?lookup_alter_ne by auto; reflexivity
                 | eexists; eexists; split; [exact Hen |];
                   rewrite ?lookup_alter_eq, Hen; enemy_simpl;
                   split; [reflexivity | split; reflexivity]] |]);
        (split; [lia |]); (split; [reflexivity |]); (split; [reflexivity |]);
        (split; [intros x Hx; rewrite ?lookup_alter_ne by auto; reflexivity |]);
        (split; [intros _; repeat split | now left]).
    - (* attack *)
      assert (Hnear : dist < 700).
      { revert Hmode. unfold modeAt. destruct (Qlt_bool dist 700) eqn:Hd;
          [intros _; now apply Qlt_bool_iff |].
        destruct (Qlt_bool dist 1100); discriminate. }
      unfold updEnemy; sim_unfold. world_simpl.
      destruct (Qle_bool 800 (fl (t - Enemy.lastShotTime en))) eqn:Hcool.
      + cbv beta iota. world_simpl.
        match goal with
        | |- context [attemptEnemyShot E e playerPos ?wA] =>
            set (w3 := wA);
            assert (Hen3 : exists en3, store w3 !! e = Some en3 /\
                                       sameBody en en3 /\ Enemy.state en3 = Attack)
        end.
        { subst w3. world_simpl. rewrite !lookup_alter_eq, Hen. enemy_simpl.
          eexists. split; [reflexivity |]. split; [split; reflexivity | reflexivity]. }
        destruct Hen3 as (en3 & Hen3 & Hbody & Hst3).
        assert (Hf3 : aiFrame w w3).
        { apply (aiFrame_one_enemy e); subst w3; world_simpl; try reflexivity.
          - intros x Hx. now rewrite !lookup_alter_ne by auto.
          - exists en, en3. auto. }
        destruct (attemptEnemyShot_aiFrame E e en3 playerPos w3 Hen3)
          as (w2 & Hrun & Hf & Hs & Hn & Hp).
        exists w2, en3. split; [exact Hrun |].
        split; [eapply aiFrame_trans; eassumption |].
        split; [subst w3; world_simpl_all; lia |].
        rewrite Hs. split; [assumption |]. split; [assumption |].
        split.
        { intros x Hx. subst w3. world_simpl. now rewrite !lookup_alter_ne by auto. }
        split; [intros Hno; exfalso; apply Hno;
                split; [assumption | now apply Qle_bool_iff] |].
        exact Hp.
      + eexists; eexists; (split; [reflexivity |]); world_simpl;
        rewrite ?lookup_alter_eq, Hen; enemy_simpl;
        (split; [apply (aiFrame_one_enemy e); world_simpl; try reflexivity;
                 [intros x Hx; rewrite ?lookup_alter_ne by auto; reflexivity
                 | eexists; eexists; split; [exact Hen |];
                   rewrite ?lookup_alter_eq, Hen; enemy_simpl;
                   split; [reflexivity | split; reflexivity]] |]);
        (split; [lia |]); (split; [reflexivity |]); (split; [reflexivity |]);
        (split; [intros x Hx; rewrite ?lookup_alter_ne by auto; reflexivity |]);
        (split; [intros _; repeat split | now left]). }
  destruct Hmid as (w2 & en2 & Hrun & Hf2 & Hn2 & Hen2 & Hst2 & Hother2 & Hquiet & Hhit).
  rewrite (bind_eval _ _ w1 tt w2 Hrun). clear Hrun Hen1 Hother1. clearbody w1.
  unfold updEnemy; sim_unfold. world_simpl. eexists. eexists. split; [reflexivity |]. world_simpl.
  rewrite !lookup_alter_eq, Hen2. enemy_simpl.
  split.
  { eapply aiFrame_trans; [exact Hf2 |].
    apply (aiFrame_one_enemy e); world_simpl; try reflexivity.
    - intros x Hx. now rewrite !lookup_alter_ne by auto.
    - eexists; eexists. split; [exact Hen2 |]. rewrite !lookup_alter_eq, Hen2. enemy_simpl.
      split; [reflexivity | split; reflexivity]. }
  split; [assumption |]. split; [reflexivity |].
  split; [intros x Hx; rewrite !lookup_alter_ne by auto; now apply Hother2 |].
  split; [assumption |]. split; [| split; assumption].
  unfold inEnemyBounds. cbn [vx vz]. split; apply clamp_enemy_bounds.
Qed.

(** The whole loop, over a list [l] of enemies that exist. *)
Lemma forEach_updateEnemy_spec (delta t : Q) (playerPos : Vec3) (l : list nat) (w : World) :
  (forall e, e ∈ l -> is_Some (store w !! e)) ->
  exists w',
    forEach l (updateEnemy E delta t playerPos) w = Some (tt, w') /\
    aiFrame w w' /\
    (nowIdx w <= nowIdx w')%nat /\
    (forall x, x ∉ l -> store w' !! x = store w !! x) /\
    (forall e, e ∈ l ->
       exists en', store w' !! e = Some en' /\ inEnemyBounds (Enemy.position en')) /\
    (NoDup l ->
     forall e en, e ∈ l -> store w !! e = Some en ->
       exists en', store w' !! e = Some en' /\
         Enemy.state en' =
           modeAt (Vector3_length E (vsub playerPos (Enemy.position en)))) /\
    (NoDup l ->
     (forall e en, e ∈ l -> store w !! e = Some en ->
        ~ (Vector3_length E (vsub playerPos (Enemy.position en)) < 700 /\
           800 <= fl (t - Enemy.lastShotTime en))) ->
     player w' = player w /\ timers w' = timers w /\ nowIdx w' = nowIdx w).
Proof.
  revert w. induction l as [| a l IH]; intros w Hall.
  - exists w. split; [reflexivity |]. split; [apply aiFrame_refl |]. split; [lia |].
    split; [reflexivity |]. split; [intros e He; now apply elem_of_nil in He |].
    split; [intros _ e en He; now apply elem_of_nil in He | auto].
  - destruct (Hall a) as [en Hen]; [now left |].
    destruct (updateEnemy_spec delta t playerPos a en w Hen)
      as (w1 & en1 & Hrun1 & Hf1 & Hn1 & Hen1 & Hother1 & Hst1 & Hb1 & Hq1 & Hhit1).
    assert (Hall1 : forall e, e ∈ l -> is_Some (store w1 !! e)).
    { intros e He. destruct (Hall e) as [ex Hex]; [now right |].
      pose proof (ai_store w w1 Hf1 e) as Hs. rewrite Hex in Hs.
      destruct (store w1 !! e); [eauto | contradiction]. }
    destruct (IH w1 Hall1) as (w' & Hrun & Hf & Hn & Hother & Hb & Hst & Hq).
    exists w'. split; [cbn [forEach]; now rewrite (bind_eval _ _ w tt w1 Hrun1) |].
    split; [eapply aiFrame_trans; eassumption |]. split; [lia |].
    split.
    { intros x Hx. apply not_elem_of_cons in Hx as [Hxa Hxl].
      rewrite (Hother x Hxl). now apply Hother1. }
    split.
    { intros e He. destruct (decide (e ∈ l)) as [Hin | Hnin]; [now apply Hb |].
      apply elem_of_cons in He as [-> | He]; [| contradiction].
      rewrite (Hother a Hnin). eauto. }
    split.
    { intros Hnd e ex He Hex. apply NoDup_cons in Hnd as [Ha Hnd].
      apply elem_of_cons in He as [-> | He].
      - rewrite (Hother a Ha). assert (ex = en) by congruence. subst ex. eauto.
      - apply (Hst Hnd e ex He). rewrite Hother1; [assumption |]. intros ->. contradiction. }
    intros Hnd Hquiet. apply NoDup_cons in Hnd as [Ha Hnd].
    destruct (Hq1 (Hquiet a en ltac:(now left) Hen)) as (Hp1 & Ht1 & Hi1).
    destruct (Hq Hnd) as (Hp & Ht & Hi).
    { intros e ex He Hex. apply (Hquiet e ex); [now right |].
      rewrite <- Hother1; [assumption |]. intros ->. contradiction. }
    repeat split; congruence.
Qed.

(** Under a clock whose readings [n0 .. m] are less than 200 ms apart, the
    loop lets at most one shot through the player's damage window. *)
Lemma forEach_updateEnemy_one_hit (n0 m : nat) (delta t : Q) (playerPos : Vec3) :
  (forall j k, (n0 <= j)%nat -> (j <= k)%nat -> (k <= m)%nat ->
     fl (performance_now E k - performance_now E j) < 200) ->
  forall (l : list nat) (w w' : World),
  (forall e, e ∈ l -> is_Some (store w !! e)) ->
  (n0 <= nowIdx w)%nat -> (nowIdx w + length l <= S m)%nat ->
  forEach l (updateEnemy E delta t playerPos) w = Some (tt, w') ->
  (nowIdx w <= nowIdx w' <= nowIdx w + length l)%nat /\
  ((exists j, (n0 <= j < nowIdx w)%nat /\
              Player.lastDamageTime (player w) = performance_now E j) ->
   player w' = player w) /\
  (player w' = player w \/
   exists i, hitWith E (randInt_double (Math_random E i) 6 14) w w').
Proof.
  intros Hclose. induction l as [| a l IH]; intros w w' Hall Hn0 Hm Hrun.
  - cbn [forEach] in Hrun. injection Hrun as Hrun. subst w'. cbn [length].
    split; [lia |]. split; [reflexivity | now left].
  - cbn [length] in *. destruct (Hall a) as [en Hen]; [now left |].
    destruct (updateEnemy_spec delta t playerPos a en w Hen)
      as (w1 & en1 & Hrun1 & Hf1 & Hn1 & _ & _ & _ & _ & _ & Hhit1).
    assert (Hall1 : forall e, e ∈ l -> is_Some (store w1 !! e)).
    { intros e He. destruct (Hall e) as [ex Hex]; [now right |].
      pose proof (ai_store w w1 Hf1 e) as Hs. rewrite Hex in Hs.
      destruct (store w1 !! e); [eauto | contradiction]. }
    cbn [forEach] in Hrun. rewrite (bind_eval _ _ w tt w1 Hrun1) in Hrun.
    destruct (IH w1 w' Hall1 ltac:(lia) ltac:(lia) Hrun) as (Hb & Ha & Hd).
    split; [lia |]. split.
    + intros (j & Hj & Hlast). destruct Hhit1 as [Hp1 | (i & k & Hk & Hnot & _)].
      * rewrite <- Hp1. apply Ha. exists j. rewrite Hp1. split; [lia | assumption].
      * exfalso. apply Hnot. rewrite Hlast. apply Hclose; lia.
    + destruct Hhit1 as [Hp1 | (i & k & Hk & Hnot & Hl & Hh & Hv & Hg)].
      * destruct Hd as [Hp | (i & k & Hk & Hnot & Hl & Hh & Hv & Hg)].
        -- left. congruence.
        -- right. exists i, k. rewrite <- Hp1.
           split; [lia |]. split; [assumption |]. auto.
      * right. exists i, k.
        assert (Hp : player w' = player w1)
          by (apply Ha; exists k; split; [lia | assumption]).
        rewrite Hp. split; [lia |]. split; [assumption |]. auto.
Qed.

Lemma updateEnemies_eq (delta : Q) (w : World) :
  updateEnemies E delta w =
  forEach (EnemyManager.enemies (enemyManager w))
    (updateEnemy E delta (performance_now E (nowIdx w)) (Camera.position (camera w)))
    (set_nowIdx (S (nowIdx w)) w).
Proof. reflexivity. Qed.

(** X17. One pass of [updateEnemies] over a sound registry returns and
    keeps it sound: it changes no enemy's health, no list of the registry
    and no weapon; afterwards every listed enemy is inside
    [-1580, 1580] on x and on z, and its behaviour state is the one its
    distance to the player (as measured at the start of the pass) selects:
    attack below 700, chase below 1100, patrol from 1100 on. A
    non-negative player health stays non-negative. *)
Theorem updateEnemies_keeps_registry (delta : Q) (w : World) :
  wf w -> registryOk w ->
  exists w',
    updateEnemies E delta w = Some (tt, w') /\
    wf w' /\ registryOk w' /\
    enemyManager w' = enemyManager w /\
    weaponState w' = weaponState w /\
    (forall e, e ∈ EnemyManager.enemies (enemyManager w) ->
       exists en en',
         store w !! e = Some en /\ store w' !! e = Some en' /\
         Enemy.health en' = Enemy.health en /\
         inEnemyBounds (Enemy.position en') /\
         Enemy.state en' =
           modeAt (Vector3_length E
                     (vsub (Camera.position (camera w)) (Enemy.position en)))) /\
    ((0 <= Player.health (player w))%Z -> (0 <= Player.health (player w'))%Z).
Proof.
  intros Hwf Hreg. rewrite updateEnemies_eq.
  set (w0 := set_nowIdx (S (nowIdx w)) w).
  assert (Hf0 : aiFrame w w0) by (apply aiFrame_same; auto).
  destruct (forEach_updateEnemy_spec delta (performance_now E (nowIdx w))
              (Camera.position (camera w)) (EnemyManager.enemies (enemyManager w)) w0)
    as (w' & Hrun & Hf & _ & _ & Hb & Hst & _).
  { intros e He. destruct (reg_listed w Hreg e He) as (en & Hen & _). eauto. }
  assert (Hfw : aiFrame w w') by (eapply aiFrame_trans; eassumption).
  exists w'. split; [assumption |].
  split; [exact (aiFrame_wf w w' Hfw Hwf) |].
  split; [exact (aiFrame_registryOk w w' Hfw Hreg) |].
  split; [apply (ai_enemyManager w w' Hfw) |].
  split; [apply (ai_weaponState w w' Hfw) |].
  split; [| apply (ai_health w w' Hfw)].
  intros e He. destruct (reg_listed w Hreg e He) as (en & Hen & _).
  destruct (Hst (reg_nodup w Hreg) e en He Hen) as (en' & Hen' & Hmode).
  destruct (Hb e He) as (en'' & Hen'' & Hbounds).
  assert (en'' = en') by congruence. subst en''.
  exists en, en'. split; [assumption |]. split; [assumption |].
  pose proof (ai_store w w' Hfw e) as Hs. rewrite Hen, Hen' in Hs. destruct Hs as [Hh _].
  auto.
Qed.

(** X18. Enemies fire only in attack range and off cooldown: if, at the
    start of a pass, every listed enemy either is measured at distance 700
    or more from the player or has fired less than 800 ms before the pass's
    clock reading (the difference being the double the code computes),
    then the pass leaves the player (health included) and the pending
    timers exactly as they were. *)
Theorem updateEnemies_no_shot_from_afar (delta : Q) (w : World) :
  let t := performance_now E (nowIdx w) in
  wf w -> registryOk w ->
  (forall e en, e ∈ EnemyManager.enemies (enemyManager w) -> store w !! e = Some en ->
     700 <= Vector3_length E (vsub (Camera.position (camera w)) (Enemy.position en)) \/
     fl (t - Enemy.lastShotTime en) < 800) ->
  exists w',
    updateEnemies E delta w = Some (tt, w') /\
    player w' = player w /\ timers w' = timers w.
Proof.
  intros t Hwf Hreg Hfar. rewrite updateEnemies_eq. fold t.
  set (w0 := set_nowIdx (S (nowIdx w)) w).
  destruct (forEach_updateEnemy_spec delta t
              (Camera.position (camera w)) (EnemyManager.enemies (enemyManager w)) w0)
    as (w' & Hrun & _ & _ & _ & _ & _ & Hq).
  { intros e He. destruct (reg_listed w Hreg e He) as (en & Hen & _). eauto. }
  exists w'. split; [assumption |].
  destruct (Hq (reg_nodup w Hreg)) as (Hp & Ht & _); [| auto].
  intros e en He Hen [Hnear Hcool]. destruct (Hfar e en He Hen) as [Hd | Hc].
  - exact (Qlt_not_le _ _ Hnear Hd).
  - exact (Qlt_not_le _ _ Hc Hcool).
Qed.

(** X19. At most one enemy shot lands per pass: when the clock readings a
    pass can make (one at its start and at most one per listed enemy) are
    less than 200 ms apart, as the code measures the difference of two of
    them, [updateEnemies] either leaves the player record as it was, or
    exactly one shot was accepted, which took [randInt(6, 14)] points,
    between 6 and 14 (health floored at 0), and left the player's velocity
    and ground flag alone. So a pass costs the player at most 14 health,
    however many enemies fire. *)
Theorem updateEnemies_at_most_one_hit (delta : Q) (w : World) :
  let n := nowIdx w in
  registryOk w ->
  (forall k, 0 <= Math_random E k /\ Math_random E k < 1) ->
  (forall j k, (n <= j)%nat -> (j <= k)%nat ->
     (k <= n + length (EnemyManager.enemies (enemyManager w)))%nat ->
     fl (performance_now E k - performance_now E j) < 200) ->
  exists w',
    updateEnemies E delta w = Some (tt, w') /\
    (player w' = player w \/
     exists dmg,
       (6 <= dmg <= 14)%Z /\
       Player.health (player w') = Z.max 0 (Player.health (player w) - dmg) /\
       Player.velocity (player w') = Player.velocity (player w) /\
       Player.onGround (player w') = Player.onGround (player w)) /\
    (Player.health (player w) - 14 <= Player.health (player w'))%Z.
Proof.
  intros n Hreg Hrnd Hclose. rewrite updateEnemies_eq.
  set (w0 := set_nowIdx (S (nowIdx w)) w).
  set (l := EnemyManager.enemies (enemyManager w)) in *.
  assert (Hall : forall e, e ∈ l -> is_Some (store w0 !! e)).
  { intros e He. destruct (reg_listed w Hreg e He) as (en & Hen & _). eauto. }
  destruct (forEach_updateEnemy_spec delta (performance_now E (nowIdx w))
              (Camera.position (camera w)) l w0 Hall) as (w' & Hrun & _).
  exists w'. split; [assumption |].
  destruct (forEach_updateEnemy_one_hit n (n + length l) delta
              (performance_now E (nowIdx w)) (Camera.position (camera w))
              Hclose l w0 w' Hall) as (_ & _ & Hd);
    [subst w0 n; world_simpl; lia | subst w0 n; world_simpl; lia | assumption |].
  destruct Hd as [Hp | (i & k & Hk & Hnot & Hl & Hh & Hv & Hg)].
  - subst w0. world_simpl_all. split; [now left |]. rewrite Hp. lia.
  - subst w0. world_simpl_all.
    assert (Hdmg : (6 <= randInt_double (Math_random E i) 6 14 <= 14)%Z).
    { destruct (Hrnd i) as [H0 H1].
      exact (randInt_6_14_doubles (Math_random E i) H0 H1). }
    split; [right; exists (randInt_double (Math_random E i) 6 14); split; [lia | auto] | lia].
Qed.

End EnemyLoop.

(** ** The game loop *)

Section GameLoop.

Variable E : Env.
Variable defs : list WeaponDef.t.

Lemma updateEnemies_aiFrame (delta : Q) (w : World) :
  registryOk w ->
  exists w', updateEnemies E delta w = Some (tt, w') /\ aiFrame w w'.
Proof.
  intros Hreg. rewrite updateEnemies_eq.
  set (w0 := set_nowIdx (S (nowIdx w)) w).
  destruct (forEach_updateEnemy_spec E delta (performance_now E (nowIdx w))
              (Camera.position (camera w)) (EnemyManager.enemies (enemyManager w)) w0)
    as (w' & Hrun & Hf & _).
  { intros e He. destruct (reg_listed w Hreg e He) as (en & Hen & _). eauto. }
  exists w'. split; [assumption |].
  eapply aiFrame_trans; [| exact Hf]. apply aiFrame_same; auto.
Qed.

(** X20. A frame of the game loop never breaks the game: with a sound
    registry and an equipped weapon that exists, [animate] returns for
    every frame time and input; afterwards the registry is still sound,
    the same weapon is equipped, the player is inside the world
    ([-1590, 1590] on x and z, y at least 24) and a non-negative health is
    still non-negative. The loop fires only for a held trigger on an
    automatic weapon: with the trigger up, or a semi-automatic weapon
    equipped, the frame changes no weapon's ammunition, reserve,
    last-shot time or reload flag. *)
Theorem animate_keeps_invariants (rawDelta : Q) (w : World) (d : WeaponDef.t) (s : WeaponState.t) :
  wf w -> registryOk w ->
  defs !! currentWeaponIndex w = Some d ->
  weaponState w !! currentWeaponIndex w = Some s ->
  exists w',
    animate E defs rawDelta w = Some (tt, w') /\
    wf w' /\ registryOk w' /\
    currentWeaponIndex w' = currentWeaponIndex w /\
    (- (1590) <= vx (Camera.position (camera w')) /\
     vx (Camera.position (camera w')) <= 1590 /\
     - (1590) <= vz (Camera.position (camera w')) /\
     vz (Camera.position (camera w')) <= 1590 /\
     24 <= vy (Camera.position (camera w'))) /\
    ((0 <= Player.health (player w))%Z -> (0 <= Player.health (player w'))%Z) /\
    (Input.shooting (input w) = false \/ WeaponDef.auto d = false ->
     weaponState w' = weaponState w).
Proof.
  intros Hwf Hreg Hd Hs. unfold animate. cbv zeta.
  set (delta := clamp rawDelta 0 (5 # 100)).
  destruct (updateMovement_spec E delta w)
    as (w1 & Hrun1 & Hx1 & Hx2 & Hz1 & Hz2 & Hy & Hh1 & _ & Hws1 & Hm1 & Hst1 & _ & _ &
        Hn1 & Hc1 & Hi1 & _).
  assert (Hwf1 : wf w1) by (apply (wf_same w _ Hwf); assumption).
  assert (Hreg1 : registryOk w1) by (apply (registryOk_ext w _ Hreg); assumption).
  rewrite (bind_eval _ _ w tt w1 Hrun1).
  rewrite (bind_eval (gets input) _ w1 (input w1) w1 eq_refl).
  match goal with
  | |- context [bind ?M _ w1] =>
      assert (Hmid : exists w2,
        M w1 = Some (tt, w2) /\ wf w2 /\ registryOk w2 /\
        camera w2 = camera w1 /\ player w2 = player w1 /\
        currentWeaponIndex w2 = currentWeaponIndex w1 /\
        (Input.shooting (input w) = false \/ WeaponDef.auto d = false ->
         weaponState w2 = weaponState w1))
  end.
  { rewrite Hi1. destruct (Input.shooting (input w)) eqn:Hsh.
    - unfold getCurrentWeaponDef.
      rewrite (bind_eval (gets (fun w => defs !! currentWeaponIndex w)) _ w1 (Some d) w1)
        by (unfold gets; now rewrite Hc1, Hd).
      rewrite (bind_eval (defined (Some d)) _ w1 d w1 eq_refl).
      destruct (WeaponDef.auto d) eqn:Hauto.
      + destruct (shoot_registry_frame E defs w1 d s Hwf1 Hreg1)
          as (w2 & Hrun2 & Hwf2 & Hreg2 & Hcam & Hp & _ & Hc2);
          [now rewrite Hc1 | now rewrite Hc1, Hws1 |].
        exists w2. split; [assumption |]. split; [assumption |]. split; [assumption |].
        split; [assumption |]. split; [assumption |]. split; [assumption |].
        intros [Hno | Hno]; discriminate.
      + exists w1. split; [reflexivity |]. auto 10.
    - exists w1. split; [reflexivity |]. auto 10. }
  destruct Hmid as (w2 & Hrun2 & Hwf2 & Hreg2 & Hcam2 & Hp2 & Hc2 & Hws2).
  rewrite (bind_eval _ _ w1 tt w2 Hrun2).
  destruct (updateEnemies_aiFrame delta w2 Hreg2) as (w3 & Hrun3 & Hf3).
  exists w3. split; [assumption |].
  split; [exact (aiFrame_wf w2 w3 Hf3 Hwf2) |].
  split; [exact (aiFrame_registryOk w2 w3 Hf3 Hreg2) |].
  split; [rewrite (ai_currentWeaponIndex w2 w3 Hf3); congruence |].
  split; [rewrite (ai_camera w2 w3 Hf3), Hcam2; auto |].
  split.
  - intros Hh. apply (ai_health w2 w3 Hf3). rewrite Hp2, Hh1. assumption.
  - intros Hno. rewrite (ai_weaponState w2 w3 Hf3), (Hws2 Hno). assumption.
Qed.

(** X21. The loop fires at most one round per frame: whatever the input
    and the weapon, a frame leaves the equipped weapon's magazine as it was
    or one round lower, and its reserve as it was. With the trigger held on
    an automatic weapon of non-zero [rpm] that is not reloading, has a
    round left and whose gate is open at the frame's first clock reading
    ([now - lastShotTime >= 60000 / rpm] as the code computes the two
    doubles), the frame fires exactly one round. *)
Theorem animate_fires_at_most_one_round
    (rawDelta : Q) (w : World) (d : WeaponDef.t) (s : WeaponState.t) :
  let i := currentWeaponIndex w in
  wf w -> registryOk w ->
  defs !! i = Some d ->
  weaponState w !! i = Some s ->
  exists w' s',
    animate E defs rawDelta w = Some (tt, w') /\
    weaponState w' !! i = Some s' /\
    (WeaponState.ammo s - 1 <= WeaponState.ammo s' <= WeaponState.ammo s)%Z /\
    WeaponState.reserve s' = WeaponState.reserve s /\
    (Input.shooting (input w) = true -> WeaponDef.auto d = true ->
     WeaponState.reloading s = false -> (0 < WeaponState.ammo s)%Z ->
     ~ WeaponDef.rpm d == 0 ->
     fl (60000 / WeaponDef.rpm d) <=
       fl (performance_now E (nowIdx w) - WeaponState.lastShotTime s) ->
     WeaponState.ammo s' = (WeaponState.ammo s - 1)%Z).
Proof.
  intros i Hwf Hreg Hd Hs. subst i. unfold animate. cbv zeta.
  set (delta := clamp rawDelta 0 (5 # 100)).
  destruct (updateMovement_spec E delta w)
    as (w1 & Hrun1 & _ & _ & _ & _ & _ & _ & _ & Hws1 & Hm1 & Hst1 & _ & _ &
        Hn1 & Hc1 & Hi1 & Hnow1).
  assert (Hwf1 : wf w1) by (apply (wf_same w _ Hwf); assumption).
  assert (Hreg1 : registryOk w1) by (apply (registryOk_ext w _ Hreg); assumption).
  assert (Hd1 : defs !! currentWeaponIndex w1 = Some d) by now rewrite Hc1.
  assert (Hs1 : weaponState w1 !! currentWeaponIndex w1 = Some s) by now rewrite Hc1, Hws1.
  rewrite (bind_eval _ _ w tt w1 Hrun1).
  rewrite (bind_eval (gets input) _ w1 (input w1) w1 eq_refl).
  match goal with
  | |- context [bind ?M _ w1] =>
      assert (Hmid : exists w2 s2,
        M w1 = Some (tt, w2) /\ registryOk w2 /\
        weaponState w2 !! currentWeaponIndex w = Some s2 /\
        (WeaponState.ammo s - 1 <= WeaponState.ammo s2 <= WeaponState.ammo s)%Z /\
        WeaponState.reserve s2 = WeaponState.reserve s /\
        (Input.shooting (input w) = true -> WeaponDef.auto d = true ->
         WeaponState.reloading s = false -> (0 < WeaponState.ammo s)%Z ->
         ~ WeaponDef.rpm d == 0 ->
         fl (60000 / WeaponDef.rpm d) <=
           fl (performance_now E (nowIdx w) - WeaponState.lastShotTime s) ->
         WeaponState.ammo s2 = (WeaponState.ammo s - 1)%Z))
  end.
  { rewrite Hi1. destruct (Input.shooting (input w)) eqn:Hsh.
    - unfold getCurrentWeaponDef.
      rewrite (bind_eval (gets (fun w => defs !! currentWeaponIndex w)) _ w1 (Some d) w1)
        by (unfold gets; now rewrite Hd1).
      rewrite (bind_eval (defined (Some d)) _ w1 d w1 eq_refl).
      destruct (WeaponDef.auto d) eqn:Hauto.
      + destruct (shoot_registry_frame E defs w1 d s Hwf1 Hreg1 Hd1 Hs1)
          as (w2 & Hrun2 & _ & Hreg2 & _).
        destruct (shoot_ammo_step E defs w1 d s Hwf1 Hd1 Hs1)
          as (w2' & s2 & Hrun2' & _ & _ & Hs2 & _ & Hres & Hstep).
        assert (w2' = w2) by congruence. subst w2'. rewrite Hc1 in Hs2.
        exists w2, s2. split; [assumption |]. split; [assumption |].
        split; [assumption |]. split; [lia |]. split; [assumption |].
        intros _ _ Hr Ha Hrpm Hgate. rewrite <- Hnow1 in Hgate.
        apply (gateOpen_iff d _ _ Hrpm) in Hgate.
        destruct (shoot_once E defs w1 d s Hd1 Hs1 Hwf1 Hr Ha Hgate)
          as (w2' & segs & Hrun2'' & _ & _ & _ & Hfired & _).
        assert (w2' = w2) by congruence. subst w2'. rewrite Hc1, Hs2 in Hfired.
        injection Hfired as Hfired. rewrite Hfired. reflexivity.
      + exists w1, s. split; [reflexivity |]. split; [assumption |].
        rewrite <- Hc1. split; [assumption |]. split; [lia |]. split; [reflexivity |].
        intros _ Hno. discriminate.
    - exists w1, s. split; [reflexivity |]. split; [assumption |].
      rewrite <- Hc1. split; [assumption |]. split; [lia |]. split; [reflexivity |].
      intros Hno. discriminate. }
  destruct Hmid as (w2 & s2 & Hrun2 & Hreg2 & Hs2 & Hbounds & Hres & Hfire).
  rewrite (bind_eval _ _ w1 tt w2 Hrun2).
  destruct (updateEnemies_aiFrame delta w2 Hreg2) as (w3 & Hrun3 & Hf3).
  exists w3, s2. split; [assumption |].
  rewrite (ai_weaponState w2 w3 Hf3). auto.
Qed.

End GameLoop.

(** ** Utilities *)

(** X22. [choose] never reads past the array: when [Math.random()]
    answers within [0, 1), [choose(arr)] draws once and returns an element
    of [arr] for every non-empty array; on the empty array it returns
    [undefined]. *)
Theorem choose_returns_element {A : Type} (E : Env) (arr : list A) (w : World) :
  0 <= Math_random E (rndIdx w) -> Math_random E (rndIdx w) < 1 ->
  exists o,
    choose E arr w = Some (o, set_rndIdx (S (rndIdx w)) w) /\
    (arr = [] -> o = None) /\
    (arr <> [] -> exists x, o = Some x /\ x ∈ arr).
Proof.
  intros H0 H1. set (r := Math_random E (rndIdx w)) in *.
  exists (choose_of r arr). split; [reflexivity |]. split.
  - intros ->. unfold choose_of. cbn [length]. now destruct (_ <? 0)%Z.
  - intros Hne. unfold choose_of. cbv zeta.
    set (n := Z.of_nat (length arr)).
    assert (Hn : (0 < n)%Z) by (subst n; destruct arr; [congruence | cbn [length]; lia]).
    assert (Hi : (0 <= Qfloor (r * inject_Z n) <= n - 1)%Z).
    { assert (Heq : r * inject_Z n == randFloat_of r (inject_Z 0) (inject_Z n))
        by (unfold randFloat_of; change (inject_Z 0) with 0; ring).
      rewrite (Qfloor_comp _ _ Heq). exact (randInt_of_range r 0 n H0 H1 Hn). }
    destruct (Z.ltb_spec (Qfloor (r * inject_Z n)) 0) as [Hneg | _]; [lia |].
    destruct (lookup_lt_is_Some_2 arr (Z.to_nat (Qfloor (r * inject_Z n)))) as [x Hx];
      [subst n; lia |].
    exists x. split; [assumption |]. eapply list_elem_of_lookup_2. eassumption.
Qed.

(** ** The further properties at work in the scenario *)

Lemma arena_registryOk : registryOk arena.
Proof.
  unfold arena.
  destruct (boot_registry scenarioEnv WEAPON_DEFS) as (w' & Hrun & Hreg).
  now rewrite Hrun.
Qed.

Lemma arenaEmpty_wf : wf arenaEmpty.
Proof.
  exact (wf_set_weaponState _ arena arena_wf).
Qed.

Lemma wf_set_input (i : Input.t) (w : World) : wf w -> wf (set_input i w).
Proof.
  intros H. apply (wf_same w _ H); reflexivity.
Qed.

Lemma registryOk_set_input (i : Input.t) (w : World) :
  registryOk w -> registryOk (set_input i w).
Proof.
  intros H. apply (registryOk_ext w _ H); reflexivity.
Qed.

Lemma scenario_random_range (k : nat) :
  0 <= Math_random scenarioEnv k /\ Math_random scenarioEnv k < 1.
Proof.
  split; [discriminate | reflexivity].
Qed.

(** The rifle with 12 rounds left: one reload is queued, the second request
    and the trigger do nothing. *)
Lemma tryReload_twice_queues_once_witness :
  exists w1,
    tryReload WEAPON_DEFS arenaSpent = Some (tt, w1) /\
    tryReload WEAPON_DEFS w1 = Some (tt, w1) /\
    shoot scenarioEnv WEAPON_DEFS w1 = Some (tt, w1) /\
    timers w1 = timers arenaSpent ++ [mkTimer (ReloadDone (currentWeaponIndex arenaSpent))
                                              (WeaponDef.reload assaultRifle * 1000)].
Proof.
  apply (tryReload_twice_queues_once scenarioEnv WEAPON_DEFS arenaSpent assaultRifle
           (set_ammo 12 rifleState)).
  - vm_compute. reflexivity.
  - vm_compute. reflexivity.
  - reflexivity.
  - vm_compute. reflexivity.
  - vm_compute. reflexivity.
Defined.

(** A shot of the full rifle in the arena. *)
Lemma shoot_keeps_ammo_in_range_witness :
  exists w' s',
    shoot scenarioEnv WEAPON_DEFS arena = Some (tt, w') /\
    weaponState w' !! currentWeaponIndex arena = Some s' /\
    ammoInRange assaultRifle s' /\
    (WeaponState.ammo rifleState - 1 <= WeaponState.ammo s' <= WeaponState.ammo rifleState)%Z /\
    WeaponState.reserve s' = WeaponState.reserve rifleState.
Proof.
  apply (shoot_keeps_ammo_in_range scenarioEnv WEAPON_DEFS arena assaultRifle rifleState).
  - exact arena_wf.
  - vm_compute. reflexivity.
  - vm_compute. reflexivity.
  - unfold ammoInRange. cbn. lia.
Defined.

(** The rifle at 12 + 180 rounds ends at 30 + 162. *)
Lemma reloadDone_conserves_rounds_witness :
  exists w' s',
    reloadDone WEAPON_DEFS 2 arenaSpent = Some (tt, w') /\
    weaponState w' !! 2%nat = Some s' /\
    (WeaponState.ammo s' + WeaponState.reserve s' = 192)%Z /\
    WeaponState.ammo s' = 30%Z.
Proof.
  destruct (reloadDone_conserves_rounds WEAPON_DEFS 2 arenaSpent assaultRifle
              (set_ammo 12 rifleState))
    as (w' & s' & Hrun & Hs' & Hsum & Hrange & _ & Hres & Hfull & _).
  - reflexivity.
  - vm_compute. reflexivity.
  - unfold ammoInRange. cbn. lia.
  - exists w', s'. split; [assumption |]. split; [assumption |].
    unfold ammoInRange in Hrange. cbn in Hsum, Hres, Hfull, Hrange.
    split; [assumption |]. lia.
Defined.

(** Asking for weapon -1 in the arena equips the last of the six weapons. *)
Lemma switchWeapon_wraps_in_range_witness :
  exists w',
    switchWeapon WEAPON_DEFS (-1) arena = Some (tt, w') /\
    currentWeaponIndex w' = 5%nat /\
    weaponState w' = weaponState arena.
Proof.
  destruct (switchWeapon_wraps_in_range WEAPON_DEFS (-1) arena)
    as (w' & Hrun & _ & _ & Hneg & _ & Hws & _).
  - cbn. lia.
  - exists w'. split; [assumption |]. split; [apply Hneg; lia | assumption].
Defined.

(** The rifle's reload survives a switch to the shotgun. *)
Lemma reload_completes_after_switch_witness :
  exists w1 w2 w3,
    tryReload WEAPON_DEFS arenaSpent = Some (tt, w1) /\
    switchWeapon WEAPON_DEFS 3 w1 = Some (tt, w2) /\
    fireTimer scenarioEnv WEAPON_DEFS (length (timers arenaSpent)) w2 = Some (tt, w3) /\
    currentWeaponIndex w3 = currentWeaponIndex w2 /\
    weaponState w3 !! 2%nat = Some (WeaponState.mk 30 162 0 false 3).
Proof.
  destruct (reload_completes_after_switch scenarioEnv WEAPON_DEFS arenaSpent assaultRifle
              (set_ammo 12 rifleState) 3)
    as (w1 & w2 & w3 & H1 & H2 & H3 & H4 & H5 & _).
  - vm_compute. reflexivity.
  - vm_compute. reflexivity.
  - reflexivity.
  - vm_compute. reflexivity.
  - vm_compute. reflexivity.
  - exists w1, w2, w3. auto.
Defined.

(** One notch down and one notch up in the arena. *)
Lemma onWheel_round_trip_witness :
  exists w1 w2,
    onWheel WEAPON_DEFS 1 arena = Some (tt, w1) /\
    onWheel WEAPON_DEFS (-1) w1 = Some (tt, w2) /\
    currentWeaponIndex w2 = currentWeaponIndex arena.
Proof.
  destruct (onWheel_round_trip WEAPON_DEFS arena 1 (-1)) as [(w1 & w2 & H1 & H2 & H3 & _) _].
  - vm_compute. lia.
  - reflexivity.
  - reflexivity.
  - exists w1, w2. auto.
Defined.

(** The rifle resolves one pellet per shot. *)
Lemma shoot_pellets_by_key_witness :
  exists w1,
    shoot scenarioEnv WEAPON_DEFS arena = Some (tt, w1) /\
    countEvents isEnemyQuery (log w1) = (1 + countEvents isEnemyQuery (log arena))%nat.
Proof.
  destruct (shoot_pellets_by_key scenarioEnv WEAPON_DEFS arena assaultRifle rifleState)
    as (w1 & k & Hrun & Hcount & Hone & _).
  - exact arena_wf.
  - vm_compute. reflexivity.
  - vm_compute. reflexivity.
  - vm_compute. reflexivity.
  - exists w1. split; [assumption |]. rewrite Hcount, Hone; [reflexivity | discriminate].
Defined.

(** A left click on the empty rifle starts its reload. *)
Lemma onMouseDown_empty_magazine_witness :
  onMouseDown scenarioEnv WEAPON_DEFS 2 arenaEmpty = Some (tt, arenaEmpty) /\
  exists w1,
    onMouseDown scenarioEnv WEAPON_DEFS 0 arenaEmpty = Some (tt, w1) /\
    Input.shooting (input w1) = true /\
    log w1 = log arenaEmpty.
Proof.
  destruct (onMouseDown_empty_magazine scenarioEnv WEAPON_DEFS arenaEmpty assaultRifle
              (set_ammo 0 rifleState) 2)
    as (Hother & w1 & Hrun & Hflag & _ & _ & Hlog).
  - vm_compute. reflexivity.
  - vm_compute. reflexivity.
  - reflexivity.
  - cbn. lia.
  - cbn. lia.
  - cbn. lia.
  - split; [apply Hother; discriminate |]. exists w1. auto.
Defined.

(** A shot in the arena. *)
Lemma shoot_keeps_registry_witness :
  exists w', shoot scenarioEnv WEAPON_DEFS arena = Some (tt, w') /\ wf w' /\ registryOk w'.
Proof.
  apply (shoot_keeps_registry scenarioEnv WEAPON_DEFS arena assaultRifle rifleState).
  - exact arena_wf.
  - exact arena_registryOk.
  - vm_compute. reflexivity.
  - vm_compute. reflexivity.
Defined.

(** The skins of the arena. *)
Lemma boot_skins_valid_witness :
  exists w',
    boot scenarioEnv WEAPON_DEFS blank = Some (tt, w') /\
    forall i s, weaponState w' !! i = Some s ->
      (0 <= WeaponState.skinIndex s)%Z /\
      is_Some (SKIN_LIBRARY !! Z.to_nat (WeaponState.skinIndex s)).
Proof.
  exact (boot_skins_valid scenarioEnv WEAPON_DEFS scenario_random_range).
Defined.

(** A nineteenth enemy for the arena. *)
Lemma createEnemy_spawns_inside_world_witness :
  exists w' en,
    createEnemy scenarioEnv arena = Some (tt, w') /\
    registryOk w' /\
    store w' !! S (nextRef arena) = Some en /\
    Enemy.health en = 100%Z /\
    - (1600) <= vx (Enemy.position en) /\ vx (Enemy.position en) < 1600.
Proof.
  destruct (createEnemy_spawns_inside_world scenarioEnv arena arena_wf arena_registryOk
              scenario_random_range)
    as (w' & en & Hrun & _ & Hreg & _ & _ & Hen & Hh & Hx1 & Hx2 & _).
  exists w', en. auto 10.
Defined.

(** The first enemy of the arena is killed and replaced. *)
Lemma kill_then_respawn_conserves_population_witness :
  exists w1 w2,
    applyDamageToEnemy 1 100 arena = Some (tt, w1) /\
    fireTimer scenarioEnv WEAPON_DEFS (length (timers arena)) w1 = Some (tt, w2) /\
    length (EnemyManager.enemies (enemyManager w2)) =
      length (EnemyManager.enemies (enemyManager arena)) /\
    registryOk w2.
Proof.
  destruct (kill_then_respawn_conserves_population scenarioEnv WEAPON_DEFS arena 1
              firstEnemy 100)
    as (w1 & w2 & H1 & _ & H2 & H3 & _ & H4 & _).
  - exact arena_wf.
  - exact arena_registryOk.
  - apply (bool_decide_unpack _). vm_compute. exact I.
  - vm_compute. reflexivity.
  - vm_compute. discriminate.
  - exists w1, w2. auto.
Defined.

(** A tick for the player standing at the origin. *)
Lemma updateMovement_keeps_grounded_witness :
  exists w', updateMovement scenarioEnv (1 # 60) blank = Some (tt, w') /\ grounded w'.
Proof.
  apply (updateMovement_keeps_grounded scenarioEnv (1 # 60) blank).
  intros _. split; reflexivity.
Defined.

(** The player sliding at (50, 0, -30) with no key held stands still
    after one tick at 60 frames per second. *)
Lemma updateMovement_stops_without_keys_witness :
  exists w',
    updateMovement scenarioEnv (1 # 60) sliding = Some (tt, w') /\
    vx (Player.velocity (player w')) == 0 /\
    vz (Player.velocity (player w')) == 0.
Proof.
  apply (updateMovement_stops_without_keys scenarioEnv (1 # 60) sliding).
  - discriminate.
  - reflexivity.
  - reflexivity.
  - reflexivity.
  - reflexivity.
Defined.

(** One pass over the arena. *)
Lemma updateEnemies_keeps_registry_witness :
  exists w',
    updateEnemies scenarioEnv (1 # 60) arena = Some (tt, w') /\
    wf w' /\ registryOk w' /\
    enemyManager w' = enemyManager arena.
Proof.
  destruct (updateEnemies_keeps_registry scenarioEnv (1 # 60) arena arena_wf arena_registryOk)
    as (w' & Hrun & Hwf & Hreg & Hm & _).
  exists w'. auto.
Defined.

Lemma yard_wf : wf yard.
Proof.
  unfold yard.
  destruct (boot_wf (yardEnv 1000) WEAPON_DEFS blank wf_blank) as (w' & Hrun & Hwf).
  now rewrite Hrun.
Qed.

Lemma yard_registryOk : registryOk yard.
Proof.
  unfold yard.
  destruct (boot_registry (yardEnv 1000) WEAPON_DEFS) as (w' & Hrun & Hreg).
  now rewrite Hrun.
Qed.

Lemma yard_random_range (t0 : Q) (k : nat) :
  0 <= Math_random (yardEnv t0) k /\ Math_random (yardEnv t0) k < 1.
Proof.
  cbn [Math_random yardEnv]. destruct (k <? 60)%nat; (split; [discriminate | reflexivity]).
Qed.

(** Nineteen consecutive readings of the yard's clock span 180 ms. *)
Lemma yard_clock_close (t0 : Q) (j k : nat) :
  (j <= k)%nat -> (k <= 18)%nat ->
  fl (performance_now (yardEnv t0) k - performance_now (yardEnv t0) j) < 200.
Proof.
  intros Hjk Hk. apply Qle_lt_trans with (fl 180); [| vm_compute; reflexivity].
  apply fl_mono. cbn [performance_now yardEnv].
  assert (H : inject_Z (Z.of_nat k) <= inject_Z 18) by (rewrite <- Zle_Qle; lia).
  assert (H0 : inject_Z 0 <= inject_Z (Z.of_nat j)) by (rewrite <- Zle_Qle; lia).
  change (inject_Z 18) with 18 in H. change (inject_Z 0) with 0 in H0. lra.
Qed.

(** In the yard every enemy is 12 units from the player, but at t = 100
    none has waited the 800 ms of its first shot: nobody fires. *)
Lemma updateEnemies_no_shot_from_afar_witness :
  exists w',
    updateEnemies (yardEnv 100) (1 # 60) yard = Some (tt, w') /\
    player w' = player yard /\ timers w' = timers yard.
Proof.
  apply (updateEnemies_no_shot_from_afar (yardEnv 100) (1 # 60) yard yard_wf yard_registryOk).
  assert (Hall :
    forallb (fun e =>
               match store yard !! e with
               | Some en =>
                   Qlt_bool (fl (performance_now (yardEnv 100) (nowIdx yard)
                                 - Enemy.lastShotTime en)) 800
               | None => false
               end)
            (EnemyManager.enemies (enemyManager yard)) = true)
    by (vm_compute; reflexivity).
  intros e en He Hen. right.
  rewrite forallb_forall in Hall. apply list_elem_of_In in He.
  specialize (Hall e He). cbv beta in Hall. rewrite Hen in Hall.
  exact (proj1 (Qlt_bool_iff _ _) Hall).
Defined.

(** A pass over the yard at t = 1000: every enemy is in range and off
    cooldown, every roll of 1/4 is below the chance of 0.35; the first shot
    takes [randInt(6, 14)] = 8 points, the seventeen that follow within
    180 ms fall inside the damage window. *)
Lemma updateEnemies_at_most_one_hit_witness :
  exists w',
    updateEnemies (yardEnv 1000) (1 # 60) yard = Some (tt, w') /\
    (Player.health (player yard) - 14 <= Player.health (player w'))%Z /\
    Player.health (player w') = 92%Z.
Proof.
  destruct (updateEnemies_at_most_one_hit (yardEnv 1000) (1 # 60) yard yard_registryOk
              (yard_random_range 1000))
    as (w' & Hrun & _ & Hh).
  - intros j k _ Hjk Hk. apply yard_clock_close; [assumption |].
    replace (nowIdx yard + length (EnemyManager.enemies (enemyManager yard)))%nat
      with 18%nat in Hk by (vm_compute; reflexivity).
    assumption.
  - exists w'. split; [assumption |]. split; [assumption |].
    assert (Hc : (fun o => match o with
                           | Some (_, w0) => Some (Player.health (player w0))
                           | None => None
                           end) (updateEnemies (yardEnv 1000) (1 # 60) yard) = Some 92%Z)
      by (vm_compute; reflexivity).
    cbv beta in Hc. rewrite Hrun in Hc. now injection Hc.
Defined.

(** The arena with the trigger held: the rifle fires its first round at
    t = 1000. *)
Lemma animate_fires_at_most_one_round_witness :
  exists w' s',
    animate scenarioEnv WEAPON_DEFS (1 # 60)
      (set_input (set_shooting true (input arena)) arena) = Some (tt, w') /\
    weaponState w' !! 2%nat = Some s' /\
    WeaponState.ammo s' = 29%Z /\
    WeaponState.reserve s' = 180%Z.
Proof.
  destruct (animate_fires_at_most_one_round scenarioEnv WEAPON_DEFS (1 # 60)
              (set_input (set_shooting true (input arena)) arena) assaultRifle rifleState)
    as (w' & s' & Hrun & Hs' & _ & Hres & Hfire).
  - exact (wf_set_input _ arena arena_wf).
  - exact (registryOk_set_input _ arena arena_registryOk).
  - vm_compute. reflexivity.
  - vm_compute. reflexivity.
  - exists w', s'. split; [assumption |]. split; [exact Hs' |].
    split; [| exact Hres]. apply Hfire.
    + vm_compute. reflexivity.
    + reflexivity.
    + reflexivity.
    + cbn. lia.
    + vm_compute. discriminate.
    + vm_compute. discriminate.
Defined.

(** A frame in the arena with the rifle equipped and the trigger up. *)
Lemma animate_keeps_invariants_witness :
  exists w',
    animate scenarioEnv WEAPON_DEFS (1 # 60) arena = Some (tt, w') /\
    wf w' /\ registryOk w' /\
    weaponState w' = weaponState arena.
Proof.
  destruct (animate_keeps_invariants scenarioEnv WEAPON_DEFS (1 # 60) arena assaultRifle
              rifleState arena_wf arena_registryOk)
    as (w' & Hrun & Hwf & Hreg & _ & _ & _ & Hws).
  - vm_compute. reflexivity.
  - vm_compute. reflexivity.
  - exists w'. split; [assumption |]. split; [assumption |]. split; [assumption |].
    apply Hws. left. vm_compute. reflexivity.
Defined.

(** A skin name drawn at a roll of 1/2 is the fourth of the library. *)
Lemma choose_returns_element_witness :
  exists o,
    choose scenarioEnv SKIN_LIBRARY blank = Some (o, set_rndIdx 1 blank) /\
    exists x, o = Some x /\ x ∈ SKIN_LIBRARY.
Proof.
  destruct (choose_returns_element scenarioEnv SKIN_LIBRARY blank) as (o & Hrun & _ & Hin).
  - discriminate.
  - reflexivity.
  - exists o. split; [exact Hrun |]. apply Hin. discriminate.
Defined.
